(** * Dependency-graph update flushing (deg_eval_flush.cc)

    A shallow embedding of [source/blender/depsgraph/intern/eval/deg_eval_flush.cc]
    and the properties of its two entry points, [deg_graph_flush_updates] and
    [deg_graph_clear_tags].

    Nodes live in graph-owned tables and every C++ pointer is the index of its
    target in the table ([nat]); following a pointer that has no target stops
    the run ([None]), like the failed assertion on a missing pose component. *)

From Stdlib Require Import ZArith Lia.
From stdpp Require Import base option list strings.

(** ** Node model *)

(** [eDepsNode_Type] and [eDepsOperation_Code] are declared in headers that
    are not part of this file; the members the flush names are kept apart,
    every other member is [.._OTHER n]. *)
Inductive eDepsNode_Type :=
  | DEG_NODE_TYPE_COPY_ON_WRITE
  | DEG_NODE_TYPE_EVAL_POSE
  | DEG_NODE_TYPE_BONE
  | DEG_NODE_TYPE_OTHER (n : nat).

Inductive eDepsOperation_Code :=
  | DEG_OPCODE_PARTICLE_SETTINGS_EVAL
  | DEG_OPCODE_OTHER (n : nat).

#[global] Instance eDepsNode_Type_eq_dec : EqDecision eDepsNode_Type.
Proof. solve_decision. Defined.

#[global] Instance eDepsOperation_Code_eq_dec : EqDecision eDepsOperation_Code.
Proof. solve_decision. Defined.

(** The anonymous enum of component states, lines 58-62. *)
Inductive ComponentState :=
  | COMPONENT_STATE_NONE
  | COMPONENT_STATE_SCHEDULED
  | COMPONENT_STATE_DONE.

#[global] Instance ComponentState_eq_dec : EqDecision ComponentState.
Proof. solve_decision. Defined.

(** The numeric value of each state, as the enum gives it. *)
Definition state_value (s : ComponentState) : nat :=
  match s with
  | COMPONENT_STATE_NONE => 0
  | COMPONENT_STATE_SCHEDULED => 1
  | COMPONENT_STATE_DONE => 2
  end.

(** [OperationDepsNode]: [outlinks] holds the [to] end of each relation. *)
Record OperationDepsNode := {
  op_scheduled : bool;
  op_flag : Z;
  op_opcode : eDepsOperation_Code;
  op_outlinks : list nat;
  op_owner : nat;
}.

(** [ComponentDepsNode]: [get_entry_operation()] and [depends_on_cow()] are
    methods defined outside this file; they are read as attributes of the
    component, the entry operation possibly [NULL]. *)
Record ComponentDepsNode := {
  comp_done : ComponentState;
  comp_type : eDepsNode_Type;
  comp_name : string;
  comp_operations : list nat;
  comp_owner : nat;
  comp_entry_operation : option nat;
  comp_depends_on_cow : bool;
}.

(** [IDDepsNode]: [components] is a hash keyed by component type and name. *)
Record IDDepsNode := {
  id_done : Z;
  id_orig : nat;
  id_cow : nat;
  id_components : list ((eDepsNode_Type * string) * nat);
}.

(** The part of a datablock ([ID]) the flush touches. *)
Record ID := { id_tag : Z }.

(** [Depsgraph]: [operations] and [id_nodes] are the graph's vectors,
    [comp_nodes] is the storage the component pointers point into, and
    [entry_tags] lists the members of the entry set in the order its
    iterator yields them. *)
Record Depsgraph := {
  operations : list OperationDepsNode;
  comp_nodes : list ComponentDepsNode;
  id_nodes : list IDDepsNode;
  entry_tags : list nat;
}.

(** [std::deque<OperationDepsNode *>], front first. *)
Definition FlushQueue := list (option nat).

(** The calls made to the collaborators defined outside the file, recorded
    in the order they are made.  [deg_editors_id_update], a notification, is
    recorded only; [lib_id_recalc_tag] and [lib_id_recalc_data_tag] also
    write the datablock they are handed ([recalc_call] below). *)
Inductive Call :=
  | deg_editors_id_update (id_cow : nat)
  | lib_id_recalc_tag (id_orig : nat)
  | lib_id_recalc_data_tag (id_orig : nat).

#[global] Instance Call_eq_dec : EqDecision Call.
Proof. solve_decision. Defined.

(** Ghost history of the traversal: how each operation entered it, and which
    operation each round of the inner loop handled.  It records the run and
    never influences it. *)
Inductive FlushEvent :=
  | entry_push_back (op : nat)
  | child_push_front (op : nat)
  | child_returned (op : nat)
  | pose_push_front (pose_comp : nat) (op : option nat)
  | visited (op : nat).

#[global] Instance FlushEvent_eq_dec : EqDecision FlushEvent.
Proof. solve_decision. Defined.

(** Everything a flush can change. *)
Record FlushState := {
  graph : Depsgraph;
  datablocks : list ID;
  queue : FlushQueue;
  calls : list Call;
  history : list FlushEvent;
}.

Inductive Outcome :=
  | Finished (st : FlushState)
  | Crashed
  | OutOfFuel.

(** ** Field updates *)

Definition set_op_scheduled (b : bool) (n : OperationDepsNode) : OperationDepsNode :=
  {| op_scheduled := b; op_flag := op_flag n; op_opcode := op_opcode n;
     op_outlinks := op_outlinks n; op_owner := op_owner n |}.

Definition set_op_flag (f : Z) (n : OperationDepsNode) : OperationDepsNode :=
  {| op_scheduled := op_scheduled n; op_flag := f; op_opcode := op_opcode n;
     op_outlinks := op_outlinks n; op_owner := op_owner n |}.

Definition set_comp_done (s : ComponentState) (c : ComponentDepsNode) : ComponentDepsNode :=
  {| comp_done := s; comp_type := comp_type c; comp_name := comp_name c;
     comp_operations := comp_operations c; comp_owner := comp_owner c;
     comp_entry_operation := comp_entry_operation c;
     comp_depends_on_cow := comp_depends_on_cow c |}.

Definition set_id_done (d : Z) (n : IDDepsNode) : IDDepsNode :=
  {| id_done := d; id_orig := id_orig n; id_cow := id_cow n;
     id_components := id_components n |}.

Definition set_operations (l : list OperationDepsNode) (g : Depsgraph) : Depsgraph :=
  {| operations := l; comp_nodes := comp_nodes g; id_nodes := id_nodes g;
     entry_tags := entry_tags g |}.

Definition set_comp_nodes (l : list ComponentDepsNode) (g : Depsgraph) : Depsgraph :=
  {| operations := operations g; comp_nodes := l; id_nodes := id_nodes g;
     entry_tags := entry_tags g |}.

Definition set_id_nodes (l : list IDDepsNode) (g : Depsgraph) : Depsgraph :=
  {| operations := operations g; comp_nodes := comp_nodes g; id_nodes := l;
     entry_tags := entry_tags g |}.

Definition set_entry_tags (l : list nat) (g : Depsgraph) : Depsgraph :=
  {| operations := operations g; comp_nodes := comp_nodes g; id_nodes := id_nodes g;
     entry_tags := l |}.

Definition set_graph (g : Depsgraph) (st : FlushState) : FlushState :=
  {| graph := g; datablocks := datablocks st; queue := queue st;
     calls := calls st; history := history st |}.

Definition set_datablocks (l : list ID) (st : FlushState) : FlushState :=
  {| graph := graph st; datablocks := l; queue := queue st;
     calls := calls st; history := history st |}.

Definition set_queue (q : FlushQueue) (st : FlushState) : FlushState :=
  {| graph := graph st; datablocks := datablocks st; queue := q;
     calls := calls st; history := history st |}.

Definition add_call (c : Call) (st : FlushState) : FlushState :=
  {| graph := graph st; datablocks := datablocks st; queue := queue st;
     calls := calls st ++ [c]; history := history st |}.

Definition record_event (e : FlushEvent) (st : FlushState) : FlushState :=
  {| graph := graph st; datablocks := datablocks st; queue := queue st;
     calls := calls st; history := history st ++ [e] |}.

(** Writes through a pointer: [None] when the pointer has no target. *)
Definition update_op (p : nat) (f : OperationDepsNode → OperationDepsNode)
    (g : Depsgraph) : option Depsgraph :=
  node ← operations g !! p;
  Some (set_operations (<[p := f node]> (operations g)) g).

Definition update_comp (p : nat) (f : ComponentDepsNode → ComponentDepsNode)
    (g : Depsgraph) : option Depsgraph :=
  node ← comp_nodes g !! p;
  Some (set_comp_nodes (<[p := f node]> (comp_nodes g)) g).

Definition update_id (p : nat) (f : IDDepsNode → IDDepsNode)
    (g : Depsgraph) : option Depsgraph :=
  node ← id_nodes g !! p;
  Some (set_id_nodes (<[p := f node]> (id_nodes g)) g).

Definition on_graph (f : Depsgraph → option Depsgraph) (st : FlushState) : option FlushState :=
  g ← f (graph st); Some (set_graph g st).

(** The [foreach] loops: the body runs on each element in turn and the loop
    stops when a body does. *)
Fixpoint foreach {A S : Type} (body : A → S → option S) (l : list A) (s : S) : option S :=
  match l with
  | [] => Some s
  | x :: l => s' ← body x s; foreach body l s'
  end.

(** [BLI_task_parallel_range(start, stop, data, func, use_threading)]: [func]
    runs once for every index of the range.  The bodies used here touch only
    the node of their own index, so the order of the runs is immaterial and
    the sequential one is taken. *)
Definition BLI_task_parallel_range {S : Type} (start stop : nat)
    (func : S → nat → option S) (data : S) : option S :=
  foreach (λ i s, func s i) (seq start (stop - start)) data.

(** [IDDepsNode::find_component(type, name)], [name] defaulting to the empty
    string: the component stored under that key, or [NULL]. *)
Fixpoint BLI_ghash_lookup (key : eDepsNode_Type * string)
    (h : list ((eDepsNode_Type * string) * nat)) : option nat :=
  match h with
  | [] => None
  | (k, v) :: h => if decide (k = key) then Some v else BLI_ghash_lookup key h
  end.

Definition find_component (id_node : IDDepsNode) (type : eDepsNode_Type) : option nat :=
  BLI_ghash_lookup (type, EmptyString) (id_components id_node).

(** ** A worked example *)

(** Values for the constants of the headers, used in the examples only. *)
Definition example_NEEDS_UPDATE : Z := 1.
Definition example_DIRECTLY_MODIFIED : Z := 2.
Definition example_RECALC_ALL : Z := 12288.

(** What the two recalculation calls write in the examples: each sets one
    bit of the mask of recalculation tags on the datablock it is handed. *)
Definition example_recalc_tag (b : ID) : ID := {| id_tag := Z.lor (id_tag b) 4096 |}.
Definition example_recalc_data_tag (b : ID) : ID := {| id_tag := Z.lor (id_tag b) 8192 |}.

(** Modelled from the spec: [ComponentDepsNode::tag_update] is defined
    outside this file.  The spec says of the call that it "only marks that
    component dirty for a future flush", the entry set being the operations
    "externally marked dirty": the designated entry operation of the
    component joins the entry set, unless it is there already. *)
Definition tag_update_spec (c : nat) (g : Depsgraph) : Depsgraph :=
  match comp_nodes g !! c with
  | Some cn =>
      match comp_entry_operation cn with
      | Some op =>
          if decide (op ∈ entry_tags g) then g
          else set_entry_tags (entry_tags g ++ [op]) g
      | None => g
      end
  | None => g
  end.

(** The geometry component of the armature below. *)
Definition armature_geometry : ComponentDepsNode :=
  {| comp_done := COMPONENT_STATE_NONE; comp_type := DEG_NODE_TYPE_OTHER 0;
     comp_name := ""; comp_operations := [1; 5]; comp_owner := 0;
     comp_entry_operation := Some 1; comp_depends_on_cow := false |}.

(** An armature object, with marks left over from an earlier flush.
    Operations: 0 in the bone component, linked to 1 (geometry) and to 2,
    the entry operation of the pose component; 3 a second pose operation no
    link leads to; 4 in the copy-on-write component; 5 a particle settings
    evaluation in the geometry component.  The bone operation is the only
    entry tag. *)
Definition armature : Depsgraph :=
  {| operations :=
       [ {| op_scheduled := false; op_flag := 0; op_opcode := DEG_OPCODE_OTHER 0;
            op_outlinks := [1; 2]; op_owner := 0 |};
         {| op_scheduled := true; op_flag := 0; op_opcode := DEG_OPCODE_OTHER 1;
            op_outlinks := []; op_owner := 2 |};
         {| op_scheduled := false; op_flag := 0; op_opcode := DEG_OPCODE_OTHER 2;
            op_outlinks := []; op_owner := 1 |};
         {| op_scheduled := false; op_flag := 0; op_opcode := DEG_OPCODE_OTHER 3;
            op_outlinks := []; op_owner := 1 |};
         {| op_scheduled := false; op_flag := 0; op_opcode := DEG_OPCODE_OTHER 4;
            op_outlinks := []; op_owner := 3 |};
         {| op_scheduled := false; op_flag := 0;
            op_opcode := DEG_OPCODE_PARTICLE_SETTINGS_EVAL;
            op_outlinks := []; op_owner := 2 |} ];
     comp_nodes :=
       [ {| comp_done := COMPONENT_STATE_NONE; comp_type := DEG_NODE_TYPE_BONE;
            comp_name := "Bone"; comp_operations := [0]; comp_owner := 0;
            comp_entry_operation := Some 0; comp_depends_on_cow := true |};
         {| comp_done := COMPONENT_STATE_DONE; comp_type := DEG_NODE_TYPE_EVAL_POSE;
            comp_name := ""; comp_operations := [2; 3]; comp_owner := 0;
            comp_entry_operation := Some 2; comp_depends_on_cow := false |};
         armature_geometry;
         {| comp_done := COMPONENT_STATE_NONE; comp_type := DEG_NODE_TYPE_COPY_ON_WRITE;
            comp_name := ""; comp_operations := [4]; comp_owner := 0;
            comp_entry_operation := Some 4; comp_depends_on_cow := false |} ];
     id_nodes :=
       [ {| id_done := 1; id_orig := 0; id_cow := 1;
            id_components :=
              [ ((DEG_NODE_TYPE_BONE, "Bone"), 0);
                ((DEG_NODE_TYPE_EVAL_POSE, ""), 1);
                ((DEG_NODE_TYPE_OTHER 0, ""), 2);
                ((DEG_NODE_TYPE_COPY_ON_WRITE, ""), 3) ] |} ];
     entry_tags := [0] |}.

(** The original datablock of the object and its copy. *)
Definition armature_datablocks : list ID := [ {| id_tag := 4096 |}; {| id_tag := 0 |} ].

(** The armature after the state reset and the scheduling of its entry tag. *)
Definition armature_scheduled : FlushState :=
  {| graph :=
       {| operations :=
            <[0 := set_op_scheduled true
                     {| op_scheduled := false; op_flag := 0; op_opcode := DEG_OPCODE_OTHER 0;
                        op_outlinks := [1; 2]; op_owner := 0 |}]>
              (set_op_scheduled false <$> operations armature);
          comp_nodes := set_comp_done COMPONENT_STATE_NONE <$> comp_nodes armature;
          id_nodes := set_id_done 0 <$> id_nodes armature;
          entry_tags := [0] |};
     datablocks := armature_datablocks;
     queue := [Some 0];
     calls := [];
     history := [entry_push_back 0] |}.

(** The armature after a flush with copy-on-write off and the copy of the
    object expanded: operations 0, 1 and 2 were visited, 2 twice; 3 was
    flagged with its component; 4 and 5 were left alone. *)
Definition armature_flushed : FlushState :=
  {| graph :=
       {| operations :=
            [ {| op_scheduled := true; op_flag := 1; op_opcode := DEG_OPCODE_OTHER 0;
                 op_outlinks := [1; 2]; op_owner := 0 |};
              {| op_scheduled := true; op_flag := 1; op_opcode := DEG_OPCODE_OTHER 1;
                 op_outlinks := []; op_owner := 2 |};
              {| op_scheduled := true; op_flag := 1; op_opcode := DEG_OPCODE_OTHER 2;
                 op_outlinks := []; op_owner := 1 |};
              {| op_scheduled := false; op_flag := 1; op_opcode := DEG_OPCODE_OTHER 3;
                 op_outlinks := []; op_owner := 1 |};
              {| op_scheduled := false; op_flag := 0; op_opcode := DEG_OPCODE_OTHER 4;
                 op_outlinks := []; op_owner := 3 |};
              {| op_scheduled := false; op_flag := 0;
                 op_opcode := DEG_OPCODE_PARTICLE_SETTINGS_EVAL;
                 op_outlinks := []; op_owner := 2 |} ];
          comp_nodes :=
            [ set_comp_done COMPONENT_STATE_DONE
                {| comp_done := COMPONENT_STATE_NONE; comp_type := DEG_NODE_TYPE_BONE;
                   comp_name := "Bone"; comp_operations := [0]; comp_owner := 0;
                   comp_entry_operation := Some 0; comp_depends_on_cow := true |};
              {| comp_done := COMPONENT_STATE_DONE; comp_type := DEG_NODE_TYPE_EVAL_POSE;
                 comp_name := ""; comp_operations := [2; 3]; comp_owner := 0;
                 comp_entry_operation := Some 2; comp_depends_on_cow := false |};
              {| comp_done := COMPONENT_STATE_DONE; comp_type := DEG_NODE_TYPE_OTHER 0;
                 comp_name := ""; comp_operations := [1; 5]; comp_owner := 0;
                 comp_entry_operation := Some 1; comp_depends_on_cow := false |};
              {| comp_done := COMPONENT_STATE_NONE; comp_type := DEG_NODE_TYPE_COPY_ON_WRITE;
                 comp_name := ""; comp_operations := [4]; comp_owner := 0;
                 comp_entry_operation := Some 4; comp_depends_on_cow := false |} ];
          id_nodes := id_nodes armature;
          entry_tags := [0] |};
     datablocks := [ {| id_tag := 12288 |}; {| id_tag := 4096 |} ];
     queue := [];
     calls := [deg_editors_id_update 1; lib_id_recalc_tag 0; lib_id_recalc_data_tag 0];
     history := [entry_push_back 0; visited 0; pose_push_front 1 (Some 2);
                 child_returned 1; child_push_front 2; visited 1; visited 2; visited 2] |}.

(** The same flush when the copy of the object is not expanded. *)
Definition armature_flushed_unexpanded : FlushState :=
  {| graph := graph armature_flushed;
     datablocks := datablocks armature_flushed;
     queue := [];
     calls := [lib_id_recalc_tag 0; lib_id_recalc_data_tag 0];
     history := history armature_flushed |}.

(** The same flush with copy-on-write on and [tag_update_spec] as the
    tagging call. *)
Definition armature_flushed_cow : FlushState :=
  set_graph (set_entry_tags [0; 4] (graph armature_flushed)) armature_flushed.

(** The armature after the state reset. *)
Definition armature_reset : Depsgraph :=
  {| operations := set_op_scheduled false <$> operations armature;
     comp_nodes := set_comp_done COMPONENT_STATE_NONE <$> comp_nodes armature;
     id_nodes := set_id_done 0 <$> id_nodes armature;
     entry_tags := entry_tags armature |}.

(** The armature in the middle of that flush, when operation 0 has been
    visited: the bone component is done, the pose component is scheduled,
    operation 1 is the one to visit next and operation 2 waits in the queue,
    twice. *)
Definition armature_bone_visited : FlushState :=
  {| graph :=
       {| operations :=
            [ {| op_scheduled := true; op_flag := 1; op_opcode := DEG_OPCODE_OTHER 0;
                 op_outlinks := [1; 2]; op_owner := 0 |};
              {| op_scheduled := true; op_flag := 0; op_opcode := DEG_OPCODE_OTHER 1;
                 op_outlinks := []; op_owner := 2 |};
              {| op_scheduled := true; op_flag := 0; op_opcode := DEG_OPCODE_OTHER 2;
                 op_outlinks := []; op_owner := 1 |};
              {| op_scheduled := false; op_flag := 0; op_opcode := DEG_OPCODE_OTHER 3;
                 op_outlinks := []; op_owner := 1 |};
              {| op_scheduled := false; op_flag := 0; op_opcode := DEG_OPCODE_OTHER 4;
                 op_outlinks := []; op_owner := 3 |};
              {| op_scheduled := false; op_flag := 0;
                 op_opcode := DEG_OPCODE_PARTICLE_SETTINGS_EVAL;
                 op_outlinks := []; op_owner := 2 |} ];
          comp_nodes :=
            [ {| comp_done := COMPONENT_STATE_DONE; comp_type := DEG_NODE_TYPE_BONE;
                 comp_name := "Bone"; comp_operations := [0]; comp_owner := 0;
                 comp_entry_operation := Some 0; comp_depends_on_cow := true |};
              {| comp_done := COMPONENT_STATE_SCHEDULED; comp_type := DEG_NODE_TYPE_EVAL_POSE;
                 comp_name := ""; comp_operations := [2; 3]; comp_owner := 0;
                 comp_entry_operation := Some 2; comp_depends_on_cow := false |};
              armature_geometry;
              {| comp_done := COMPONENT_STATE_NONE; comp_type := DEG_NODE_TYPE_COPY_ON_WRITE;
                 comp_name := ""; comp_operations := [4]; comp_owner := 0;
                 comp_entry_operation := Some 4; comp_depends_on_cow := false |} ];
          id_nodes := id_nodes armature;
          entry_tags := [0] |};
     datablocks := [ {| id_tag := 12288 |}; {| id_tag := 4096 |} ];
     queue := [Some 2; Some 2];
     calls := [deg_editors_id_update 1; lib_id_recalc_tag 0; lib_id_recalc_data_tag 0];
     history := [entry_push_back 0; visited 0; pose_push_front 1 (Some 2);
                 child_returned 1; child_push_front 2] |}.

(** The armature with operation 1, of the geometry component, as its only
    entry tag, and what a flush with copy-on-write off leaves of it:
    operation 1 alone was visited and the geometry component alone is done;
    the pose component, done when the flush was called, is back to NONE. *)
Definition armature_geometry_tagged : Depsgraph := set_entry_tags [1] armature.

Definition armature_geometry_flushed : FlushState :=
  {| graph :=
       {| operations :=
            <[1 := {| op_scheduled := true; op_flag := 1; op_opcode := DEG_OPCODE_OTHER 1;
                      op_outlinks := []; op_owner := 2 |}]>
              (set_op_scheduled false <$> operations armature);
          comp_nodes :=
            <[2 := set_comp_done COMPONENT_STATE_DONE armature_geometry]>
              (set_comp_done COMPONENT_STATE_NONE <$> comp_nodes armature);
          id_nodes := id_nodes armature;
          entry_tags := [1] |};
     datablocks := [ {| id_tag := 12288 |}; {| id_tag := 4096 |} ];
     queue := [];
     calls := [deg_editors_id_update 1; lib_id_recalc_tag 0; lib_id_recalc_data_tag 0];
     history := [entry_push_back 1; visited 1] |}.

(** ** The flush *)

Section Flush.

(** What the file takes from elsewhere: the two operation flag masks and the
    mask of recalculation tags (constants of headers outside this file), the
    value [DEG_depsgraph_use_copy_on_write()] returns, the query
    [deg_copy_on_write_is_expanded] on a datablock pointer,
    [ComponentDepsNode::tag_update], which receives the component and the
    graph and may change the graph, and what the two calls
    [lib_id_recalc_tag] and [lib_id_recalc_data_tag] leave of the datablock
    they are handed. *)
Variable DEPSOP_FLAG_NEEDS_UPDATE : Z.
Variable DEPSOP_FLAG_DIRECTLY_MODIFIED : Z.
Variable LIB_TAG_ID_RECALC_ALL : Z.
Variable use_copy_on_write : bool.
Variable deg_copy_on_write_is_expanded : nat → bool.
Variable tag_update : nat → Depsgraph → Depsgraph.
Variable recalc_tag : ID → ID.
Variable recalc_data_tag : ID → ID.

(** Lines 68-73. *)
Definition flush_init_operation_node_func (graph : Depsgraph) (i : nat) : option Depsgraph :=
  update_op i (set_op_scheduled false) graph.

(** Lines 75-83. *)
Definition flush_init_id_node_func (graph : Depsgraph) (i : nat) : option Depsgraph :=
  id_node ← id_nodes graph !! i;
  graph ← update_id i (set_id_done 0) graph;
  foreach (λ kc g, update_comp kc.2 (set_comp_done COMPONENT_STATE_NONE) g)
          (id_components id_node) graph.

(** Lines 85-97. *)
Definition flush_prepare (graph : Depsgraph) : option Depsgraph :=
  let num_operations := length (operations graph) in
  graph ← BLI_task_parallel_range 0 num_operations flush_init_operation_node_func graph;
  let num_id_nodes := length (id_nodes graph) in
  BLI_task_parallel_range 0 num_id_nodes flush_init_id_node_func graph.

(** Lines 99-107. *)
Definition flush_schedule_entrypoints (st : FlushState) : option FlushState :=
  foreach (λ op_node st,
             let st := record_event (entry_push_back op_node)
                         (set_queue (queue st ++ [Some op_node]) st) in
             on_graph (update_op op_node (set_op_scheduled true)) st)
          (entry_tags (graph st)) st.

(** Modelled from the spec: [lib_id_recalc_tag] and [lib_id_recalc_data_tag]
    (called at lines 129 and 131) are defined outside this file; the spec
    describes them as tagging calls against the original record, so a call
    rewrites the datablock it is handed and no other one.  What it writes
    there is left open: [written] is what the call leaves of that datablock;
    [call] is the record of the call. *)
Definition recalc_call (written : ID → ID) (call : nat → Call) (id : nat)
    (st : FlushState) : FlushState :=
  add_call (call id) (set_datablocks (alter written id (datablocks st)) st).

(** Lines 109-132. *)
Definition flush_handle_id_node (id_ptr : nat) (st : FlushState) : option FlushState :=
  id_node ← id_nodes (graph st) !! id_ptr;
  if decide (id_done id_node ≠ 0%Z) then Some st else
  st ← on_graph (update_id id_ptr (set_id_done 1)) st;
  orig ← datablocks st !! id_orig id_node;
  cow ← datablocks st !! id_cow id_node;
  let st := set_datablocks
              (<[id_cow id_node :=
                   {| id_tag := Z.lor (id_tag cow)
                                  (Z.land (id_tag orig) LIB_TAG_ID_RECALC_ALL) |}]>
                 (datablocks st)) st in
  let st := if deg_copy_on_write_is_expanded (id_cow id_node)
            then add_call (deg_editors_id_update (id_cow id_node)) st
            else st in
  let st := recalc_call recalc_tag lib_id_recalc_tag (id_orig id_node) st in
  Some (recalc_call recalc_data_tag lib_id_recalc_data_tag (id_orig id_node) st).

(** Lines 156-167: the loop that tags the operations of a component. *)
Definition tag_component_operations (ops : list nat) (graph : Depsgraph) : option Depsgraph :=
  foreach (λ op g,
             node ← operations g !! op;
             if decide (op_opcode node = DEG_OPCODE_PARTICLE_SETTINGS_EVAL) then Some g
             else update_op op (λ n, set_op_flag (Z.lor (op_flag n) DEPSOP_FLAG_NEEDS_UPDATE) n) g)
          ops graph.

(** Lines 168-179: the bone rule. *)
Definition flush_reschedule_pose (id_ptr : nat) (st : FlushState) : option FlushState :=
  id_node ← id_nodes (graph st) !! id_ptr;
  pose_ptr ← find_component id_node DEG_NODE_TYPE_EVAL_POSE;
  pose_comp ← comp_nodes (graph st) !! pose_ptr;
  if decide (comp_done pose_comp = COMPONENT_STATE_NONE) then
    let st := record_event (pose_push_front pose_ptr (comp_entry_operation pose_comp))
                (set_queue (comp_entry_operation pose_comp :: queue st) st) in
    on_graph (update_comp pose_ptr (set_comp_done COMPONENT_STATE_SCHEDULED)) st
  else Some st.

(** Lines 135-180. *)
Definition flush_handle_component_node (id_ptr comp_ptr : nat) (st : FlushState)
    : option FlushState :=
  comp_node ← comp_nodes (graph st) !! comp_ptr;
  if decide (comp_done comp_node = COMPONENT_STATE_DONE) then Some st else
  st ← on_graph (update_comp comp_ptr (set_comp_done COMPONENT_STATE_DONE)) st;
  st ← (if use_copy_on_write && comp_depends_on_cow comp_node then
          id_node ← id_nodes (graph st) !! id_ptr;
          cow_comp ← find_component id_node DEG_NODE_TYPE_COPY_ON_WRITE;
          _ ← comp_nodes (graph st) !! cow_comp;
          Some (set_graph (tag_update cow_comp (graph st)) st)
        else Some st);
  comp_node ← comp_nodes (graph st) !! comp_ptr;
  st ← on_graph (tag_component_operations (comp_operations comp_node)) st;
  comp_node ← comp_nodes (graph st) !! comp_ptr;
  if decide (comp_type comp_node = DEG_NODE_TYPE_BONE)
  then flush_reschedule_pose id_ptr st
  else Some st.

(** Lines 188-206: the state and [result] after one relation of the loop. *)
Definition flush_schedule_child (to_node : nat) (acc : FlushState * option nat)
    : option (FlushState * option nat) :=
  let '(st, result) := acc in
  node ← operations (graph st) !! to_node;
  if op_scheduled node then Some (st, result) else
  let '(st, result) :=
    match result with
    | Some r => (record_event (child_push_front to_node)
                   (set_queue (Some to_node :: queue st) st), Some r)
    | None => (record_event (child_returned to_node) st, Some to_node)
    end in
  st ← on_graph (update_op to_node (set_op_scheduled true)) st;
  Some (st, result).

Definition flush_schedule_children (op_node : nat) (st : FlushState)
    : option (FlushState * option nat) :=
  node ← operations (graph st) !! op_node;
  foreach flush_schedule_child (op_outlinks node) (st, None).

(** Lines 238-252: one round of the inner loop on a non-null [op_node]; the
    result is the state and the next [op_node]. *)
Definition flush_visit (op_node : nat) (st : FlushState) : option (FlushState * option nat) :=
  let st := record_event (visited op_node) st in
  st ← on_graph (update_op op_node
                   (λ n, set_op_flag (Z.lor (op_flag n) DEPSOP_FLAG_NEEDS_UPDATE) n)) st;
  node ← operations (graph st) !! op_node;
  let comp_ptr := op_owner node in
  comp_node ← comp_nodes (graph st) !! comp_ptr;
  let id_ptr := comp_owner comp_node in
  st ← flush_handle_id_node id_ptr st;
  st ← flush_handle_component_node id_ptr comp_ptr st;
  flush_schedule_children op_node st.

(** Lines 235-253: the two nested loops, one round at a time.  With a null
    [op_node] the round is the test of the outer loop and the pop that
    follows it; with a non-null one it is a round of the inner loop. *)
Inductive Round :=
  | Continue (st : FlushState) (op_node : option nat)
  | Stop
  | Crash.

Definition flush_round (st : FlushState) (op_node : option nat) : Round :=
  match op_node with
  | Some op =>
      match flush_visit op st with
      | None => Crash
      | Some (st, next) => Continue st next
      end
  | None =>
      match queue st with
      | [] => Stop
      | front :: rest => Continue (set_queue rest st) front
      end
  end.

Fixpoint flush_loop (fuel : nat) (st : FlushState) (op_node : option nat) : Outcome :=
  match fuel with
  | O => OutOfFuel
  | S fuel =>
      match flush_round st op_node with
      | Continue st op_node => flush_loop fuel st op_node
      | Stop => Finished st
      | Crash => Crashed
      end
  end.

(** Rounds that always suffice (see [flush_loop_terminates]): twice the number
    of operations not yet scheduled, of component state changes still
    possible and of queued entries, and one for the current [op_node]. *)
Definition unscheduled (g : Depsgraph) : nat :=
  length (filter (λ b, b = false) (op_scheduled <$> operations g)).

Definition pending_states (g : Depsgraph) : nat :=
  sum_list ((λ c, 2 - state_value (comp_done c)) <$> comp_nodes g).

Definition flush_rounds (st : FlushState) (op_node : option nat) : nat :=
  2 * (unscheduled (graph st) + pending_states (graph st) + length (queue st))
  + match op_node with Some _ => 1 | None => 0 end.

(** Lines 213-254; [budget] is the number of rounds the loop may take. *)
Definition flush_with (budget : FlushState → nat) (bmain : list ID) (graph : Depsgraph)
    : Outcome :=
  let st := {| graph := graph; datablocks := bmain; queue := []; calls := []; history := [] |} in
  if decide (length (entry_tags graph) = 0) then Finished st else
  match flush_prepare graph with
  | None => Crashed
  | Some graph =>
      match flush_schedule_entrypoints (set_graph graph st) with
      | None => Crashed
      | Some st => flush_loop (budget st) st None
      end
  end.

Definition deg_graph_flush_updates_fuel (fuel : nat) : list ID → Depsgraph → Outcome :=
  flush_with (λ _, fuel).

Definition deg_graph_flush_updates : list ID → Depsgraph → Outcome :=
  flush_with (λ st, S (flush_rounds st None)).

(** Lines 256-262. *)
Definition graph_clear_func (graph : Depsgraph) (i : nat) : option Depsgraph :=
  update_op i (λ n, set_op_flag
                      (Z.land (op_flag n)
                         (Z.lnot (Z.lor DEPSOP_FLAG_DIRECTLY_MODIFIED DEPSOP_FLAG_NEEDS_UPDATE))) n)
            graph.

(** Lines 265-273. *)
Definition deg_graph_clear_tags (graph : Depsgraph) : option Depsgraph :=
  let num_operations := length (operations graph) in
  graph ← BLI_task_parallel_range 0 num_operations graph_clear_func graph;
  Some (set_entry_tags [] graph).

(** ** Definitions the statements use *)

Definition clear_pending (n : OperationDepsNode) : OperationDepsNode :=
  set_op_flag
    (Z.land (op_flag n)
       (Z.lnot (Z.lor DEPSOP_FLAG_DIRECTLY_MODIFIED DEPSOP_FLAG_NEEDS_UPDATE))) n.

Definition raise_needs_update (n : OperationDepsNode) : OperationDepsNode :=
  set_op_flag (Z.lor (op_flag n) DEPSOP_FLAG_NEEDS_UPDATE) n.

Definition has_needs_update (n : OperationDepsNode) : Prop :=
  Z.land (op_flag n) DEPSOP_FLAG_NEEDS_UPDATE = DEPSOP_FLAG_NEEDS_UPDATE.

(** Between two moments of a flush an operation keeps its opcode, links and
    owner, and neither loses [scheduled] nor NEEDS_UPDATE. *)
Definition op_le (n n' : OperationDepsNode) : Prop :=
  op_opcode n' = op_opcode n ∧ op_outlinks n' = op_outlinks n ∧ op_owner n' = op_owner n
  ∧ (op_scheduled n = true → op_scheduled n' = true)
  ∧ (has_needs_update n → has_needs_update n').

(** A component keeps everything but [done], which does not decrease. *)
Definition comp_le (c c' : ComponentDepsNode) : Prop :=
  set_comp_done COMPONENT_STATE_NONE c' = set_comp_done COMPONENT_STATE_NONE c
  ∧ state_value (comp_done c) ≤ state_value (comp_done c').

(** An ID node keeps everything but [done], which does not return to 0. *)
Definition id_le (i i' : IDDepsNode) : Prop :=
  set_id_done 0 i' = set_id_done 0 i ∧ (id_done i ≠ 0%Z → id_done i' ≠ 0%Z).

Definition graph_le (g g' : Depsgraph) : Prop :=
  Forall2 op_le (operations g) (operations g')
  ∧ Forall2 comp_le (comp_nodes g) (comp_nodes g')
  ∧ Forall2 id_le (id_nodes g) (id_nodes g').

(** The [scheduled] flags of all operations, in the order of the vector. *)
Definition sched_flags (g : Depsgraph) : list bool := op_scheduled <$> operations g.

(** A change of operation flags only, with no NEEDS_UPDATE bit dropped. *)
Definition flag_rise (n n' : OperationDepsNode) : Prop :=
  set_op_flag 0 n' = set_op_flag 0 n ∧ (has_needs_update n → has_needs_update n').

Definition flags_only (g g' : Depsgraph) : Prop :=
  Forall2 flag_rise (operations g) (operations g')
  ∧ comp_nodes g' = comp_nodes g ∧ id_nodes g' = id_nodes g.

(** What the flush relies on from [ComponentDepsNode::tag_update]: it may
    raise operation flags and edit the entry set, and leaves the rest of the
    graph alone. *)
Definition tag_update_contract : Prop :=
  ∀ (c : nat) (g : Depsgraph), flags_only g (tag_update c g).

(** Splits a hypothesis [m ≫= k = Some _] on the result of [m]. *)
Ltac bind_inv H :=
  match type of H with
  | (?m ≫= _) = Some _ =>
      let x := fresh "x" in destruct m as [x|] eqn:?; simpl in H; [|done]
  end.

Definition id_handler_calls (n : IDDepsNode) : list Call :=
  (if deg_copy_on_write_is_expanded (id_cow n)
   then [deg_editors_id_update (id_cow n)] else [])
  ++ [lib_id_recalc_tag (id_orig n); lib_id_recalc_data_tag (id_orig n)].

(** The recorded steps that set [scheduled] on operation [p]: the push of an
    entry tag, the push of a child, and the child handed back as the next
    [op_node]. *)
Definition schedules (p : nat) (e : FlushEvent) : Prop :=
  match e with
  | entry_push_back q | child_push_front q | child_returned q => q = p
  | _ => False
  end.

(** The bone rule pushing the entry operation of pose component [c]. *)
Definition is_pose_push (c : nat) (e : FlushEvent) : Prop :=
  match e with
  | pose_push_front c' _ => c' = c
  | _ => False
  end.

(** Any insertion of operation [p] into the queue. *)
Definition enqueues (p : nat) (e : FlushEvent) : Prop :=
  match e with
  | entry_push_back q | child_push_front q => q = p
  | pose_push_front _ op => op = Some p
  | _ => False
  end.

Definition is_visit (e : FlushEvent) : Prop :=
  match e with
  | visited _ => True
  | _ => False
  end.

#[local] Instance schedules_dec p e : Decision (schedules p e).
Proof. destruct e; simpl; apply _. Defined.

#[local] Instance is_pose_push_dec c e : Decision (is_pose_push c e).
Proof. destruct e; simpl; apply _. Defined.

#[local] Instance enqueues_dec p e : Decision (enqueues p e).
Proof. destruct e; simpl; apply _. Defined.

#[local] Instance is_visit_dec e : Decision (is_visit e).
Proof. destruct e; simpl; apply _. Defined.

Definition scheduled_times (p : nat) (h : list FlushEvent) : nat :=
  length (filter (schedules p) h).

Definition pose_pushes (c : nat) (h : list FlushEvent) : nat :=
  length (filter (is_pose_push c) h).

Definition enqueued_times (p : nat) (h : list FlushEvent) : nat :=
  length (filter (enqueues p) h).

Definition visits (h : list FlushEvent) : list FlushEvent := filter is_visit h.

Definition call_times (c : Call) (l : list Call) : nat :=
  length (filter (λ x, x = c) l).

(** 1 when operation [p] exists and is scheduled. *)
Definition sched_bit (g : Depsgraph) (p : nat) : nat :=
  match sched_flags g !! p with
  | Some true => 1
  | _ => 0
  end.

(** 1 when component [c] exists and has left COMPONENT_STATE_NONE. *)
Definition pose_bit (g : Depsgraph) (c : nat) : nat :=
  match comp_nodes g !! c with
  | Some cn => if decide (comp_done cn = COMPONENT_STATE_NONE) then 0 else 1
  | None => 0
  end.

(** The calls the ID nodes handled so far account for. *)
Definition handled_calls (c : Call) (n : IDDepsNode) : nat :=
  if decide (id_done n = 0%Z) then 0 else call_times c (id_handler_calls n).

Definition expected_calls (c : Call) (g : Depsgraph) : nat :=
  sum_list (handled_calls c <$> id_nodes g).

(** What stays to be done, see [flush_rounds]. *)
Definition backlog (st : FlushState) : nat :=
  unscheduled (graph st) + pending_states (graph st) + length (queue st).

Record flush_le (st st' : FlushState) : Prop := {
  le_graph : graph_le (graph st) (graph st');
  le_sched : ∀ p, scheduled_times p (history st') + sched_bit (graph st) p
                  = scheduled_times p (history st) + sched_bit (graph st') p;
  le_pose : ∀ c, pose_pushes c (history st') + pose_bit (graph st) c
                 ≤ pose_pushes c (history st) + pose_bit (graph st') c;
  le_calls : ∀ c, call_times c (calls st') + expected_calls c (graph st)
                  = call_times c (calls st) + expected_calls c (graph st');
  le_entry : use_copy_on_write = false ∨ (∀ c g, entry_tags (tag_update c g) = entry_tags g) →
             entry_tags (graph st') = entry_tags (graph st);
  le_backlog : backlog st' ≤ backlog st;
}.

(** The steps of the two handlers moreover leave the [scheduled] flags and
    the recorded visits as they are and only add to the front of the queue. *)
Record handler_le (st st' : FlushState) : Prop := {
  hl_le : flush_le st st';
  hl_sched : sched_flags (graph st') = sched_flags (graph st);
  hl_visits : visits (history st') = visits (history st);
  hl_queue : queue st `suffix_of` queue st';
}.

(** The order on the pairs (state, [result]) of the loop over the links. *)
Record child_le (a a' : FlushState * option nat) : Prop := {
  cl_le : flush_le a.1 a'.1;
  cl_rounds : flush_rounds a'.1 a'.2 ≤ flush_rounds a.1 a.2;
  cl_visits : visits (history a'.1) = visits (history a.1);
  cl_queue : queue a.1 `suffix_of` queue a'.1;
  cl_result : is_Some a.2 → a'.2 = a.2;
  cl_new : ∀ p, sched_flags (graph a'.1) !! p = Some true →
                sched_flags (graph a.1) !! p = Some true
                ∨ Some p ∈ queue a'.1 ∨ a'.2 = Some p;
}.

(** An operation is settled once it is flagged NEEDS_UPDATE and all the
    operations it links to are scheduled. *)
Definition settled (g : Depsgraph) (n : OperationDepsNode) : Prop :=
  has_needs_update n ∧ ∀ t, t ∈ op_outlinks n → sched_flags g !! t = Some true.

(** The worklist invariant: a scheduled operation is settled, waits in the
    queue, or is the current [op_node]. *)
Definition closure_inv (st : FlushState) (op_node : option nat) : Prop :=
  ∀ p n, operations (graph st) !! p = Some n → op_scheduled n = true →
         settled (graph st) n ∨ Some p ∈ queue st ∨ op_node = Some p.

(** The ID node that owns the component of operation [op] has been handled. *)
Definition handled_entity (g : Depsgraph) (op : nat) : Prop :=
  ∃ n c i, operations g !! op = Some n
         ∧ comp_nodes g !! op_owner n = Some c
         ∧ id_nodes g !! comp_owner c = Some i
         ∧ id_done i ≠ 0%Z.

Definition visits_handled (st : FlushState) : Prop :=
  ∀ op, visited op ∈ visits (history st) → handled_entity (graph st) op.

(** A component after a reset step: as it was, or back to
    COMPONENT_STATE_NONE. *)
Definition reset_comp (c c' : ComponentDepsNode) : Prop :=
  c' = c ∨ c' = set_comp_done COMPONENT_STATE_NONE c.

(** After the reset: the graph the flush was called on, with every
    operation unscheduled, every ID node not done, and the components either
    as they were or back to COMPONENT_STATE_NONE, those in the hash of an ID
    node all back to it. *)
Record reset_of (g g1 : Depsgraph) : Prop := {
  ro_ops : operations g1 = set_op_scheduled false <$> operations g;
  ro_comps : Forall2 reset_comp (comp_nodes g) (comp_nodes g1);
  ro_ids : id_nodes g1 = set_id_done 0 <$> id_nodes g;
  ro_entry : entry_tags g1 = entry_tags g;
  ro_none : ∀ i n kc, id_nodes g !! i = Some n → kc ∈ id_components n →
            ∃ cn, comp_nodes g1 !! kc.2 = Some cn ∧ comp_done cn = COMPONENT_STATE_NONE;
}.

Record entries_scheduled (st st1 : FlushState) : Prop := {
  es_graph : graph_le (graph st) (graph st1);
  es_comps : comp_nodes (graph st1) = comp_nodes (graph st);
  es_ids : id_nodes (graph st1) = id_nodes (graph st);
  es_entry : entry_tags (graph st1) = entry_tags (graph st);
  es_calls : calls st1 = calls st;
  es_flags : op_flag <$> operations (graph st1) = op_flag <$> operations (graph st);
  es_queue : queue st1 = queue st ++ (Some <$> entry_tags (graph st));
  es_history : history st1 = history st ++ (entry_push_back <$> entry_tags (graph st));
  es_sched : ∀ p, sched_flags (graph st1) !! p = Some true
                  ↔ sched_flags (graph st) !! p = Some true ∨ p ∈ entry_tags (graph st);
}.

Definition flush_start (bmain : list ID) (g : Depsgraph) : FlushState :=
  {| graph := g; datablocks := bmain; queue := []; calls := []; history := [] |}.

(** The links, owners, opcodes and keys of a graph, without the marks the
    flush sets. *)
Definition same_shape (g g' : Depsgraph) : Prop :=
  Forall2 (λ n n', op_opcode n' = op_opcode n ∧ op_outlinks n' = op_outlinks n
                   ∧ op_owner n' = op_owner n) (operations g) (operations g')
  ∧ Forall2 (λ c c', set_comp_done COMPONENT_STATE_NONE c'
                     = set_comp_done COMPONENT_STATE_NONE c) (comp_nodes g) (comp_nodes g')
  ∧ Forall2 (λ i i', set_id_done 0 i' = set_id_done 0 i) (id_nodes g) (id_nodes g').

(** The pushes of operation [p] by the bone rule. *)
Definition is_pose_entry_push (p : nat) (e : FlushEvent) : Prop :=
  match e with
  | pose_push_front _ op => op = Some p
  | _ => False
  end.

#[local] Instance is_pose_entry_push_dec p e : Decision (is_pose_entry_push p e).
Proof. destruct e; simpl; apply _. Defined.

Definition pose_entry_pushes (p : nat) (h : list FlushEvent) : nat :=
  length (filter (is_pose_entry_push p) h).

(** The operations reachable from the entry set along outbound links. *)
Inductive reachable (g : Depsgraph) : nat → Prop :=
  | reachable_entry (e : nat) : e ∈ entry_tags g → reachable g e
  | reachable_link (p t : nat) (n : OperationDepsNode) :
      reachable g p → operations g !! p = Some n → t ∈ op_outlinks n → reachable g t.

(** The operations whose flag word changed between two graphs all
    satisfy [S]. *)
Definition flags_changed_within (S : nat → Prop) (g g' : Depsgraph) : Prop :=
  ∀ q n n', operations g !! q = Some n → operations g' !! q = Some n' →
            op_flag n' ≠ op_flag n → S q.

(** The tagging call does not reach the operations, as when copy-on-write
    is off. *)
Definition tagging_keeps_flags : Prop :=
  use_copy_on_write = false ∨ ∀ c g, operations (tag_update c g) = operations g.

(** The operations the flush visited and those owned by the component of an
    operation it visited. *)
Definition touched (g : Depsgraph) (h : list FlushEvent) (q : nat) : Prop :=
  visited q ∈ h
  ∨ ∃ v n c, visited v ∈ h ∧ operations g !! v = Some n
           ∧ comp_nodes g !! op_owner n = Some c ∧ q ∈ comp_operations c.

(** Well-formed graphs: every pointer stored in a node has a target, a bone
    component has a pose sibling, and a component that depends on the
    copy-on-write proxy has, in copy-on-write mode, a copy-on-write sibling.
    [blocks] is the number of datablocks. *)
Definition valid_entry (g : Depsgraph) (x : option nat) : Prop :=
  match x with
  | Some p => p < length (operations g)
  | None => True
  end.

Definition has_component (g : Depsgraph) (i : IDDepsNode) (type : eDepsNode_Type) : Prop :=
  match find_component i type with
  | Some c => c < length (comp_nodes g)
  | None => False
  end.

Definition wf_op (g : Depsgraph) (n : OperationDepsNode) : Prop :=
  op_owner n < length (comp_nodes g)
  ∧ Forall (λ t, t < length (operations g)) (op_outlinks n).

Definition wf_comp (g : Depsgraph) (c : ComponentDepsNode) : Prop :=
  Forall (λ o, o < length (operations g)) (comp_operations c)
  ∧ valid_entry g (comp_entry_operation c)
  ∧ match id_nodes g !! comp_owner c with
    | Some i =>
        (comp_type c = DEG_NODE_TYPE_BONE → has_component g i DEG_NODE_TYPE_EVAL_POSE)
        ∧ (use_copy_on_write && comp_depends_on_cow c = true →
           has_component g i DEG_NODE_TYPE_COPY_ON_WRITE)
    | None => False
    end.

Definition wf_id (blocks : nat) (g : Depsgraph) (i : IDDepsNode) : Prop :=
  id_orig i < blocks ∧ id_cow i < blocks
  ∧ Forall (λ kc : (eDepsNode_Type * string) * nat, kc.2 < length (comp_nodes g))
      (id_components i).

Definition wf_nodes (blocks : nat) (g : Depsgraph) : Prop :=
  Forall (wf_op g) (operations g)
  ∧ Forall (wf_comp g) (comp_nodes g)
  ∧ Forall (wf_id blocks g) (id_nodes g).

Definition well_formed (bmain : list ID) (g : Depsgraph) : Prop :=
  wf_nodes (length bmain) g ∧ Forall (λ e, e < length (operations g)) (entry_tags g).

#[global] Instance valid_entry_dec g x : Decision (valid_entry g x).
Proof. destruct x; simpl; apply _. Defined.

#[global] Instance has_component_dec g i type : Decision (has_component g i type).
Proof. unfold has_component. destruct (find_component i type); apply _. Defined.

#[global] Instance wf_op_dec g n : Decision (wf_op g n).
Proof. unfold wf_op. apply _. Defined.

#[global] Instance wf_comp_dec g c : Decision (wf_comp g c).
Proof. unfold wf_comp. destruct (id_nodes g !! comp_owner c); apply _. Defined.

#[global] Instance wf_id_dec blocks g i : Decision (wf_id blocks g i).
Proof. unfold wf_id. apply _. Defined.

#[global] Instance well_formed_dec bmain g : Decision (well_formed bmain g).
Proof. unfold well_formed, wf_nodes. apply _. Defined.

(** What the loop needs of its state to go on without a crash. *)
Definition run_ok (blocks : nat) (st : FlushState) (op_node : option nat) : Prop :=
  wf_nodes blocks (graph st)
  ∧ length (datablocks st) = blocks
  ∧ Forall (valid_entry (graph st)) (queue st)
  ∧ valid_entry (graph st) op_node.

(** Component pointer [c] is stored in the hash of some ID node of the
    graph. *)
Definition registered (g : Depsgraph) (c : nat) : Prop :=
  Exists (λ n, c ∈ (snd <$> id_components n)) (id_nodes g).

#[global] Instance registered_dec g c : Decision (registered g c).
Proof. unfold registered. apply _. Defined.

(** Every component pointer stored in the hash of an ID node has a target. *)
Definition hashes_in_range (g : Depsgraph) : Prop :=
  Forall (λ n, Forall (λ c, c < length (comp_nodes g)) (snd <$> id_components n))
    (id_nodes g).

#[global] Instance hashes_in_range_dec g : Decision (hashes_in_range g).
Proof. unfold hashes_in_range. apply _. Defined.

(** The datablock line 125 leaves behind [id_cow]. *)
Definition merged_tags (orig cow : ID) : ID :=
  {| id_tag := Z.lor (id_tag cow) (Z.land (id_tag orig) LIB_TAG_ID_RECALC_ALL) |}.

(** The datablocks the ID node handler leaves when it handles node [n]:
    lines 125, 129 and 131, in this order. *)
Definition id_node_writes (n : IDDepsNode) (orig cow : ID) (blocks : list ID) : list ID :=
  alter recalc_data_tag (id_orig n)
    (alter recalc_tag (id_orig n) (<[id_cow n := merged_tags orig cow]> blocks)).

(** The tag of a datablock between two moments of a flush: no bit is lost. *)
Definition tag_kept (b b' : ID) : Prop :=
  ∀ k, Z.testbit (id_tag b) k = true → Z.testbit (id_tag b') k = true.

(** The tag of a datablock between two moments of a flush: the bits gained
    are recalculation tags. *)
Definition tag_gained_recalc (b b' : ID) : Prop :=
  ∀ k, Z.testbit (id_tag b') k = true →
       Z.testbit (id_tag b) k = true ∨ Z.testbit LIB_TAG_ID_RECALC_ALL k = true.

(** [lib_id_recalc_tag] and [lib_id_recalc_data_tag] clear no tag bit of the
    datablock they are handed. *)
Definition recalc_calls_keep_tags : Prop :=
  ∀ b, tag_kept b (recalc_tag b) ∧ tag_kept b (recalc_data_tag b).

(** The tag bits [lib_id_recalc_tag] and [lib_id_recalc_data_tag] set are
    recalculation tags. *)
Definition recalc_calls_set_recalc_tags : Prop :=
  ∀ b, tag_gained_recalc b (recalc_tag b) ∧ tag_gained_recalc b (recalc_data_tag b).

(** The recalculation tags of [orig] are set on [cow]. *)
Definition recalc_tags_copied (orig cow : ID) : Prop :=
  ∀ k, Z.testbit (id_tag orig) k = true → Z.testbit LIB_TAG_ID_RECALC_ALL k = true →
       Z.testbit (id_tag cow) k = true.

(** The datablocks during a flush of graph [g] with datablocks [bmain]: they
    are as many as at the start, and a datablock that is neither the copy nor
    the original of an ID node is as it was; when the two recalculation calls
    clear no tag bit, no tag has lost a bit and the copy of every ID node
    done has the recalculation tags its original had at the start; when the
    two calls set recalculation tags only, so has the flush. *)
Definition datablocks_inv (g : Depsgraph) (bmain : list ID) (st : FlushState) : Prop :=
  length (datablocks st) = length bmain
  ∧ (∀ d, (∀ n, n ∈ id_nodes g → id_cow n ≠ d ∧ id_orig n ≠ d) →
          datablocks st !! d = bmain !! d)
  ∧ (recalc_calls_keep_tags →
     Forall2 tag_kept bmain (datablocks st)
     ∧ ∀ i n, id_nodes (graph st) !! i = Some n → id_done n ≠ 0%Z →
         ∃ orig cow, bmain !! id_orig n = Some orig ∧ datablocks st !! id_cow n = Some cow
                     ∧ recalc_tags_copied orig cow)
  ∧ (recalc_calls_set_recalc_tags → Forall2 tag_gained_recalc bmain (datablocks st)).

(** What the component handler reads through on a component [c] that is not
    done yet, besides the component itself: in copy-on-write mode the
    copy-on-write sibling of a component that depends on it, the operations
    of the component, and the pose sibling of a bone component. *)
Definition comp_handler_ok (g : Depsgraph) (id_ptr : nat) (c : ComponentDepsNode) : Prop :=
  (use_copy_on_write && comp_depends_on_cow c = true →
   ∃ n cc, id_nodes g !! id_ptr = Some n
           ∧ find_component n DEG_NODE_TYPE_COPY_ON_WRITE = Some cc
           ∧ cc < length (comp_nodes g))
  ∧ Forall (λ o, o < length (operations g)) (comp_operations c)
  ∧ (comp_type c = DEG_NODE_TYPE_BONE →
     ∃ n pp, id_nodes g !! id_ptr = Some n
             ∧ find_component n DEG_NODE_TYPE_EVAL_POSE = Some pp
             ∧ pp < length (comp_nodes g)).

(** The link targets that the loop of [flush_schedule_children] finds
    unscheduled, in the order it finds them; [sched] holds the [scheduled]
    flags before the loop, and a target found is scheduled from then on. *)
Fixpoint fresh_links (sched : list bool) (links : list nat) : list nat :=
  match links with
  | [] => []
  | t :: links =>
      if decide (sched !! t = Some false)
      then t :: fresh_links (<[t := true]> sched) links
      else fresh_links sched links
  end.

(** The flag word [f'] is [f], or [f] with NEEDS_UPDATE set. *)
Definition flag_raised (f f' : Z) : Prop :=
  f' = f ∨ f' = Z.lor f DEPSOP_FLAG_NEEDS_UPDATE.

(** The operation flags of [g'] are those of [g], some with NEEDS_UPDATE
    set. *)
Definition raised_only (g g' : Depsgraph) : Prop :=
  Forall2 flag_raised (op_flag <$> operations g) (op_flag <$> operations g').

(** In graph [g], [e] is the entry operation of the pose component of the
    ID node that owns the component of operation [p], a bone component. *)
Definition pose_entry_of (g : Depsgraph) (p e : nat) : Prop :=
  ∃ n c i pp pc,
    operations g !! p = Some n ∧ comp_nodes g !! op_owner n = Some c
    ∧ comp_type c = DEG_NODE_TYPE_BONE
    ∧ id_nodes g !! comp_owner c = Some i
    ∧ find_component i DEG_NODE_TYPE_EVAL_POSE = Some pp
    ∧ comp_nodes g !! pp = Some pc ∧ comp_entry_operation pc = Some e.

(** The operations a flush can come to: the entry tags, the link targets of
    such operations, and the pose entry operations the bone rule can push
    from them. *)
Inductive flush_closure (g : Depsgraph) : nat → Prop :=
  | closure_entry (e : nat) : e ∈ entry_tags g → flush_closure g e
  | closure_link (p t : nat) (n : OperationDepsNode) :
      flush_closure g p → operations g !! p = Some n → t ∈ op_outlinks n →
      flush_closure g t
  | closure_pose (p e : nat) :
      flush_closure g p → pose_entry_of g p e → flush_closure g e.

(** The queue, the current operation and the visits so far are all within
    [flush_closure]. *)
Definition closure_bound (g : Depsgraph) (st : FlushState) (op_node : option nat) : Prop :=
  (∀ x, Some x ∈ queue st → flush_closure g x)
  ∧ (∀ x, op_node = Some x → flush_closure g x)
  ∧ (∀ v, visited v ∈ history st → flush_closure g v).

(** Every scheduled operation has been visited, waits in the queue, or is
    the current operation. *)
Definition visit_inv (st : FlushState) (op_node : option nat) : Prop :=
  ∀ p n, operations (graph st) !! p = Some n → op_scheduled n = true →
         visited p ∈ history st ∨ Some p ∈ queue st ∨ op_node = Some p.

(** What a visit leaves behind: the operation is flagged and its component
    is done. *)
Definition visit_done (g : Depsgraph) (op : nat) : Prop :=
  ∃ n c, operations g !! op = Some n ∧ has_needs_update n
         ∧ comp_nodes g !! op_owner n = Some c ∧ comp_done c = COMPONENT_STATE_DONE.

(** All the operations of component [cn], the particle settings evaluations
    apart, are flagged. *)
Definition comp_tagged (g : Depsgraph) (cn : ComponentDepsNode) : Prop :=
  ∀ q m, q ∈ comp_operations cn → operations g !! q = Some m →
         op_opcode m ≠ DEG_OPCODE_PARTICLE_SETTINGS_EVAL → has_needs_update m.

(** A component that is done was done in [g0] already, or it is tagged. *)
Definition done_tagged (g0 : Depsgraph) (g : Depsgraph) : Prop :=
  ∀ c cn, comp_nodes g !! c = Some cn → comp_done cn = COMPONENT_STATE_DONE →
    (∃ cn0, comp_nodes g0 !! c = Some cn0 ∧ comp_done cn0 = COMPONENT_STATE_DONE)
    ∨ comp_tagged g cn.

(** The visits of operation [p] recorded in a history, and the places it
    holds in a queue. *)
Definition visited_times (p : nat) (h : list FlushEvent) : nat :=
  length (filter (λ e, e = visited p) h).

Definition queued_times (p : nat) (q : list (option nat)) : nat :=
  length (filter (λ x, x = Some p) q).

(** The steps by which the loop moves operations between the queue, the
    current operation and the recorded history: a visit, a push by the bone
    rule of the entry operation of the pose component of an ID node, a
    child handed on as the next operation, a child pushed, and a pop. *)
Inductive event_step (g : Depsgraph)
    : list FlushEvent * FlushQueue * option nat →
      list FlushEvent * FlushQueue * option nat → Prop :=
  | step_visit h q op : event_step g (h, q, Some op) (h ++ [visited op], q, None)
  | step_pose h q a i n pp pc :
      id_nodes g !! i = Some n → find_component n DEG_NODE_TYPE_EVAL_POSE = Some pp →
      comp_nodes g !! pp = Some pc →
      event_step g (h, q, a)
        (h ++ [pose_push_front pp (comp_entry_operation pc)],
         comp_entry_operation pc :: q, a)
  | step_child_returned h q t :
      event_step g (h, q, None) (h ++ [child_returned t], q, Some t)
  | step_child_push h q r t :
      event_step g (h, q, Some r) (h ++ [child_push_front t], Some t :: q, Some r)
  | step_pop h q front : event_step g (h, front :: q, None) (h, q, front).

Inductive event_steps (g : Depsgraph)
    : list FlushEvent * FlushQueue * option nat →
      list FlushEvent * FlushQueue * option nat → Prop :=
  | steps_refl x : event_steps g x x
  | steps_snoc x y z : event_steps g x y → event_step g y z → event_steps g x z.

(** What was handed on for a visit of [p], by scheduling it or by the bone
    rule, has been visited, is in the queue, or is the current operation. *)
Definition visit_balance (p : nat) (x : list FlushEvent * FlushQueue * option nat) : Prop :=
  visited_times p x.1.1 + queued_times p x.1.2
  + (if decide (x.2 = Some p) then 1 else 0)
  = scheduled_times p x.1.1 + pose_entry_pushes p x.1.1.

(** No push of operation [p] by the bone rule is recorded. *)
Definition no_pose_push (p : nat) (x : list FlushEvent * FlushQueue * option nat) : Prop :=
  pose_entry_pushes p x.1.1 = 0.



(** ** Loops *)

Lemma foreach_app {A S : Type} (body : A → S → option S) (l k : list A) (s : S) :
  foreach body (l ++ k) s = foreach body l s ≫= foreach body k.
Proof.
  revert s. induction l as [|x l IH]; intros s; simpl; [done|].
  destruct (body x s) as [s'|]; simpl; [apply IH | done].
Qed.

(** A property kept by every round of a [foreach] loop holds when it ends. *)
Lemma foreach_invariant {A S : Type} (P : S → Prop) (body : A → S → option S)
    (l : list A) (s s' : S) :
  (∀ x t t', x ∈ l → P t → body x t = Some t' → P t') →
  P s → foreach body l s = Some s' → P s'.
Proof.
  revert s. induction l as [|x l IH]; intros s Hbody Hs Hrun; simpl in Hrun.
  - by inversion Hrun; subst.
  - destruct (body x s) as [t|] eqn:Hx; simpl in Hrun; [|done].
    apply (IH t); [| |done].
    + intros y u u' Hy. apply Hbody. by right.
    + eapply Hbody; [left|done..].
Qed.

(** Running [update_op] on every index of the operations vector rewrites
    each node in place. *)
Lemma update_op_all_prefix (f : OperationDepsNode → OperationDepsNode) (g : Depsgraph) (k : nat) :
  k ≤ length (operations g) →
  foreach (λ i s, update_op i f s) (seq 0 k) g
  = Some (set_operations ((f <$> take k (operations g)) ++ drop k (operations g)) g).
Proof.
  induction k as [|k IH]; intros Hk.
  - simpl. by destruct g.
  - rewrite seq_S, foreach_app, IH by lia. simpl.
    destruct (lookup_lt_is_Some_2 (operations g) k) as [n Hn]; [lia|].
    unfold update_op. simpl.
    assert (Hlen : length (f <$> take k (operations g)) = k).
    { rewrite length_fmap, length_take. lia. }
    rewrite lookup_app_r by lia. rewrite Hlen, Nat.sub_diag, lookup_drop, Nat.add_0_r, Hn.
    simpl. f_equal. unfold set_operations. simpl. f_equal.
    rewrite insert_app_r_alt by lia. rewrite Hlen, Nat.sub_diag.
    rewrite (take_S_r _ _ n Hn), fmap_app, <- app_assoc. simpl. f_equal.
    rewrite (drop_S _ _ _ Hn). done.
Qed.

Lemma update_op_all (f : OperationDepsNode → OperationDepsNode) (g : Depsgraph) :
  BLI_task_parallel_range 0 (length (operations g)) (λ g i, update_op i f g) g
  = Some (set_operations (f <$> operations g) g).
Proof.
  unfold BLI_task_parallel_range. rewrite Nat.sub_0_r, update_op_all_prefix by done.
  by rewrite firstn_all, drop_all, app_nil_r.
Qed.

(** ** Tag clear *)

Lemma deg_graph_clear_tags_eq (g : Depsgraph) :
  deg_graph_clear_tags g
  = Some (set_entry_tags [] (set_operations (clear_pending <$> operations g) g)).
Proof.
  unfold deg_graph_clear_tags.
  change graph_clear_func with (λ g i, update_op i clear_pending g).
  by rewrite (update_op_all clear_pending g).
Qed.

Lemma land_clear_twice (f a b : Z) :
  Z.land (Z.land f (Z.lnot (Z.lor a b))) (Z.lnot (Z.lor a b)) = Z.land f (Z.lnot (Z.lor a b)).
Proof. by rewrite <- Z.land_assoc, Z.land_diag. Qed.

Lemma land_clear_left (f a b : Z) : Z.land (Z.land f (Z.lnot (Z.lor a b))) a = 0%Z.
Proof.
  apply Z.bits_inj'. intros i Hi.
  rewrite !Z.land_spec, Z.lnot_spec, Z.lor_spec, Z.bits_0 by done.
  destruct (Z.testbit f i), (Z.testbit a i), (Z.testbit b i); done.
Qed.

Lemma land_clear_right (f a b : Z) : Z.land (Z.land f (Z.lnot (Z.lor a b))) b = 0%Z.
Proof. rewrite (Z.lor_comm a b). apply land_clear_left. Qed.

Lemma clear_pending_twice (n : OperationDepsNode) :
  clear_pending (clear_pending n) = clear_pending n.
Proof. unfold clear_pending, set_op_flag. simpl. by rewrite land_clear_twice. Qed.

(** C9.  Clearing the tags twice gives the graph that clearing them once
    gives; that graph has an empty entry set and no operation with a bit of
    DIRECTLY_MODIFIED or NEEDS_UPDATE left.  Nothing is asked of the graph, so
    the same holds when no flush came before. *)
Theorem clear_tags_idempotent (g : Depsgraph) :
  ∃ g1, deg_graph_clear_tags g = Some g1
      ∧ deg_graph_clear_tags g1 = Some g1
      ∧ entry_tags g1 = []
      ∧ ∀ n, n ∈ operations g1 →
             Z.land (op_flag n) DEPSOP_FLAG_DIRECTLY_MODIFIED = 0%Z
             ∧ Z.land (op_flag n) DEPSOP_FLAG_NEEDS_UPDATE = 0%Z.
Proof.
  eexists. split; [apply deg_graph_clear_tags_eq|]. split; [|split].
  - rewrite deg_graph_clear_tags_eq. unfold set_entry_tags, set_operations. simpl.
    rewrite <- list_fmap_compose.
    rewrite (list_fmap_ext (clear_pending ∘ clear_pending) clear_pending (operations g)); [done|].
    intros i n _. apply clear_pending_twice.
  - done.
  - simpl. intros n Hn. apply list_elem_of_fmap in Hn as (m & -> & _).
    unfold clear_pending. simpl. split; [apply land_clear_left | apply land_clear_right].
Qed.
Lemma clear_pending_bits (n : OperationDepsNode) (i : Z) :
  Z.testbit (op_flag (clear_pending n)) i
  = Z.testbit (op_flag n) i
    && negb (Z.testbit DEPSOP_FLAG_DIRECTLY_MODIFIED i || Z.testbit DEPSOP_FLAG_NEEDS_UPDATE i).
Proof.
  unfold clear_pending. simpl. destruct (Z.lt_ge_cases i 0) as [Hi|Hi].
  - by rewrite !Z.testbit_neg_r.
  - by rewrite Z.land_spec, Z.lnot_spec, Z.lor_spec.
Qed.

(** ** The component handler's tagging loop *)

Lemma raise_needs_update_twice (n : OperationDepsNode) :
  raise_needs_update (raise_needs_update n) = raise_needs_update n.
Proof.
  unfold raise_needs_update, set_op_flag. simpl.
  by rewrite <- Z.lor_assoc, Z.lor_diag.
Qed.

Lemma raise_needs_update_has (n : OperationDepsNode) :
  has_needs_update (raise_needs_update n).
Proof.
  unfold has_needs_update, raise_needs_update. simpl.
  apply Z.bits_inj'. intros i _. rewrite Z.land_spec, Z.lor_spec.
  destruct (Z.testbit (op_flag n) i), (Z.testbit DEPSOP_FLAG_NEEDS_UPDATE i); done.
Qed.

Lemma tag_component_operations_lookup (ops : list nat) :
  ∀ g, Forall (λ p, is_Some (operations g !! p)) ops →
    ∃ g', tag_component_operations ops g = Some g'
        ∧ comp_nodes g' = comp_nodes g ∧ id_nodes g' = id_nodes g
        ∧ entry_tags g' = entry_tags g
        ∧ ∀ p n, operations g !! p = Some n →
            operations g' !! p
            = Some (if decide (p ∈ ops ∧ op_opcode n ≠ DEG_OPCODE_PARTICLE_SETTINGS_EVAL)
                    then raise_needs_update n else n).
Proof.
  induction ops as [|x ops IH]; intros g Hvalid.
  - exists g. repeat split; [done..|]. intros p n Hp.
    rewrite decide_False; [done|]. intros [Hin _]. by apply elem_of_nil in Hin.
  - apply Forall_cons in Hvalid as [[nx Hx] Hvalid].
    unfold tag_component_operations. simpl. rewrite Hx. simpl.
    destruct (decide (op_opcode nx = DEG_OPCODE_PARTICLE_SETTINGS_EVAL)) as [Hcode|Hcode].
    + destruct (IH g Hvalid) as (g' & Hrun & Hc & Hi & He & Hops).
      exists g'. repeat split; [done..|]. intros p n Hp. rewrite (Hops p n Hp).
      f_equal. destruct (decide (p = x)) as [->|Hne].
      * assert (n = nx) as -> by congruence.
        rewrite !decide_False; [done|intros [_ ?]; done..].
      * apply decide_ext. rewrite elem_of_cons.
        split; (intros [Hin ?]; split; [|done]);
          first [by right | destruct Hin as [?|?]; [congruence|done]].
    + unfold update_op. rewrite Hx. simpl.
      set (g1 := set_operations _ g).
      destruct (IH g1) as (g' & Hrun & Hc & Hi & He & Hops).
      { eapply Forall_impl; [exact Hvalid|]. intros p [n Hp]. simpl.
        apply lookup_lt_is_Some. rewrite length_insert. by eapply lookup_lt_Some. }
      exists g'. repeat split; [done..|]. intros p n Hp.
      destruct (decide (p = x)) as [->|Hne].
      * assert (n = nx) as -> by congruence.
        rewrite (Hops x (raise_needs_update nx)).
        2:{ simpl. apply list_lookup_insert_eq. by eapply lookup_lt_Some. }
        simpl. rewrite (decide_True (P := x ∈ x :: ops ∧ _)) by (split; [left|done]).
        case_decide; [by rewrite raise_needs_update_twice | done].
      * rewrite (Hops p n) by (simpl; by rewrite list_lookup_insert_ne).
        f_equal. apply decide_ext. rewrite elem_of_cons.
        split; (intros [Hin ?]; split; [|done]);
          first [by right | destruct Hin as [?|?]; [congruence|done]].
Qed.

(** ** The early return *)

(** C6.  With an empty entry set the flush returns at once: the graph, the
    datablocks and the queue are the ones it was given, no collaborator was
    called and nothing entered the traversal; this with any bound on the
    rounds of the loop, which is never entered. *)
Theorem flush_empty_entry_set (bmain : list ID) (g : Depsgraph) :
  entry_tags g = [] →
  deg_graph_flush_updates bmain g
  = Finished {| graph := g; datablocks := bmain; queue := []; calls := []; history := [] |}
  ∧ ∀ fuel, deg_graph_flush_updates_fuel fuel bmain g = deg_graph_flush_updates bmain g.
Proof.
  intros Hempty. unfold deg_graph_flush_updates_fuel, deg_graph_flush_updates, flush_with.
  by rewrite Hempty.
Qed.

(** ** What a step may change *)

Lemma Forall2_refl_on {A : Type} (R : A → A → Prop) (l : list A) :
  (∀ x, R x x) → Forall2 R l l.
Proof. intros HR. induction l; constructor; auto. Qed.

Lemma Forall2_trans_on {A : Type} (R : A → A → Prop) (l k m : list A) :
  (∀ x y z, R x y → R y z → R x z) → Forall2 R l k → Forall2 R k m → Forall2 R l m.
Proof.
  intros HR Hlk. revert m. induction Hlk as [|x y l k Hxy _ IH]; intros m Hkm.
  - by inversion Hkm.
  - inversion Hkm as [|y' z k' m' Hyz Hkm']; subst. constructor; eauto.
Qed.

Lemma Forall2_insert_same {A : Type} (R : A → A → Prop) (l : list A) (i : nat) (x y : A) :
  (∀ z, R z z) → l !! i = Some x → R x y → Forall2 R l (<[i:=y]> l).
Proof.
  intros HR Hi Hxy. rewrite <- (list_insert_id l i x Hi) at 1.
  apply Forall2_insert; [by apply Forall2_refl_on | done].
Qed.

Lemma op_le_refl n : op_le n n.
Proof. by repeat split. Qed.

Lemma op_le_trans n1 n2 n3 : op_le n1 n2 → op_le n2 n3 → op_le n1 n3.
Proof.
  intros (? & ? & ? & ? & ?) (? & ? & ? & ? & ?).
  repeat split; [congruence..|auto|auto].
Qed.

Lemma comp_le_refl c : comp_le c c.
Proof. by split. Qed.

Lemma comp_le_trans c1 c2 c3 : comp_le c1 c2 → comp_le c2 c3 → comp_le c1 c3.
Proof. intros [? ?] [? ?]. split; [congruence|lia]. Qed.

Lemma id_le_refl i : id_le i i.
Proof. by split. Qed.

Lemma id_le_trans i1 i2 i3 : id_le i1 i2 → id_le i2 i3 → id_le i1 i3.
Proof. intros [? ?] [? ?]. split; [congruence|auto]. Qed.

Lemma graph_le_refl g : graph_le g g.
Proof.
  repeat split; apply Forall2_refl_on;
    [apply op_le_refl | apply comp_le_refl | apply id_le_refl].
Qed.

Lemma graph_le_trans g1 g2 g3 : graph_le g1 g2 → graph_le g2 g3 → graph_le g1 g3.
Proof.
  intros (? & ? & ?) (? & ? & ?). repeat split.
  - eapply Forall2_trans_on; [apply op_le_trans|done..].
  - eapply Forall2_trans_on; [apply comp_le_trans|done..].
  - eapply Forall2_trans_on; [apply id_le_trans|done..].
Qed.

Lemma flag_rise_refl n : flag_rise n n.
Proof. by split. Qed.

Lemma flag_rise_trans n1 n2 n3 : flag_rise n1 n2 → flag_rise n2 n3 → flag_rise n1 n3.
Proof. intros [? ?] [? ?]. split; [congruence|auto]. Qed.

Lemma flag_rise_le n n' : flag_rise n n' → op_le n n'.
Proof.
  intros [Heq Hnu]. unfold set_op_flag in Heq. injection Heq as Hs Hc Hl Ho.
  repeat split; [done..| congruence | done].
Qed.

Lemma flags_only_refl g : flags_only g g.
Proof. repeat split. apply Forall2_refl_on, flag_rise_refl. Qed.

Lemma flags_only_trans g1 g2 g3 : flags_only g1 g2 → flags_only g2 g3 → flags_only g1 g3.
Proof.
  intros (? & ? & ?) (? & ? & ?). repeat split; [|congruence..].
  eapply Forall2_trans_on; [apply flag_rise_trans|done..].
Qed.

Lemma flags_only_le g g' : flags_only g g' → graph_le g g'.
Proof.
  intros (Hops & Hc & Hi). repeat split.
  - eapply Forall2_impl; [exact Hops|]. apply flag_rise_le.
  - rewrite Hc. apply Forall2_refl_on, comp_le_refl.
  - rewrite Hi. apply Forall2_refl_on, id_le_refl.
Qed.

Lemma flags_only_sched g g' : flags_only g g' → sched_flags g' = sched_flags g.
Proof.
  intros (Hops & _ & _). unfold sched_flags.
  induction Hops as [|n n' l l' [Heq _] _ IH]; [done|].
  rewrite !fmap_cons, IH. f_equal. unfold set_op_flag in Heq. by injection Heq.
Qed.

Lemma update_op_inv p f g g' :
  update_op p f g = Some g' →
  ∃ n, operations g !! p = Some n ∧ g' = set_operations (<[p := f n]> (operations g)) g.
Proof.
  unfold update_op. destruct (operations g !! p) as [n|]; simpl; [|done].
  intros [= <-]. by exists n.
Qed.

Lemma update_comp_inv p f g g' :
  update_comp p f g = Some g' →
  ∃ c, comp_nodes g !! p = Some c ∧ g' = set_comp_nodes (<[p := f c]> (comp_nodes g)) g.
Proof.
  unfold update_comp. destruct (comp_nodes g !! p) as [c|]; simpl; [|done].
  intros [= <-]. by exists c.
Qed.

Lemma update_id_inv p f g g' :
  update_id p f g = Some g' →
  ∃ n, id_nodes g !! p = Some n ∧ g' = set_id_nodes (<[p := f n]> (id_nodes g)) g.
Proof.
  unfold update_id. destruct (id_nodes g !! p) as [n|]; simpl; [|done].
  intros [= <-]. by exists n.
Qed.

Lemma raise_flags_only p g g' :
  update_op p raise_needs_update g = Some g' → flags_only g g'.
Proof.
  intros (n & Hn & ->)%update_op_inv. repeat split. simpl.
  apply (Forall2_insert_same _ _ _ n); [apply flag_rise_refl|done|].
  split; [done|]. intros _. apply raise_needs_update_has.
Qed.

Lemma tag_component_operations_flags_only ops g g' :
  tag_component_operations ops g = Some g' → flags_only g g' ∧ entry_tags g' = entry_tags g.
Proof.
  unfold tag_component_operations.
  apply (foreach_invariant (λ t, flags_only g t ∧ entry_tags t = entry_tags g)).
  - intros p t t' _ [Ht He] Hbody.
    destruct (operations t !! p) as [n|] eqn:Hn; simpl in Hbody; [|done].
    case_decide; [by inversion Hbody; subst|].
    split.
    + eapply flags_only_trans; [exact Ht|]. by eapply raise_flags_only.
    + apply update_op_inv in Hbody as (? & _ & ->). done.
  - split; [apply flags_only_refl|done].
Qed.

(** ** What each handler does, case by case *)

Lemma flush_handle_id_node_inv i st st' :
  flush_handle_id_node i st = Some st' →
  ∃ n, id_nodes (graph st) !! i = Some n ∧
    ((id_done n ≠ 0%Z ∧ st' = st) ∨
     (id_done n = 0%Z ∧ ∃ dbs,
        st' = {| graph := set_id_nodes (<[i := set_id_done 1 n]> (id_nodes (graph st))) (graph st);
                 datablocks := dbs; queue := queue st;
                 calls := calls st ++ id_handler_calls n; history := history st |})).
Proof.
  unfold flush_handle_id_node. intros Hrun.
  destruct (id_nodes (graph st) !! i) as [n|] eqn:Hn; simpl in Hrun; [|done].
  exists n. split; [done|]. case_decide as Hdone.
  - left. by inversion Hrun.
  - right. split; [destruct (decide (id_done n = 0%Z)); [done | by destruct Hdone]|].
    unfold on_graph, update_id in Hrun. rewrite Hn in Hrun. simpl in Hrun.
    destruct (datablocks st !! id_orig n) as [orig|]; simpl in Hrun; [|done].
    destruct (datablocks st !! id_cow n) as [cow|]; simpl in Hrun; [|done].
    inversion Hrun; subst; clear Hrun. eexists.
    unfold id_handler_calls, recalc_call, add_call, set_datablocks, set_graph. simpl.
    destruct (deg_copy_on_write_is_expanded (id_cow n)); simpl;
      rewrite <- ?app_assoc; simpl; reflexivity.
Qed.

Lemma flush_reschedule_pose_inv i st st' :
  flush_reschedule_pose i st = Some st' →
  ∃ n pose_ptr pc,
    id_nodes (graph st) !! i = Some n
    ∧ find_component n DEG_NODE_TYPE_EVAL_POSE = Some pose_ptr
    ∧ comp_nodes (graph st) !! pose_ptr = Some pc
    ∧ ((comp_done pc ≠ COMPONENT_STATE_NONE ∧ st' = st) ∨
       (comp_done pc = COMPONENT_STATE_NONE ∧
        st' = {| graph := set_comp_nodes
                            (<[pose_ptr := set_comp_done COMPONENT_STATE_SCHEDULED pc]>
                               (comp_nodes (graph st))) (graph st);
                 datablocks := datablocks st;
                 queue := comp_entry_operation pc :: queue st;
                 calls := calls st;
                 history := history st ++ [pose_push_front pose_ptr (comp_entry_operation pc)] |})).
Proof.
  unfold flush_reschedule_pose. intros Hrun.
  destruct (id_nodes (graph st) !! i) as [n|]; simpl in Hrun; [|done].
  destruct (find_component n DEG_NODE_TYPE_EVAL_POSE) as [pose_ptr|] eqn:Hfind;
    simpl in Hrun; [|done].
  destruct (comp_nodes (graph st) !! pose_ptr) as [pc|] eqn:Hpc; simpl in Hrun; [|done].
  exists n, pose_ptr, pc. do 3 (split; [done|]). case_decide as Hdone.
  - right. split; [done|]. unfold on_graph, update_comp in Hrun. simpl in Hrun.
    rewrite Hpc in Hrun. simpl in Hrun. by inversion Hrun.
  - left. by inversion Hrun.
Qed.

Lemma tag_component_operations_within ops g g' :
  tag_component_operations ops g = Some g' → flags_changed_within (λ q, q ∈ ops) g g'.
Proof.
  unfold tag_component_operations.
  apply (foreach_invariant (λ t, flags_changed_within (λ q, q ∈ ops) g t)).
  - intros x t t' Hx Ht Hbody.
    destruct (operations t !! x) as [nx|] eqn:Hnx; simpl in Hbody; [|done].
    case_decide; [by inversion Hbody; subst|].
    apply update_op_inv in Hbody as (? & _ & ->). intros q n n' Hn Hn' Hflag.
    destruct (decide (q = x)) as [->|Hne]; [done|].
    simpl in Hn'. rewrite list_lookup_insert_ne in Hn' by done. by eapply Ht.
  - intros q n n' Hn Hn' Hflag. congruence.
Qed.

(** The component handler on a component that is not DONE yet: the graph
    [g2] it reaches before the bone rule differs from the graph with the
    component marked DONE in operation flags and entry tags only. *)
Lemma flush_handle_component_node_inv i p st st' :
  tag_update_contract →
  flush_handle_component_node i p st = Some st' →
  ∃ c, comp_nodes (graph st) !! p = Some c ∧
    ((comp_done c = COMPONENT_STATE_DONE ∧ st' = st) ∨
     (comp_done c ≠ COMPONENT_STATE_DONE ∧
      ∃ g2,
        flags_only
          (set_comp_nodes (<[p := set_comp_done COMPONENT_STATE_DONE c]>
                             (comp_nodes (graph st))) (graph st)) g2
        ∧ (use_copy_on_write = false ∨
           (∀ c g, entry_tags (tag_update c g) = entry_tags g) →
           entry_tags g2 = entry_tags (graph st))
        ∧ (tagging_keeps_flags →
           flags_changed_within (λ q, q ∈ comp_operations c) (graph st) g2)
        ∧ (st' = set_graph g2 st ∨ flush_reschedule_pose i (set_graph g2 st) = Some st'))).
Proof.
  intros Hcontract. unfold flush_handle_component_node. intros Hrun.
  destruct (comp_nodes (graph st) !! p) as [c|] eqn:Hc; simpl in Hrun; [|done].
  exists c. split; [done|]. case_decide as Hdone.
  - left. by inversion Hrun.
  - right. split; [done|].
    unfold on_graph, update_comp in Hrun. simpl in Hrun. rewrite Hc in Hrun. simpl in Hrun.
    set (g0 := set_comp_nodes _ (graph st)) in *.
    match type of Hrun with (?m ≫= _) = _ => destruct m as [st0|] eqn:Hcow end;
      simpl in Hrun; [|done].
    assert (∃ g1, st0 = set_graph g1 st ∧ flags_only g0 g1
                ∧ (use_copy_on_write = false ∨
                   (∀ c g, entry_tags (tag_update c g) = entry_tags g) →
                   entry_tags g1 = entry_tags (graph st))
                ∧ (tagging_keeps_flags → operations g1 = operations (graph st)))
      as (g1 & -> & Hg1 & He1 & Ho1).
    { destruct (use_copy_on_write && comp_depends_on_cow c) eqn:Hmode.
      - do 3 bind_inv Hcow. inversion Hcow; subst; clear Hcow.
        eexists (tag_update _ g0). split; [done|]. split; [apply Hcontract|]. split.
        + intros [Hoff | Hkeep]; [|by rewrite Hkeep]. rewrite Hoff in Hmode. done.
        + intros [Hoff | Hkeep]; [|by rewrite Hkeep]. rewrite Hoff in Hmode. done.
      - inversion Hcow; subst; clear Hcow.
        exists g0. split; [done|]. split; [apply flags_only_refl|done]. }
    clear Hcow. simpl in Hrun.
    destruct (comp_nodes g1 !! p) as [c1|] eqn:Hc1; simpl in Hrun; [|done].
    destruct (tag_component_operations (comp_operations c1) g1) as [g2|] eqn:Htag;
      simpl in Hrun; [|done].
    pose proof (tag_component_operations_within _ _ _ Htag) as Hwithin.
    apply tag_component_operations_flags_only in Htag as [Hg2 He2].
    exists g2. split; [by eapply flags_only_trans|]. split; [intros H; rewrite He2; auto|].
    split.
    { intros Hkeep q n n' Hn Hn' Hflag.
      assert (comp_operations c1 = comp_operations c) as <-.
      { destruct Hg1 as (_ & Hcomps & _). rewrite Hcomps in Hc1. unfold g0 in Hc1.
        simpl in Hc1. rewrite list_lookup_insert_eq in Hc1 by (by eapply lookup_lt_Some).
        by inversion Hc1. }
      apply (Hwithin q n n'); [|done..]. by rewrite (Ho1 Hkeep). }
    destruct (comp_nodes g2 !! p) as [c2|]; simpl in Hrun; [|done].
    case_decide; [by right | left; by inversion Hrun].
Qed.

Lemma flush_schedule_child_inv t st r st' r' :
  flush_schedule_child t (st, r) = Some (st', r') →
  ∃ n, operations (graph st) !! t = Some n ∧
    ((op_scheduled n = true ∧ st' = st ∧ r' = r) ∨
     (op_scheduled n = false
      ∧ graph st' = set_operations (<[t := set_op_scheduled true n]> (operations (graph st)))
                      (graph st)
      ∧ datablocks st' = datablocks st ∧ calls st' = calls st
      ∧ ((r = None ∧ r' = Some t ∧ queue st' = queue st
          ∧ history st' = history st ++ [child_returned t]) ∨
         (is_Some r ∧ r' = r ∧ queue st' = Some t :: queue st
          ∧ history st' = history st ++ [child_push_front t])))).
Proof.
  unfold flush_schedule_child. intros Hrun.
  destruct (operations (graph st) !! t) as [n|] eqn:Hn; simpl in Hrun; [|done].
  exists n. split; [done|]. destruct (op_scheduled n) eqn:Hs.
  - left. by inversion Hrun.
  - right. split; [done|].
    destruct r as [x|]; unfold on_graph, update_op in Hrun; simpl in Hrun;
      rewrite Hn in Hrun; simpl in Hrun; inversion Hrun; subst; clear Hrun; simpl.
    + repeat split; try done. right. by repeat split; eauto.
    + repeat split; try done. left. by repeat split.
Qed.

(** ** The order every step of a flush respects *)

Lemma flush_le_refl st : flush_le st st.
Proof. split; try done. apply graph_le_refl. Qed.

Lemma flush_le_trans st1 st2 st3 : flush_le st1 st2 → flush_le st2 st3 → flush_le st1 st3.
Proof.
  intros [Hg1 Hs1 Hp1 Hc1 He1 Hb1] [Hg2 Hs2 Hp2 Hc2 He2 Hb2]. split.
  - by eapply graph_le_trans.
  - intros p. specialize (Hs1 p). specialize (Hs2 p). lia.
  - intros c. specialize (Hp1 c). specialize (Hp2 c). lia.
  - intros c. specialize (Hc1 c). specialize (Hc2 c). lia.
  - intros H. rewrite He2, He1; done.
  - lia.
Qed.

Lemma handler_le_refl st : handler_le st st.
Proof. split; try done. apply flush_le_refl. Qed.

Lemma handler_le_trans st1 st2 st3 :
  handler_le st1 st2 → handler_le st2 st3 → handler_le st1 st3.
Proof.
  intros [H1 Hs1 Hv1 Hq1] [H2 Hs2 Hv2 Hq2]. split.
  - by eapply flush_le_trans.
  - congruence.
  - congruence.
  - by etrans.
Qed.

Lemma sum_list_insert {A : Type} (f : A → nat) (l : list A) (i : nat) (x y : A) :
  l !! i = Some x →
  sum_list (f <$> <[i := y]> l) + f x = sum_list (f <$> l) + f y.
Proof.
  revert i. induction l as [|z l IH]; intros [|i] Hi; simpl in *; try done.
  - inversion Hi; subst. lia.
  - specialize (IH i Hi). unfold fmap in IH. lia.
Qed.

Lemma unscheduled_insert (l : list bool) (t : nat) :
  l !! t = Some false →
  length (filter (λ b, b = false) (<[t := true]> l)) + 1
  = length (filter (λ b, b = false) l).
Proof.
  revert t. induction l as [|b l IH]; intros [|t] Ht; simpl in *; try done.
  - inversion Ht; subst. rewrite filter_cons_False by done.
    rewrite filter_cons_True by done. simpl. lia.
  - specialize (IH t Ht). destruct b.
    + rewrite !filter_cons_False by done. done.
    + rewrite !filter_cons_True by done. simpl. lia.
Qed.

Lemma filter_snoc_length {A : Type} (P : A → Prop) `{∀ x, Decision (P x)} (l : list A) (x : A) :
  length (filter P (l ++ [x])) = length (filter P l) + (if decide (P x) then 1 else 0).
Proof.
  rewrite filter_app, length_app. f_equal.
  destruct (decide (P x)); [by rewrite filter_cons_True | by rewrite filter_cons_False].
Qed.

Lemma sched_flags_set_operations l g :
  sched_flags (set_operations l g) = op_scheduled <$> l.
Proof. done. Qed.

(** A change of operation flags alone. *)
Lemma flags_only_handler_le st g' :
  flags_only (graph st) g' →
  (use_copy_on_write = false ∨ (∀ c g, entry_tags (tag_update c g) = entry_tags g) →
   entry_tags g' = entry_tags (graph st)) →
  handler_le st (set_graph g' st).
Proof.
  intros Hflags Hentry. pose proof (flags_only_sched _ _ Hflags) as Hsched.
  destruct Hflags as (Hops & Hc & Hi). split; [split|..]; simpl; try done.
  - apply flags_only_le. by repeat split.
  - intros p. unfold sched_bit. by rewrite Hsched.
  - intros c. unfold pose_bit. by rewrite Hc.
  - intros c. unfold expected_calls. by rewrite Hi.
  - unfold backlog, unscheduled, pending_states. simpl.
    fold (sched_flags g'). fold (sched_flags (graph st)). by rewrite Hsched, Hc.
Qed.

(** A component leaving its state for a later one. *)
Lemma comp_done_handler_le st p c s :
  comp_nodes (graph st) !! p = Some c →
  state_value (comp_done c) ≤ state_value s →
  s ≠ COMPONENT_STATE_NONE →
  handler_le st
    (set_graph (set_comp_nodes (<[p := set_comp_done s c]> (comp_nodes (graph st)))
                  (graph st)) st).
Proof.
  intros Hc Hle Hs. split; [split|..]; simpl; try done.
  - repeat split; simpl; try (apply Forall2_refl_on; auto using op_le_refl, id_le_refl).
    apply (Forall2_insert_same _ _ _ c); [apply comp_le_refl | done | by split].
  - intros q. unfold pose_bit. simpl. destruct (decide (q = p)) as [->|Hne].
    + rewrite list_lookup_insert_eq by (by eapply lookup_lt_Some). rewrite Hc. simpl.
      rewrite (decide_False (P := s = _)) by done. case_decide; lia.
    + by rewrite list_lookup_insert_ne.
  - unfold backlog, unscheduled, pending_states. simpl.
    pose proof (sum_list_insert (λ c, 2 - state_value (comp_done c)) _ p c
                  (set_comp_done s c) Hc) as Hsum.
    simpl in Hsum. lia.
Qed.

(** The bone rule firing. *)
Lemma pose_push_handler_le st pp pc :
  comp_nodes (graph st) !! pp = Some pc →
  comp_done pc = COMPONENT_STATE_NONE →
  handler_le st
    {| graph := set_comp_nodes
                  (<[pp := set_comp_done COMPONENT_STATE_SCHEDULED pc]> (comp_nodes (graph st)))
                  (graph st);
       datablocks := datablocks st;
       queue := comp_entry_operation pc :: queue st;
       calls := calls st;
       history := history st ++ [pose_push_front pp (comp_entry_operation pc)] |}.
Proof.
  intros Hc Hnone. split; [split|..]; simpl; try done.
  - repeat split; simpl; try (apply Forall2_refl_on; auto using op_le_refl, id_le_refl).
    apply (Forall2_insert_same _ _ _ pc); [apply comp_le_refl | done |].
    split; [done|]. rewrite Hnone. simpl. lia.
  - intros p. unfold scheduled_times. rewrite filter_snoc_length.
    rewrite decide_False by (simpl; by intros []). unfold sched_bit, sched_flags. simpl. lia.
  - intros q. unfold pose_pushes, pose_bit. rewrite filter_snoc_length.
    cbn [graph comp_nodes set_comp_nodes].
    destruct (decide (q = pp)) as [->|Hne].
    + rewrite list_lookup_insert_eq by (by eapply lookup_lt_Some). rewrite Hc.
      rewrite (decide_True (P := is_pose_push _ _)) by done.
      rewrite decide_True by done. cbn [comp_done set_comp_done].
      rewrite decide_False by done. lia.
    + rewrite list_lookup_insert_ne by done.
      rewrite (decide_False (P := is_pose_push _ _)) by (simpl; congruence). lia.
  - unfold backlog, unscheduled, pending_states. simpl.
    pose proof (sum_list_insert (λ c, 2 - state_value (comp_done c)) _ pp pc
                  (set_comp_done COMPONENT_STATE_SCHEDULED pc) Hc) as Hsum.
    simpl in Hsum. rewrite Hnone in Hsum. simpl in Hsum. lia.
  - unfold visits. rewrite filter_app. rewrite (filter_cons_False is_visit) by (simpl; by intros []).
    by rewrite filter_nil, app_nil_r.
  - by apply suffix_cons_r.
Qed.

Lemma flush_handle_id_node_le i st st' :
  flush_handle_id_node i st = Some st' →
  handler_le st st'
  ∧ ∃ n', id_nodes (graph st') !! i = Some n' ∧ id_done n' ≠ 0%Z.
Proof.
  intros (n & Hn & [[Hdone ->] | [Hdone [dbs ->]]])%flush_handle_id_node_inv.
  - split; [apply handler_le_refl | by exists n].
  - split.
    + split; [split|..]; simpl; try done.
      * repeat split; simpl; try (apply Forall2_refl_on; auto using op_le_refl, comp_le_refl).
        apply (Forall2_insert_same _ _ _ n); [apply id_le_refl | done | by split].
      * intros c. unfold call_times, expected_calls. simpl.
        rewrite filter_app, length_app.
        pose proof (sum_list_insert (handled_calls c) _ i n (set_id_done 1 n) Hn) as Hsum.
        assert (handled_calls c n = 0) as H0
          by (unfold handled_calls; by rewrite decide_True).
        assert (handled_calls c (set_id_done 1 n) = call_times c (id_handler_calls n)) as H1
          by (unfold handled_calls; by rewrite decide_False).
        rewrite H0, H1 in Hsum. unfold call_times in Hsum. lia.
    + exists (set_id_done 1 n). split; [|done]. simpl.
      apply list_lookup_insert_eq. by eapply lookup_lt_Some.
Qed.

Lemma flush_handle_component_node_le i p st st' :
  tag_update_contract →
  flush_handle_component_node i p st = Some st' →
  handler_le st st'.
Proof.
  intros Hcontract Hrun.
  apply (flush_handle_component_node_inv _ _ _ _ Hcontract) in Hrun
    as (c & Hc & [[_ ->] | (Hdone & g2 & Hflags & Hentry & _ & Hpose)]).
  - apply handler_le_refl.
  - set (st0 := set_graph
                  (set_comp_nodes (<[p := set_comp_done COMPONENT_STATE_DONE c]>
                                     (comp_nodes (graph st))) (graph st)) st).
    assert (handler_le st st0) as H0.
    { apply comp_done_handler_le; [done| |done]. destruct (comp_done c); simpl; lia. }
    assert (handler_le st0 (set_graph g2 st)) as H2.
    { apply (flags_only_handler_le st0 g2); [done|]. simpl. done. }
    assert (handler_le st (set_graph g2 st)) as H02 by (by eapply handler_le_trans).
    destruct Hpose as [-> | Hpose]; [done|].
    apply flush_reschedule_pose_inv in Hpose
      as (n & pp & pc & _ & _ & Hpc & [[_ ->] | [Hnone ->]]); [done|].
    eapply handler_le_trans; [exact H02|].
    by apply (pose_push_handler_le (set_graph g2 st)).
Qed.

Lemma flush_raise_le op st st' :
  on_graph (update_op op raise_needs_update) st = Some st' →
  handler_le st st'
  ∧ ∃ n, operations (graph st') !! op = Some n ∧ has_needs_update n.
Proof.
  unfold on_graph. intros Hrun. bind_inv Hrun. inversion Hrun; subst; clear Hrun.
  split.
  - apply flags_only_handler_le; [by eapply raise_flags_only|].
    intros _. match goal with H : update_op _ _ _ = Some _ |- _ =>
      apply update_op_inv in H as (? & _ & ->) end. done.
  - match goal with H : update_op _ _ _ = Some _ |- _ =>
      apply update_op_inv in H as (n & Hn & ->) end.
    exists (raise_needs_update n). split; [|apply raise_needs_update_has].
    simpl. apply list_lookup_insert_eq. by eapply lookup_lt_Some.
Qed.

(** ** Scheduling the children *)

Lemma foreach_prefix_invariant {A S : Type} (P : list A → S → Prop)
    (body : A → S → option S) (l : list A) (s s' : S) :
  P [] s →
  (∀ pre x t t', P pre t → body x t = Some t' → P (pre ++ [x]) t') →
  foreach body l s = Some s' → P l s'.
Proof.
  intros Hs Hbody. change l with ([] ++ l) at 2.
  generalize (@nil A) s Hs. clear s Hs.
  induction l as [|x l IH]; intros pre s Hs Hrun; simpl in Hrun.
  - inversion Hrun; subst. by rewrite app_nil_r.
  - destruct (body x s) as [t|] eqn:Hx; simpl in Hrun; [|done].
    replace (pre ++ x :: l) with ((pre ++ [x]) ++ l) by (by rewrite <- app_assoc).
    apply (IH _ t); [|done]. by eapply Hbody.
Qed.

Lemma sched_flags_lookup g p b :
  sched_flags g !! p = Some b ↔ ∃ n, operations g !! p = Some n ∧ op_scheduled n = b.
Proof.
  unfold sched_flags. rewrite list_lookup_fmap. split.
  - destruct (operations g !! p) as [n|]; simpl; [|done]. intros [= <-]. by exists n.
  - intros (n & -> & <-). done.
Qed.

Lemma graph_le_sched g g' p :
  graph_le g g' → sched_flags g !! p = Some true → sched_flags g' !! p = Some true.
Proof.
  intros (Hops & _ & _) (n & Hn & Hs)%sched_flags_lookup.
  destruct (Forall2_lookup_l _ _ _ _ _ Hops Hn) as (n' & Hn' & Hle).
  apply sched_flags_lookup. exists n'. split; [done|]. by apply Hle.
Qed.

Lemma child_le_refl a : child_le a a.
Proof. split; try done; [apply flush_le_refl | auto]. Qed.

Lemma child_le_trans a1 a2 a3 : child_le a1 a2 → child_le a2 a3 → child_le a1 a3.
Proof.
  intros [H1 Hr1 Hv1 Hq1 Hres1 Hn1] [H2 Hr2 Hv2 Hq2 Hres2 Hn2]. split.
  - by eapply flush_le_trans.
  - lia.
  - congruence.
  - by etrans.
  - intros Hsome. rewrite Hres2; [auto|]. by rewrite Hres1.
  - intros p Hp. destruct (Hn2 p Hp) as [Hp2|[Hp2|Hp2]]; [|auto..].
    destruct (Hn1 p Hp2) as [Hp1|[Hp1|Hp1]]; [auto| |].
    + right. left. destruct Hq2 as [k ->]. apply elem_of_app. by right.
    + right. right. rewrite Hres2; [done|]. by rewrite Hp1.
Qed.

Lemma flush_schedule_child_le t a a' :
  flush_schedule_child t a = Some a' →
  child_le a a' ∧ sched_flags (graph a'.1) !! t = Some true.
Proof.
  destruct a as [st r], a' as [st' r']. intros Hrun.
  apply flush_schedule_child_inv in Hrun
    as (n & Hn & [(Hs & -> & ->) | (Hs & Hg & Hd & Hc & Hcase)]).
  - split; [apply child_le_refl|]. apply sched_flags_lookup. by exists n.
  - assert (sched_flags (graph st) !! t = Some false) as Hold
      by (apply sched_flags_lookup; by exists n).
    assert (sched_flags (graph st') = <[t := true]> (sched_flags (graph st))) as Hnew.
    { rewrite Hg. unfold sched_flags. simpl. by rewrite list_fmap_insert. }
    assert (sched_flags (graph st') !! t = Some true) as Ht.
    { rewrite Hnew. apply list_lookup_insert_eq. by eapply lookup_lt_Some. }
    assert (unscheduled (graph st') + 1 = unscheduled (graph st)) as Hu.
    { unfold unscheduled. fold (sched_flags (graph st')). fold (sched_flags (graph st)).
      rewrite Hnew. by apply unscheduled_insert. }
    assert (pending_states (graph st') = pending_states (graph st)) as Hp
      by (by rewrite Hg).
    assert (∃ e, history st' = history st ++ [e] ∧ schedules t e
               ∧ (∀ p, p ≠ t → ¬ schedules p e)
               ∧ (∀ c, ¬ is_pose_push c e) ∧ ¬ is_visit e) as (e & Hh & Het & Hep & Hec & Hev).
    { destruct Hcase as [(_ & _ & _ & Hh) | (_ & _ & _ & Hh)]; eexists; (split; [exact Hh|]);
        simpl; repeat split; auto. }
    split; [|done]. simpl. split; simpl.
    + split.
      * rewrite Hg. repeat split; simpl;
          try (apply Forall2_refl_on; auto using comp_le_refl, id_le_refl).
        apply (Forall2_insert_same _ _ _ n); [apply op_le_refl | done |].
        repeat split; done.
      * intros p. unfold scheduled_times, sched_bit. rewrite Hh, filter_snoc_length, Hnew.
        destruct (decide (p = t)) as [->|Hne].
        -- rewrite list_lookup_insert_eq by (by eapply lookup_lt_Some). rewrite Hold.
           rewrite decide_True by done. lia.
        -- rewrite list_lookup_insert_ne by done.
           rewrite decide_False by (by apply Hep). lia.
      * intros c. unfold pose_pushes, pose_bit. rewrite Hh, filter_snoc_length, Hg.
        rewrite decide_False by apply Hec. simpl. lia.
      * intros c. rewrite Hc, Hg. done.
      * intros _. by rewrite Hg.
      * unfold backlog.
        destruct Hcase as [(_ & _ & Hq & _) | (_ & _ & Hq & _)]; rewrite Hq; simpl; lia.
    + unfold flush_rounds.
      destruct Hcase as [(-> & -> & Hq & _) | ([x ->] & -> & Hq & _)]; rewrite Hq; simpl; lia.
    + unfold visits. rewrite Hh, filter_app. rewrite (filter_cons_False is_visit) by done.
      by rewrite filter_nil, app_nil_r.
    + destruct Hcase as [(_ & _ & -> & _) | (_ & _ & -> & _)]; [done | by apply suffix_cons_r].
    + intros [x ->]. destruct Hcase as [(? & _) | (_ & -> & _)]; done.
    + intros q Hq. rewrite Hnew in Hq. destruct (decide (q = t)) as [->|Hne].
      * right. destruct Hcase as [(_ & -> & _) | (_ & _ & -> & _)]; [by right | left; left].
      * left. by rewrite list_lookup_insert_ne in Hq.
Qed.

Lemma flush_schedule_children_le op st st' next :
  flush_schedule_children op st = Some (st', next) →
  child_le (st, None) (st', next)
  ∧ ∃ n, operations (graph st) !! op = Some n
       ∧ ∀ t, t ∈ op_outlinks n → sched_flags (graph st') !! t = Some true.
Proof.
  unfold flush_schedule_children. intros Hrun. bind_inv Hrun.
  match goal with H : operations _ !! op = Some ?x |- _ => rename x into n end.
  pose proof (foreach_prefix_invariant
                (λ pre a, child_le (st, None) a
                          ∧ ∀ t, t ∈ pre → sched_flags (graph a.1) !! t = Some true)
                flush_schedule_child (op_outlinks n) (st, None) (st', next)) as Hloop.
  destruct Hloop as [Hle Hall]; [| |exact Hrun|].
  - split; [apply child_le_refl|]. intros t Ht. by apply elem_of_nil in Ht.
  - intros pre t a a' [Hle Hall] Hbody.
    apply flush_schedule_child_le in Hbody as [Hstep Ht]. split.
    + by eapply child_le_trans.
    + intros u [Hu | ->%list_elem_of_singleton]%elem_of_app; [|done].
      eapply graph_le_sched; [apply Hstep | by apply Hall].
  - split; [done|]. exists n. split; [done|]. exact Hall.
Qed.

(** ** One round of the inner loop *)

Lemma settled_le g g' p n n' :
  graph_le g g' → operations g !! p = Some n → operations g' !! p = Some n' →
  settled g n → settled g' n'.
Proof.
  intros Hle Hn Hn' [Hnu Hlinks].
  pose proof (Forall2_lookup_lr _ _ _ _ _ _ (proj1 Hle) Hn Hn') as (_ & Hl & _ & _ & Hup).
  split; [auto|]. rewrite Hl. intros t Ht. eapply graph_le_sched; eauto.
Qed.

Lemma handled_entity_le g g' op :
  graph_le g g' → handled_entity g op → handled_entity g' op.
Proof.
  intros (Hops & Hcomps & Hids) (n & c & i & Hn & Hc & Hi & Hdone).
  destruct (Forall2_lookup_l _ _ _ _ _ Hops Hn) as (n' & Hn' & (_ & _ & Ho & _)).
  destruct (Forall2_lookup_l _ _ _ _ _ Hcomps Hc) as (c' & Hc' & (Hceq & _)).
  destruct (Forall2_lookup_l _ _ _ _ _ Hids Hi) as (i' & Hi' & (_ & Hd)).
  assert (comp_owner c' = comp_owner c) as Hco
    by (unfold set_comp_done in Hceq; by injection Hceq).
  exists n', c', i'. rewrite Ho, Hco. auto.
Qed.

Lemma closure_inv_handler_le st st' a :
  handler_le st st' → closure_inv st a → closure_inv st' a.
Proof.
  intros [Hle Hsched _ Hqueue] Hinv p n' Hn' Hs.
  destruct (Forall2_lookup_r _ _ _ _ _ (proj1 (le_graph _ _ Hle)) Hn') as (n & Hn & Hnn).
  assert (op_scheduled n = true) as Hsn.
  { assert (sched_flags (graph st) !! p = Some true) as (m & Hm & Hms)%sched_flags_lookup.
    { rewrite <- Hsched. apply sched_flags_lookup. eauto. }
    congruence. }
  destruct (Hinv p n Hn Hsn) as [Hset | [Hq | Ha]]; [| |auto].
  - left. eapply settled_le; eauto. apply Hle.
  - right. left. destruct Hqueue as [k ->]. apply elem_of_app. by right.
Qed.

Lemma record_visit_le op st : flush_le st (record_event (visited op) st).
Proof.
  split; simpl; try done.
  - apply graph_le_refl.
  - intros p. unfold scheduled_times. rewrite filter_snoc_length.
    rewrite decide_False by (simpl; by intros []). lia.
  - intros c. unfold pose_pushes. rewrite filter_snoc_length.
    rewrite decide_False by (simpl; by intros []). lia.
Qed.

Lemma handler_le_rounds st st' a :
  handler_le st st' → flush_rounds st' a ≤ flush_rounds st a.
Proof. intros [Hle _ _ _]. pose proof (le_backlog _ _ Hle). unfold flush_rounds, backlog in *. lia. Qed.

(** What one round of the inner loop achieves. *)
Lemma flush_visit_effect op st st' next :
  tag_update_contract →
  flush_visit op st = Some (st', next) →
  flush_le st st'
  ∧ flush_rounds st' next < flush_rounds st (Some op)
  ∧ (closure_inv st (Some op) → closure_inv st' next)
  ∧ visits (history st') = visits (history st) ++ [visited op]
  ∧ handled_entity (graph st') op.
Proof.
  intros Hcontract. unfold flush_visit. intros Hrun.
  set (st0 := record_event (visited op) st) in *.
  change (λ n, set_op_flag (Z.lor (op_flag n) DEPSOP_FLAG_NEEDS_UPDATE) n)
    with raise_needs_update in Hrun.
  destruct (on_graph (update_op op raise_needs_update) st0) as [st1|] eqn:Hraise;
    simpl in Hrun; [|done].
  destruct (operations (graph st1) !! op) as [n1|] eqn:Hn1; simpl in Hrun; [|done].
  destruct (comp_nodes (graph st1) !! op_owner n1) as [c1|] eqn:Hc1; simpl in Hrun; [|done].
  destruct (flush_handle_id_node (comp_owner c1) st1) as [st2|] eqn:Hid;
    simpl in Hrun; [|done].
  destruct (flush_handle_component_node (comp_owner c1) (op_owner n1) st2) as [st3|] eqn:Hcomp;
    simpl in Hrun; [|done].
  apply flush_raise_le in Hraise as [H01 (m1 & Hm1 & Hnu1)].
  apply flush_handle_id_node_le in Hid as [H12 (i2 & Hi2 & Hdone2)].
  apply (flush_handle_component_node_le _ _ _ _ Hcontract) in Hcomp as H23.
  apply flush_schedule_children_le in Hrun as [H3 (n3 & Hn3 & Hlinks)].
  assert (handler_le st0 st3) as H03 by (eauto using handler_le_trans).
  assert (graph_le (graph st1) (graph st')) as Hg1.
  { eapply graph_le_trans; [apply H12|]. eapply graph_le_trans; [apply H23|]. apply H3. }
  assert (graph_le (graph st2) (graph st')) as Hg2.
  { eapply graph_le_trans; [apply H23|]. apply H3. }
  split; [|split; [|split; [|split]]].
  - eapply flush_le_trans; [apply record_visit_le|].
    eapply flush_le_trans; [apply H03|]. apply H3.
  - pose proof (cl_rounds _ _ H3) as Hr. pose proof (handler_le_rounds _ _ None H03) as Hh.
    simpl in Hr. unfold flush_rounds in *. simpl in *. lia.
  - intros Hinv. assert (closure_inv st3 (Some op)) as Hinv3.
    { eapply closure_inv_handler_le; [exact H03|]. exact Hinv. }
    intros p n' Hn' Hs.
    destruct (cl_new _ _ H3 p) as [Hold | [Hq | Hnext]]; simpl; [| |auto..].
    { apply sched_flags_lookup. eauto. }
    apply sched_flags_lookup in Hold as (m & Hm & Hms). simpl in Hm.
    destruct (Hinv3 p m Hm Hms) as [Hset | [Hq | Hop]].
    + left. eapply settled_le; [apply H3|..]; eauto.
    + right. left. destruct (cl_queue _ _ H3) as [k Hk]. simpl in Hk. rewrite Hk.
      apply elem_of_app. by right.
    + injection Hop as <-. left. split.
      * pose proof (Forall2_lookup_lr _ _ _ _ _ _ (proj1 Hg1) Hm1 Hn') as (_ & _ & _ & _ & Hup).
        auto.
      * assert (n3 = m) as -> by congruence.
        pose proof (Forall2_lookup_lr _ _ _ _ _ _ (proj1 (le_graph _ _ (cl_le _ _ H3))) Hm Hn')
          as (_ & Hl & _).
        rewrite Hl. exact Hlinks.
  - pose proof (cl_visits _ _ H3) as Hv. simpl in Hv. rewrite Hv, (hl_visits _ _ H03).
    unfold st0, visits. simpl. rewrite filter_app.
    by rewrite (filter_cons_True is_visit), filter_nil by done.
  - apply (handled_entity_le (graph st2)); [exact Hg2|].
    destruct (Forall2_lookup_l _ _ _ _ _ (proj1 (le_graph _ _ (hl_le _ _ H12))) Hn1)
      as (n2 & Hn2 & (_ & _ & Ho & _)).
    destruct (Forall2_lookup_l _ _ _ _ _ (proj1 (proj2 (le_graph _ _ (hl_le _ _ H12)))) Hc1)
      as (c2 & Hc2 & (Hceq & _)).
    assert (comp_owner c2 = comp_owner c1) as Hco
      by (unfold set_comp_done in Hceq; by injection Hceq).
    exists n2, c2, i2. rewrite Ho, Hco. auto.
Qed.

(** ** The loop *)

Lemma visits_elem_of (op : nat) (h : list FlushEvent) : visited op ∈ visits h ↔ visited op ∈ h.
Proof.
  unfold visits. rewrite list_elem_of_filter. simpl. split; [by intros [_ ?] | by split].
Qed.

Lemma flush_round_effect st a st' a' :
  tag_update_contract →
  flush_round st a = Continue st' a' →
  flush_le st st'
  ∧ flush_rounds st' a' < flush_rounds st a
  ∧ (closure_inv st a → closure_inv st' a')
  ∧ (visits_handled st → visits_handled st').
Proof.
  intros Hcontract. unfold flush_round. destruct a as [op|].
  - destruct (flush_visit op st) as [[st1 next]|] eqn:Hvisit; [|done].
    intros [= <- <-].
    destruct (flush_visit_effect _ _ _ _ Hcontract Hvisit) as (Hle & Hr & Hinv & Hv & Hh).
    do 3 (split; [done|]).
    intros Hold x Hx. rewrite Hv in Hx.
    apply elem_of_app in Hx as [Hx | [= ->]%list_elem_of_singleton]; [|done].
    eapply handled_entity_le; [apply Hle | by apply Hold].
  - destruct (queue st) as [|front rest] eqn:Hq; [done|]. intros [= <- <-].
    split; [|split; [|split; [|done]]].
    + split; simpl; try done; [apply graph_le_refl|].
      unfold backlog. simpl. rewrite Hq. simpl. lia.
    + unfold flush_rounds. simpl. rewrite Hq. simpl. destruct front; lia.
    + intros Hinv p n Hn Hs. destruct (Hinv p n Hn Hs) as [Hset | [Hin | Ha]]; [auto| |done].
      rewrite Hq in Hin. apply elem_of_cons in Hin as [<- | Hin]; auto.
Qed.

Lemma flush_loop_effect fuel :
  tag_update_contract →
  ∀ st a st', flush_loop fuel st a = Finished st' →
    flush_le st st'
    ∧ queue st' = []
    ∧ (closure_inv st a → closure_inv st' None)
    ∧ (visits_handled st → visits_handled st').
Proof.
  intros Hcontract. induction fuel as [|fuel IH]; intros st a st' Hrun; simpl in Hrun; [done|].
  destruct (flush_round st a) as [st1 a1| |] eqn:Hround; [| |done].
  - destruct (flush_round_effect _ _ _ _ Hcontract Hround) as (Hle & _ & Hinv & Hv).
    destruct (IH _ _ _ Hrun) as (Hle' & Hq & Hinv' & Hv').
    split; [by eapply flush_le_trans|]. split; [done|]. split; auto.
  - inversion Hrun; subst; clear Hrun.
    unfold flush_round in Hround. destruct a; [by destruct (flush_visit _ _) as [[? ?]|]|].
    destruct (queue st') eqn:Hq; [|done].
    split; [apply flush_le_refl|]. split; [done|]. split; auto.
Qed.

(** The loop is over within [flush_rounds] rounds and one more for the last
    test of the queue. *)
Lemma flush_loop_terminates fuel :
  tag_update_contract →
  ∀ st a, flush_rounds st a < fuel → flush_loop fuel st a ≠ OutOfFuel.
Proof.
  intros Hcontract. induction fuel as [|fuel IH]; intros st a Hfuel; [lia|]. simpl.
  destruct (flush_round st a) as [st1 a1| |] eqn:Hround; [|done..].
  destruct (flush_round_effect _ _ _ _ Hcontract Hround) as (_ & Hr & _).
  apply IH. lia.
Qed.

Lemma flush_loop_more_fuel fuel fuel' st a :
  flush_loop fuel st a ≠ OutOfFuel → fuel ≤ fuel' →
  flush_loop fuel' st a = flush_loop fuel st a.
Proof.
  revert fuel' st a. induction fuel as [|fuel IH]; intros fuel' st a Hrun Hle; [done|].
  destruct fuel' as [|fuel']; [lia|]. simpl in *.
  destruct (flush_round st a); [|done..]. apply IH; [done|lia].
Qed.

(** ** Which flags a flush changes *)

Lemma update_sched_keeps_flags p b g g' :
  update_op p (set_op_scheduled b) g = Some g' →
  op_flag <$> operations g' = op_flag <$> operations g.
Proof.
  intros (n & Hn & ->)%update_op_inv. simpl. rewrite list_fmap_insert. simpl.
  apply list_insert_id. by rewrite list_lookup_fmap, Hn.
Qed.

Lemma flags_lookup_eq g g' q n n' :
  op_flag <$> operations g' = op_flag <$> operations g →
  operations g !! q = Some n → operations g' !! q = Some n' → op_flag n' = op_flag n.
Proof.
  intros Heq Hn Hn'.
  assert ((op_flag <$> operations g') !! q = (op_flag <$> operations g) !! q) as Hq
    by (by rewrite Heq).
  rewrite !list_lookup_fmap, Hn, Hn' in Hq. simpl in Hq. by inversion Hq.
Qed.

Lemma flush_schedule_children_flags op st st' next :
  flush_schedule_children op st = Some (st', next) →
  op_flag <$> operations (graph st') = op_flag <$> operations (graph st).
Proof.
  unfold flush_schedule_children. intros Hrun. bind_inv Hrun.
  match type of Hrun with foreach _ ?l _ = _ =>
    pose proof (foreach_invariant
           (λ a : FlushState * option nat,
              op_flag <$> operations (graph a.1) = op_flag <$> operations (graph st))
           flush_schedule_child l (st, None) (st', next)) as Hloop end.
  apply Hloop; [|done|done]. clear Hloop Hrun.
  intros t [st1 r1] [st2 r2] _ Heq Hbody. simpl in *.
  apply flush_schedule_child_inv in Hbody
    as (n & Hn & [(_ & -> & _) | (_ & Hg & _)]); [done|].
  rewrite Hg. simpl. rewrite list_fmap_insert. simpl. rewrite <- Heq.
  apply list_insert_id. by rewrite list_lookup_fmap, Hn.
Qed.

Lemma flush_schedule_entrypoints_flags st st1 :
  flush_schedule_entrypoints st = Some st1 →
  op_flag <$> operations (graph st1) = op_flag <$> operations (graph st).
Proof.
  unfold flush_schedule_entrypoints.
  apply (foreach_invariant
           (λ t, op_flag <$> operations (graph t) = op_flag <$> operations (graph st)));
    [|done].
  intros x t t' _ Heq Hbody. unfold on_graph in Hbody. simpl in Hbody. bind_inv Hbody.
  inversion Hbody; subst; clear Hbody. simpl. rewrite <- Heq.
  by eapply update_sched_keeps_flags.
Qed.

Lemma flush_handle_id_node_operations i st st' :
  flush_handle_id_node i st = Some st' →
  operations (graph st') = operations (graph st)
  ∧ comp_nodes (graph st') = comp_nodes (graph st).
Proof.
  intros (n & Hn & [[Hdone ->] | [Hdone [dbs ->]]])%flush_handle_id_node_inv; done.
Qed.

Lemma flush_handle_component_node_within i p st st' c :
  tag_update_contract → tagging_keeps_flags →
  comp_nodes (graph st) !! p = Some c →
  flush_handle_component_node i p st = Some st' →
  flags_changed_within (λ q, q ∈ comp_operations c) (graph st) (graph st').
Proof.
  intros Hcontract Hkeep Hc Hrun.
  apply (flush_handle_component_node_inv _ _ _ _ Hcontract) in Hrun
    as (c' & Hc' & [[_ ->] | (Hdone & g2 & _ & _ & Hwithin & Hpose)]).
  - intros q n n' Hn Hn' Hflag. congruence.
  - assert (c' = c) as -> by congruence. specialize (Hwithin Hkeep).
    destruct Hpose as [-> | Hpose]; [done|].
    apply flush_reschedule_pose_inv in Hpose
      as (n & pp & pc & _ & _ & Hpc & [[_ ->] | [Hnone ->]]); done.
Qed.

(** One round of the inner loop changes the flags of the operation it
    visits and of operations of its component only. *)
Lemma flush_visit_within op st st' next :
  tag_update_contract → tagging_keeps_flags →
  flush_visit op st = Some (st', next) →
  flags_changed_within
    (λ q, q = op ∨ ∃ n c, operations (graph st) !! op = Some n
                        ∧ comp_nodes (graph st) !! op_owner n = Some c
                        ∧ q ∈ comp_operations c)
    (graph st) (graph st').
Proof.
  intros Hcontract Hkeep. unfold flush_visit. intros Hrun.
  unfold on_graph in Hrun. simpl in Hrun.
  destruct (update_op op _ (graph st)) as [g1|] eqn:Hraise; simpl in Hrun; [|done].
  apply update_op_inv in Hraise as (n0 & Hn0 & ->). simpl in Hrun.
  rewrite list_lookup_insert_eq in Hrun by (by eapply lookup_lt_Some). simpl in Hrun.
  destruct (comp_nodes (graph st) !! op_owner n0) as [c|] eqn:Hc; simpl in Hrun; [|done].
  match type of Hrun with (flush_handle_id_node _ ?s ≫= _) = _ =>
    destruct (flush_handle_id_node (comp_owner c) s) as [st2|] eqn:Hid end;
    simpl in Hrun; [|done].
  destruct (flush_handle_component_node (comp_owner c) (op_owner n0) st2) as [st3|] eqn:Hcomp;
    simpl in Hrun; [|done].
  apply flush_handle_id_node_operations in Hid as [Ho2 Hc2]. simpl in Ho2, Hc2.
  assert (comp_nodes (graph st2) !! op_owner n0 = Some c) as Hc' by (by rewrite Hc2).
  pose proof (flush_handle_component_node_within _ _ _ _ _ Hcontract Hkeep Hc' Hcomp)
    as Hwithin.
  apply flush_schedule_children_flags in Hrun as Hflags.
  intros q n n' Hn Hn' Hflag.
  destruct (decide (q = op)) as [->|Hne]; [by left|]. right.
  exists n0, c. do 2 (split; [done|]).
  assert (is_Some (operations (graph st3) !! q)) as [n3 Hn3].
  { apply lookup_lt_is_Some.
    assert (length (op_flag <$> operations (graph st'))
            = length (op_flag <$> operations (graph st3))) as Hlen by (by rewrite Hflags).
    rewrite !length_fmap in Hlen. rewrite <- Hlen. by eapply lookup_lt_Some. }
  apply (Hwithin q n n3); [|done|].
  - rewrite Ho2. by rewrite list_lookup_insert_ne.
  - rewrite <- (flags_lookup_eq _ _ _ _ _ Hflags Hn3 Hn'). done.
Qed.

Lemma flush_round_visits st a st' a' v :
  tag_update_contract →
  flush_round st a = Continue st' a' → visited v ∈ history st → visited v ∈ history st'.
Proof.
  intros Hcontract. unfold flush_round. destruct a as [op|].
  - destruct (flush_visit op st) as [[st1 next]|] eqn:Hvisit; [|done].
    intros [= <- <-] Hv.
    destruct (flush_visit_effect _ _ _ _ Hcontract Hvisit) as (_ & _ & _ & Heq & _).
    apply visits_elem_of. rewrite Heq. apply elem_of_app. left. by apply visits_elem_of.
  - destruct (queue st) as [|front rest]; [done|]. by intros [= <- <-].
Qed.

Lemma touched_le g g' h h' q :
  graph_le g g' → (∀ v, visited v ∈ h → visited v ∈ h') → touched g h q → touched g' h' q.
Proof.
  intros (Hops & Hcomps & _) Hh [Hq | (v & n & c & Hv & Hn & Hc & Hin)]; [left; auto|].
  right.
  destruct (Forall2_lookup_l _ _ _ _ _ Hops Hn) as (n' & Hn' & (_ & _ & Ho & _)).
  destruct (Forall2_lookup_l _ _ _ _ _ Hcomps Hc) as (c' & Hc' & (Hceq & _)).
  assert (comp_operations c' = comp_operations c) as Hco
    by (unfold set_comp_done in Hceq; by injection Hceq).
  exists v, n', c'. rewrite Ho, Hco. auto.
Qed.

Lemma flush_loop_within fuel :
  tag_update_contract → tagging_keeps_flags →
  ∀ st a st', flush_loop fuel st a = Finished st' →
    (∀ v, visited v ∈ history st → visited v ∈ history st')
    ∧ flags_changed_within (touched (graph st') (history st')) (graph st) (graph st').
Proof.
  intros Hcontract Hkeep. induction fuel as [|fuel IH]; intros st a st' Hrun;
    simpl in Hrun; [done|].
  destruct (flush_round st a) as [st1 a1| |] eqn:Hround; [| |done].
  - destruct (IH _ _ _ Hrun) as [Hmono Hwithin].
    pose proof (λ v, flush_round_visits st a st1 a1 v Hcontract Hround) as Hmono1.
    destruct (flush_round_effect _ _ _ _ Hcontract Hround) as (Hle1 & _).
    destruct (flush_loop_effect _ Hcontract _ _ _ Hrun) as (Hle & _).
    split; [auto|]. intros q n n' Hn Hn' Hflag.
    destruct (Forall2_lookup_l _ _ _ _ _ (proj1 (le_graph _ _ Hle1)) Hn) as (n1 & Hn1 & _).
    destruct (decide (op_flag n1 = op_flag n)) as [Heq|Hne].
    + apply (Hwithin q n1 n'); [done..|]. by rewrite Heq.
    + unfold flush_round in Hround. destruct a as [op|].
      * destruct (flush_visit op st) as [[st2 next]|] eqn:Hvisit; [|done].
        inversion Hround; subst; clear Hround.
        destruct (flush_visit_effect _ _ _ _ Hcontract Hvisit) as (_ & _ & _ & Hv & _).
        assert (visited op ∈ history st1) as Hop.
        { apply visits_elem_of. rewrite Hv. apply elem_of_app. right. by left. }
        apply (touched_le (graph st) (graph st') (history st1) (history st'));
          [eapply graph_le_trans; [apply Hle1 | apply Hle] | auto |].
        destruct (flush_visit_within _ _ _ _ Hcontract Hkeep Hvisit q n n1 Hn Hn1 Hne)
          as [-> | (m & c & Hm & Hc & Hin)]; [by left|].
        right. exists op, m, c. auto.
      * destruct (queue st) as [|front rest]; [done|].
        inversion Hround; subst; clear Hround. simpl in Hn1. congruence.
  - inversion Hrun; subst; clear Hrun. split; [auto|].
    intros q n n' Hn Hn' Hflag. congruence.
Qed.

(** ** State reset *)

Lemma reset_comp_refl c : reset_comp c c.
Proof. by left. Qed.

Lemma reset_comp_trans c1 c2 c3 : reset_comp c1 c2 → reset_comp c2 c3 → reset_comp c1 c3.
Proof. intros [-> | ->] [-> | ->]; unfold reset_comp; auto. Qed.

Lemma reset_comp_none c c' :
  reset_comp c c' → comp_done c = COMPONENT_STATE_NONE → comp_done c' = COMPONENT_STATE_NONE.
Proof. by intros [-> | ->]. Qed.

Lemma reset_components_effect (l : list ((eDepsNode_Type * string) * nat)) g g' :
  foreach (λ kc g, update_comp kc.2 (set_comp_done COMPONENT_STATE_NONE) g) l g = Some g' →
  operations g' = operations g ∧ id_nodes g' = id_nodes g ∧ entry_tags g' = entry_tags g
  ∧ Forall2 reset_comp (comp_nodes g) (comp_nodes g')
  ∧ ∀ kc, kc ∈ l → ∃ cn, comp_nodes g' !! kc.2 = Some cn
                        ∧ comp_done cn = COMPONENT_STATE_NONE.
Proof.
  apply (foreach_prefix_invariant
           (λ pre u, operations u = operations g ∧ id_nodes u = id_nodes g
                     ∧ entry_tags u = entry_tags g
                     ∧ Forall2 reset_comp (comp_nodes g) (comp_nodes u)
                     ∧ ∀ kc, kc ∈ pre → ∃ cn, comp_nodes u !! kc.2 = Some cn
                                            ∧ comp_done cn = COMPONENT_STATE_NONE)).
  - repeat split; [apply Forall2_refl_on, reset_comp_refl|].
    intros kc Hkc. by apply elem_of_nil in Hkc.
  - intros pre x u u' (Ho & Hi & He & Hc & Hnone) (c & Hx & ->)%update_comp_inv. simpl.
    assert (Forall2 reset_comp (comp_nodes u)
              (<[x.2 := set_comp_done COMPONENT_STATE_NONE c]> (comp_nodes u))) as Hstep.
    { apply (Forall2_insert_same _ _ _ c); [apply reset_comp_refl | done | by right]. }
    repeat split; try done.
    + eapply Forall2_trans_on; [apply reset_comp_trans | done..].
    + intros kc [Hkc | ->%list_elem_of_singleton]%elem_of_app.
      * destruct (Hnone kc Hkc) as (cn & Hcn & Hd).
        destruct (Forall2_lookup_l _ _ _ _ _ Hstep Hcn) as (cn' & Hcn' & Hr).
        exists cn'. split; [done|]. by eapply reset_comp_none.
      * eexists. split; [apply list_lookup_insert_eq; by eapply lookup_lt_Some | done].
Qed.

Lemma flush_init_id_node_func_effect g x g' :
  flush_init_id_node_func g x = Some g' →
  ∃ n, id_nodes g !! x = Some n
     ∧ operations g' = operations g ∧ entry_tags g' = entry_tags g
     ∧ id_nodes g' = <[x := set_id_done 0 n]> (id_nodes g)
     ∧ Forall2 reset_comp (comp_nodes g) (comp_nodes g')
     ∧ ∀ kc, kc ∈ id_components n → ∃ cn, comp_nodes g' !! kc.2 = Some cn
                                         ∧ comp_done cn = COMPONENT_STATE_NONE.
Proof.
  unfold flush_init_id_node_func. intros Hrun.
  destruct (id_nodes g !! x) as [n|] eqn:Hn; simpl in Hrun; [|done].
  unfold update_id in Hrun. rewrite Hn in Hrun. simpl in Hrun.
  apply reset_components_effect in Hrun as (Ho & Hi & He & Hc & Hnone).
  exists n. by repeat split.
Qed.

Lemma flush_prepare_effect g g1 : flush_prepare g = Some g1 → reset_of g g1.
Proof.
  unfold flush_prepare. intros Hrun.
  change flush_init_operation_node_func
    with (λ g i, update_op i (set_op_scheduled false) g) in Hrun.
  rewrite update_op_all in Hrun. simpl in Hrun.
  set (g0 := set_operations (set_op_scheduled false <$> operations g) g) in *.
  unfold BLI_task_parallel_range in Hrun. rewrite Nat.sub_0_r in Hrun.
  pose proof (foreach_prefix_invariant
    (λ pre u, operations u = operations g0 ∧ entry_tags u = entry_tags g0
              ∧ length (id_nodes u) = length (id_nodes g)
              ∧ Forall2 reset_comp (comp_nodes g) (comp_nodes u)
              ∧ (∀ i n, id_nodes g !! i = Some n →
                        id_nodes u !! i = Some (if decide (i ∈ pre) then set_id_done 0 n else n))
              ∧ (∀ i n kc, i ∈ pre → id_nodes g !! i = Some n → kc ∈ id_components n →
                  ∃ cn, comp_nodes u !! kc.2 = Some cn
                      ∧ comp_done cn = COMPONENT_STATE_NONE))
    (λ i s, flush_init_id_node_func s i) (seq 0 (length (id_nodes g))) g0 g1) as Hloop.
  destruct Hloop as (Ho & He & Hlen & Hc & Hids & Hnone); [| |exact Hrun|].
  - repeat split; try done.
    + apply Forall2_refl_on, reset_comp_refl.
    + intros i n kc Hin. by apply elem_of_nil in Hin.
  - intros pre x u u' (Ho & He & Hlen & Hc & Hids & Hnone)
      (m & Hm & Ho' & He' & Hi' & Hc' & Hnone')%flush_init_id_node_func_effect.
    repeat split; try congruence.
    + rewrite Hi', length_insert. done.
    + eapply Forall2_trans_on; [apply reset_comp_trans | done..].
    + intros i n Hn. rewrite Hi'. specialize (Hids i n Hn).
      destruct (decide (i = x)) as [->|Hne].
      * rewrite list_lookup_insert_eq by (by eapply lookup_lt_Some).
        rewrite decide_True by (apply elem_of_app; right; by left).
        f_equal. assert (m = if decide (x ∈ pre) then set_id_done 0 n else n) as ->
          by congruence.
        by case_decide.
      * rewrite list_lookup_insert_ne by done. rewrite Hids. f_equal.
        apply decide_ext. rewrite elem_of_app, list_elem_of_singleton.
        split; [by left | by intros [?|?]].
    + intros i n kc [Hin | ->%list_elem_of_singleton]%elem_of_app Hn Hkc.
      * destruct (Hnone i n kc Hin Hn Hkc) as (cn & Hcn & Hd).
        destruct (Forall2_lookup_l _ _ _ _ _ Hc' Hcn) as (cn' & Hcn' & Hr).
        exists cn'. split; [done|]. by eapply reset_comp_none.
      * apply Hnone'. specialize (Hids x n Hn).
        assert (m = if decide (x ∈ pre) then set_id_done 0 n else n) as -> by congruence.
        by case_decide.
  - split; try done.
    + apply list_eq. intros i. rewrite list_lookup_fmap.
      destruct (id_nodes g !! i) as [n|] eqn:Hn; simpl.
      * rewrite (Hids i n Hn). rewrite decide_True; [done|].
        apply elem_of_seq. apply lookup_lt_Some in Hn. lia.
      * apply lookup_ge_None. apply lookup_ge_None in Hn. lia.
    + intros i n kc Hn Hkc. apply (Hnone i n kc); [|done..].
      apply elem_of_seq. apply lookup_lt_Some in Hn. lia.
Qed.

(** ** Entry scheduling *)

Lemma flush_schedule_entrypoints_effect st st1 :
  flush_schedule_entrypoints st = Some st1 → entries_scheduled st st1.
Proof.
  intros Hrun. pose proof (flush_schedule_entrypoints_flags _ _ Hrun) as Hflags.
  unfold flush_schedule_entrypoints in Hrun.
  match type of Hrun with foreach ?body _ _ = _ =>
  pose proof (foreach_prefix_invariant
    (λ pre t, graph_le (graph st) (graph t)
              ∧ comp_nodes (graph t) = comp_nodes (graph st)
              ∧ id_nodes (graph t) = id_nodes (graph st)
              ∧ entry_tags (graph t) = entry_tags (graph st)
              ∧ calls t = calls st
              ∧ queue t = queue st ++ (Some <$> pre)
              ∧ history t = history st ++ (entry_push_back <$> pre)
              ∧ ∀ p, sched_flags (graph t) !! p = Some true
                     ↔ sched_flags (graph st) !! p = Some true ∨ p ∈ pre)
    body (entry_tags (graph st)) st st1) as Hloop end.
  destruct Hloop as (? & ? & ? & ? & ? & ? & ? & ?); [| |exact Hrun|by split].
  - split; [apply graph_le_refl|]. do 4 (split; [done|]).
    rewrite !fmap_nil, !app_nil_r. do 2 (split; [done|]).
    intros p. split; [auto|]. intros [? | Hin]; [done | by apply elem_of_nil in Hin].
  - intros pre x t t' (Hg & Hc & Hi & He & Hcalls & Hq & Hh & Hs) Hbody.
    unfold on_graph in Hbody. simpl in Hbody. bind_inv Hbody.
    inversion Hbody; subst; clear Hbody.
    match goal with H : update_op _ _ _ = Some _ |- _ =>
      apply update_op_inv in H as (n & Hn & ->) end. simpl.
    assert (sched_flags (set_operations (<[x := set_op_scheduled true n]> (operations (graph t)))
                           (graph t))
            = <[x := true]> (sched_flags (graph t))) as Hnew.
    { unfold sched_flags. simpl. by rewrite list_fmap_insert. }
    split; [|do 4 (split; [done|]); split; [|split]].
    + eapply graph_le_trans; [exact Hg|]. repeat split; simpl;
        try (apply Forall2_refl_on; auto using comp_le_refl, id_le_refl).
      apply (Forall2_insert_same _ _ _ n); [apply op_le_refl | done |].
      repeat split; done.
    + rewrite Hq, fmap_app, app_assoc. done.
    + rewrite Hh, fmap_app, app_assoc. done.
    + intros p. rewrite Hnew. split; intros Hp.
      * destruct (decide (p = x)) as [->|Hne].
        -- right. apply elem_of_app. right. by left.
        -- rewrite list_lookup_insert_ne in Hp by done. apply Hs in Hp as [?|?]; [by left|].
           right. apply elem_of_app. by left.
      * destruct (decide (p = x)) as [->|Hne].
        -- apply list_lookup_insert_eq. unfold sched_flags. rewrite length_fmap.
           by eapply lookup_lt_Some.
        -- rewrite list_lookup_insert_ne by done. apply Hs.
           destruct Hp as [?|[?|?%list_elem_of_singleton]%elem_of_app]; auto. done.
Qed.

(** ** The whole flush *)

(** A finished flush either returned at once or went through the reset, the
    entry scheduling and the loop. *)
Lemma flush_with_inv budget bmain g st' :
  flush_with budget bmain g = Finished st' →
  (entry_tags g = [] ∧ st' = flush_start bmain g)
  ∨ ∃ g1 st1, flush_prepare g = Some g1
            ∧ flush_schedule_entrypoints (flush_start bmain g1) = Some st1
            ∧ flush_loop (budget st1) st1 None = Finished st'.
Proof.
  unfold flush_with. case_decide as Hlen.
  - intros [= <-]. left. split; [|done]. by apply nil_length_inv.
  - destruct (flush_prepare g) as [g1|] eqn:Hprep; [|done].
    change (set_graph g1 _) with (flush_start bmain g1).
    destruct (flush_schedule_entrypoints (flush_start bmain g1)) as [st1|] eqn:Hentry; [|done].
    intros Hloop. right. by exists g1, st1.
Qed.

Lemma reset_of_unscheduled g g1 p : reset_of g g1 → sched_flags g1 !! p ≠ Some true.
Proof.
  intros Hreset (n & Hn & Hs)%sched_flags_lookup.
  rewrite (ro_ops _ _ Hreset), list_lookup_fmap in Hn.
  destruct (operations g !! p); simpl in Hn; [|done]. by inversion Hn; subst.
Qed.

(** Everything the lemmas above give about a flush that went through the
    loop. *)
Lemma flush_with_run budget bmain g st' :
  tag_update_contract →
  flush_with budget bmain g = Finished st' →
  (entry_tags g = [] ∧ st' = flush_start bmain g)
  ∨ ∃ g1 st1, reset_of g g1
            ∧ entries_scheduled (flush_start bmain g1) st1
            ∧ flush_le st1 st'
            ∧ queue st' = []
            ∧ closure_inv st' None
            ∧ visits_handled st'
            ∧ (tagging_keeps_flags →
               flags_changed_within (touched (graph st') (history st'))
                 (graph st1) (graph st')).
Proof.
  intros Hcontract [Hempty | (g1 & st1 & Hprep & Hentry & Hloop)]%flush_with_inv; [by left|].
  right. exists g1, st1.
  apply flush_prepare_effect in Hprep.
  apply flush_schedule_entrypoints_effect in Hentry.
  pose proof (λ Hkeep, proj2 (flush_loop_within _ Hcontract Hkeep _ _ _ Hloop)) as Hwithin.
  apply (flush_loop_effect _ Hcontract) in Hloop as (Hle & Hq & Hinv & Hv).
  do 4 (split; [done|]). split; [|split; [|done]].
  - apply Hinv. intros p n Hn Hs. right. left.
    assert (sched_flags (graph st1) !! p = Some true) as Hp
      by (apply sched_flags_lookup; eauto).
    apply (es_sched _ _ Hentry) in Hp as [Hp | Hp]; simpl in Hp.
    + by apply (reset_of_unscheduled _ _ _ Hprep) in Hp.
    + rewrite (es_queue _ _ Hentry). simpl. apply list_elem_of_fmap. eauto.
  - apply Hv. intros op Hop. apply (proj1 (visits_elem_of _ _)) in Hop.
    rewrite (es_history _ _ Hentry) in Hop. simpl in Hop.
    apply list_elem_of_fmap in Hop as (? & ? & _). done.
Qed.

(** ** Termination *)

Lemma filter_length_le {A : Type} (P : A → Prop) `{∀ x, Decision (P x)} (l : list A) :
  length (filter P l) ≤ length l.
Proof.
  induction l as [|x l IH]; [done|]. destruct (decide (P x)).
  - rewrite filter_cons_True by done. simpl. lia.
  - rewrite filter_cons_False by done. simpl. lia.
Qed.

Lemma pending_states_le g : pending_states g ≤ 2 * length (comp_nodes g).
Proof.
  unfold pending_states. induction (comp_nodes g) as [|c l IH]; simpl; [lia|].
  unfold fmap in IH. lia.
Qed.

(** The rounds of the loop are bounded by the size of the graph. *)
Lemma flush_rounds_bound bmain g g1 st1 :
  flush_prepare g = Some g1 →
  flush_schedule_entrypoints (flush_start bmain g1) = Some st1 →
  flush_rounds st1 None
  ≤ 2 * (length (operations g) + 2 * length (comp_nodes g) + length (entry_tags g)).
Proof.
  intros Hprep%flush_prepare_effect Hentry%flush_schedule_entrypoints_effect.
  unfold flush_rounds.
  assert (unscheduled (graph st1) ≤ length (operations g)) as Hu.
  { unfold unscheduled. etrans; [apply filter_length_le|]. rewrite length_fmap.
    rewrite <- (Forall2_length _ _ _ (proj1 (es_graph _ _ Hentry))). simpl.
    by rewrite (ro_ops _ _ Hprep), length_fmap. }
  assert (pending_states (graph st1) ≤ 2 * length (comp_nodes g)) as Hp.
  { etrans; [apply pending_states_le|]. rewrite (es_comps _ _ Hentry). simpl.
    by rewrite <- (Forall2_length _ _ _ (ro_comps _ _ Hprep)). }
  assert (length (queue st1) = length (entry_tags g)) as Hq.
  { rewrite (es_queue _ _ Hentry). simpl. by rewrite length_fmap, (ro_entry _ _ Hprep). }
  lia.
Qed.

(** ** Component states *)

Lemma graph_le_comp_done g g' c cn :
  graph_le g g' → comp_nodes g !! c = Some cn →
  ∃ cn', comp_nodes g' !! c = Some cn'
       ∧ state_value (comp_done cn) ≤ state_value (comp_done cn').
Proof.
  intros (_ & Hcomps & _) Hc.
  destruct (Forall2_lookup_l _ _ _ _ _ Hcomps Hc) as (cn' & Hc' & (_ & Hle)). eauto.
Qed.

(** ** What never changes *)

Lemma same_shape_trans g1 g2 g3 : same_shape g1 g2 → same_shape g2 g3 → same_shape g1 g3.
Proof.
  intros (Ho1 & Hc1 & Hi1) (Ho2 & Hc2 & Hi2). repeat split.
  - eapply Forall2_trans_on; [|done..].
    intros x y z (? & ? & ?) (? & ? & ?). repeat split; congruence.
  - eapply Forall2_trans_on; [|done..]. intros x y z ? ?. congruence.
  - eapply Forall2_trans_on; [|done..]. intros x y z ? ?. congruence.
Qed.

Lemma graph_le_shape g g' : graph_le g g' → same_shape g g'.
Proof.
  intros (Ho & Hc & Hi). repeat split.
  - eapply Forall2_impl; [exact Ho|]. intros n n' (? & ? & ? & _). done.
  - eapply Forall2_impl; [exact Hc|]. by intros c c' [? _].
  - eapply Forall2_impl; [exact Hi|]. by intros i i' [? _].
Qed.

Lemma reset_of_shape g g1 : reset_of g g1 → same_shape g g1.
Proof.
  intros [Ho Hc Hi _ _]. repeat split.
  - rewrite Ho. apply Forall2_fmap_r, Forall2_refl_on. done.
  - eapply Forall2_impl; [exact Hc|]. by intros c c' [-> | ->].
  - rewrite Hi. apply Forall2_fmap_r, Forall2_refl_on. done.
Qed.

Lemma same_shape_op g g' p n' :
  same_shape g g' → operations g' !! p = Some n' →
  ∃ n, operations g !! p = Some n ∧ op_outlinks n' = op_outlinks n ∧ op_owner n' = op_owner n.
Proof.
  intros (Ho & _ & _) Hn'.
  destruct (Forall2_lookup_r _ _ _ _ _ Ho Hn') as (n & Hn & (_ & ? & ?)). eauto.
Qed.

Lemma same_shape_comp g g' p c' :
  same_shape g g' → comp_nodes g' !! p = Some c' →
  ∃ c, comp_nodes g !! p = Some c ∧ comp_owner c' = comp_owner c.
Proof.
  intros (_ & Hc & _) Hc'.
  destruct (Forall2_lookup_r _ _ _ _ _ Hc Hc') as (c & Hcc & Heq).
  exists c. split; [done|]. unfold set_comp_done in Heq. by injection Heq.
Qed.

Lemma same_shape_id g g' p i' :
  same_shape g g' → id_nodes g' !! p = Some i' →
  ∃ i, id_nodes g !! p = Some i ∧ id_orig i' = id_orig i ∧ id_cow i' = id_cow i.
Proof.
  intros (_ & _ & Hi) Hi'.
  destruct (Forall2_lookup_r _ _ _ _ _ Hi Hi') as (i & Hii & Heq).
  exists i. split; [done|]. unfold set_id_done in Heq. by injection Heq.
Qed.

Lemma same_shape_ids_fmap {B : Type} (f : IDDepsNode → B) g g' :
  (∀ i, f (set_id_done 0 i) = f i) →
  same_shape g g' → f <$> id_nodes g' = f <$> id_nodes g.
Proof.
  intros Hf (_ & _ & Hi). induction Hi as [|i i' l l' Heq _ IH]; [done|].
  rewrite !fmap_cons, IH. f_equal. by rewrite <- (Hf i'), Heq, Hf.
Qed.

Lemma flush_run_shape g g1 st1 st' bmain :
  reset_of g g1 → entries_scheduled (flush_start bmain g1) st1 → flush_le st1 st' →
  same_shape g (graph st').
Proof.
  intros Hreset Hentry Hle.
  eapply same_shape_trans; [by apply reset_of_shape|].
  eapply same_shape_trans; [apply graph_le_shape, (es_graph _ _ Hentry)|].
  apply graph_le_shape, Hle.
Qed.

(** ** Pose re-entry *)

Lemma pose_pushes_entries c (l : list nat) : pose_pushes c (entry_push_back <$> l) = 0.
Proof.
  unfold pose_pushes. induction l as [|x l IH]; [done|].
  rewrite fmap_cons, filter_cons_False by (simpl; by intros []). done.
Qed.

Lemma pose_bit_le g c : pose_bit g c ≤ 1.
Proof. unfold pose_bit. destruct (comp_nodes g !! c); [case_decide|]; lia. Qed.

Lemma flush_pose_pushes bmain g st' c :
  tag_update_contract →
  deg_graph_flush_updates bmain g = Finished st' →
  pose_pushes c (history st') ≤ 1
  ∧ (pose_pushes c (history st') = 1 →
     ∃ cn, comp_nodes (graph st') !! c = Some cn ∧ comp_done cn ≠ COMPONENT_STATE_NONE).
Proof.
  intros Hcontract Hrun.
  apply (flush_with_run _ _ _ _ Hcontract) in Hrun
    as [[_ ->] | (g1 & st1 & Hreset & Hentry & Hle & _)];
    [unfold pose_pushes; simpl; split; [lia|done]|].
  pose proof (le_pose _ _ Hle c) as Hpose.
  rewrite (es_history _ _ Hentry) in Hpose. simpl in Hpose.
  rewrite pose_pushes_entries in Hpose.
  pose proof (pose_bit_le (graph st') c) as Hbit.
  split; [lia|]. intros Hone. assert (pose_bit (graph st') c = 1) as Hb by lia.
  unfold pose_bit in Hb. destruct (comp_nodes (graph st') !! c) as [cn|]; [|done].
  exists cn. split; [done|]. by case_decide.
Qed.

(** C4.  In one flush the bone rule pushes the entry operation of a pose
    component at most once, whatever the number of bone components visited;
    and a pose component it pushed for has left COMPONENT_STATE_NONE. *)
Theorem pose_entry_pushed_at_most_once (bmain : list ID) (g : Depsgraph) (st' : FlushState)
    (pose_comp : nat) :
  tag_update_contract →
  deg_graph_flush_updates bmain g = Finished st' →
  pose_pushes pose_comp (history st') ≤ 1
  ∧ (pose_pushes pose_comp (history st') = 1 →
     ∃ cn, comp_nodes (graph st') !! pose_comp = Some cn
         ∧ comp_done cn ≠ COMPONENT_STATE_NONE).
Proof. apply flush_pose_pushes. Qed.

(** ** Visit-once *)

Lemma scheduled_times_entries p (l : list nat) :
  NoDup l → scheduled_times p (entry_push_back <$> l) = if decide (p ∈ l) then 1 else 0.
Proof.
  unfold scheduled_times. induction 1 as [|x l Hx Hl IH]; [done|]. rewrite fmap_cons.
  destruct (decide (x = p)) as [->|Hne].
  - rewrite filter_cons_True by done. simpl. rewrite IH.
    rewrite decide_False by done. rewrite decide_True by (by left). done.
  - rewrite filter_cons_False by done. rewrite IH. apply decide_ext.
    rewrite elem_of_cons. split; [auto|]. intros [?|?]; [congruence|done].
Qed.

Lemma sched_bit_le g p : sched_bit g p ≤ 1.
Proof. unfold sched_bit. destruct (sched_flags g !! p) as [[|]|]; lia. Qed.

Lemma filter_cons_length {A : Type} (P : A → Prop) `{∀ x, Decision (P x)} (l : list A) (x : A) :
  length (filter P (x :: l)) = (if decide (P x) then 1 else 0) + length (filter P l).
Proof.
  destruct (decide (P x)); [by rewrite filter_cons_True | by rewrite filter_cons_False].
Qed.

Lemma enqueued_times_split p h :
  enqueued_times p h ≤ scheduled_times p h + pose_entry_pushes p h.
Proof.
  unfold enqueued_times, scheduled_times, pose_entry_pushes.
  induction h as [|e h IH]; [done|]. rewrite !filter_cons_length.
  destruct e; repeat case_decide; simpl in *; first [lia | done].
Qed.

Lemma sched_bit_entries bmain g1 st1 p :
  (∀ q, sched_flags g1 !! q ≠ Some true) →
  entries_scheduled (flush_start bmain g1) st1 →
  sched_bit (graph st1) p = if decide (p ∈ entry_tags g1) then 1 else 0.
Proof.
  intros Hnone Hentry. pose proof (es_sched _ _ Hentry p) as Hp. simpl in Hp.
  unfold sched_bit. destruct (sched_flags (graph st1) !! p) as [[|]|] eqn:Hs.
  - rewrite decide_True; [done|]. destruct (proj1 Hp eq_refl) as [H|H]; [|done].
    by apply Hnone in H.
  - rewrite decide_False; [done|]. intros Hin.
    assert (Some false = Some true) by (apply Hp; by right). done.
  - rewrite decide_False; [done|]. intros Hin.
    assert (None = Some true) by (apply Hp; by right). done.
Qed.

(** C1, as the code has it.  The three places that set [scheduled] (the
    push of an entry tag, the push of a child, the child handed back as the
    next [op_node]) together fire at most once per operation in a flush, and
    exactly once for the operations that end scheduled, so the flag goes
    from false to true at most once.  The bone rule is outside this guard:
    it fires at most once per pose component, and the insertions of an
    operation into the queue exceed one only by the pushes the bone rule
    made of it. *)
Theorem scheduled_at_most_once (bmain : list ID) (g : Depsgraph) (st' : FlushState) :
  tag_update_contract →
  NoDup (entry_tags g) →
  deg_graph_flush_updates bmain g = Finished st' →
  (∀ p, scheduled_times p (history st') ≤ 1
        ∧ (entry_tags g ≠ [] → scheduled_times p (history st') = sched_bit (graph st') p)
        ∧ enqueued_times p (history st') ≤ 1 + pose_entry_pushes p (history st'))
  ∧ (∀ c, pose_pushes c (history st') ≤ 1).
Proof.
  intros Hcontract Hnodup Hrun. split; [|intros c; by eapply flush_pose_pushes].
  intros p.
  assert (scheduled_times p (history st') ≤ 1
          ∧ (entry_tags g ≠ [] → scheduled_times p (history st') = sched_bit (graph st') p))
    as [Hle1 Heq].
  { apply (flush_with_run _ _ _ _ Hcontract) in Hrun
      as [[Hempty ->] | (g1 & st1 & Hreset & Hentry & Hle & _)].
    - unfold scheduled_times. simpl. split; [lia|done].
    - pose proof (le_sched _ _ Hle p) as Hbal.
      rewrite (es_history _ _ Hentry) in Hbal. simpl in Hbal.
      rewrite (sched_bit_entries bmain g1 st1) in Hbal;
        [|intros q; by eapply reset_of_unscheduled|done].
      rewrite scheduled_times_entries in Hbal by (by rewrite (ro_entry _ _ Hreset)).
      pose proof (sched_bit_le (graph st') p). split; [lia|]. intros _. lia. }
  split; [done|]. split; [done|].
  pose proof (enqueued_times_split p (history st')). lia.
Qed.

(** ** The entry set *)

(** C10, as the code has it.  The flush itself never writes the entry set:
    when copy-on-write is off, or when the tagging call leaves the entry set
    alone, the entry set after a flush that ran to its end is the one before
    it.  Clearing the tags empties the entry set, clears on every operation
    the bits of DIRECTLY_MODIFIED and NEEDS_UPDATE and no other bit, and
    changes nothing else. *)
Theorem entry_set_kept_until_clear :
  tag_update_contract →
  use_copy_on_write = false ∨ (∀ c g, entry_tags (tag_update c g) = entry_tags g) →
  (∀ bmain g st',
     deg_graph_flush_updates bmain g = Finished st' → entry_tags (graph st') = entry_tags g)
  ∧ (∀ g, ∃ g1,
       deg_graph_clear_tags g = Some g1
       ∧ entry_tags g1 = []
       ∧ comp_nodes g1 = comp_nodes g ∧ id_nodes g1 = id_nodes g
       ∧ length (operations g1) = length (operations g)
       ∧ ∀ p n, operations g !! p = Some n →
           ∃ n1, operations g1 !! p = Some n1
               ∧ set_op_flag 0 n1 = set_op_flag 0 n
               ∧ ∀ i, Z.testbit (op_flag n1) i
                      = Z.testbit (op_flag n) i
                        && negb (Z.testbit DEPSOP_FLAG_DIRECTLY_MODIFIED i
                                 || Z.testbit DEPSOP_FLAG_NEEDS_UPDATE i)).
Proof.
  intros Hcontract Hkeep. split.
  - intros bmain g st' Hrun.
    apply (flush_with_run _ _ _ _ Hcontract) in Hrun
      as [[_ ->] | (g1 & st1 & Hreset & Hentry & Hle & _)]; [done|].
    rewrite (le_entry _ _ Hle Hkeep), (es_entry _ _ Hentry). simpl.
    apply (ro_entry _ _ Hreset).
  - intros g. eexists. split; [apply deg_graph_clear_tags_eq|]. simpl.
    repeat split; [by rewrite length_fmap|].
    intros p n Hn. exists (clear_pending n). rewrite list_lookup_fmap, Hn.
    repeat split. apply clear_pending_bits.
Qed.

(** ** Completeness *)

Lemma same_shape_touched g g' h q : same_shape g g' → touched g' h q → touched g h q.
Proof.
  intros Hshape [Hq | (v & n' & c' & Hv & Hn' & Hc' & Hin)]; [by left|]. right.
  destruct (same_shape_op _ _ _ _ Hshape Hn') as (n & Hn & _ & Ho).
  destruct Hshape as (_ & Hcomps & _).
  destruct (Forall2_lookup_r _ _ _ _ _ Hcomps Hc') as (c & Hc & Heq).
  assert (comp_operations c' = comp_operations c) as Hco
    by (unfold set_comp_done in Heq; by injection Heq).
  exists v, n, c. rewrite <- Ho, <- Hco. auto.
Qed.

(** C2, as the code has it.  A flush that runs to its end leaves
    NEEDS_UPDATE set on every operation reachable from the entry set along
    outbound links.  Operations that are not reachable can be flagged too;
    when the tagging call does not reach the operations (as with
    copy-on-write off), the only operations whose flags differ after the
    flush are those it visited and those owned by the component of an
    operation it visited. *)
Theorem flush_tags_reachable (bmain : list ID) (g : Depsgraph) (st' : FlushState) :
  tag_update_contract →
  deg_graph_flush_updates bmain g = Finished st' →
  (∀ p, reachable g p →
        ∃ n', operations (graph st') !! p = Some n' ∧ has_needs_update n')
  ∧ (tagging_keeps_flags →
     ∀ q n n', operations g !! q = Some n → operations (graph st') !! q = Some n' →
               op_flag n' ≠ op_flag n → touched g (history st') q).
Proof.
  intros Hcontract Hrun.
  apply (flush_with_run _ _ _ _ Hcontract) in Hrun
    as [[Hempty ->] | (g1 & st1 & Hreset & Hentry & Hle & Hq & Hinv & _ & Hwithin)].
  { split.
    - intros p Hreach. exfalso. induction Hreach as [e He|]; [|done].
      rewrite Hempty in He. by apply elem_of_nil in He.
    - intros _ q n n' Hn Hn' Hflag. simpl in Hn'. congruence. }
  pose proof (flush_run_shape _ _ _ _ _ Hreset Hentry Hle) as Hshape.
  split.
  - intros p Hreach.
    assert (∀ q n', operations (graph st') !! q = Some n' → op_scheduled n' = true →
                    settled (graph st') n') as Hsettled.
    { intros q n' Hn' Hs. destruct (Hinv q n' Hn' Hs) as [? | [Hin | ?]]; [done| |done].
      rewrite Hq in Hin. by apply elem_of_nil in Hin. }
    assert (sched_flags (graph st') !! p = Some true) as Hp.
    { induction Hreach as [e He | q t n _ IH Hn Ht].
      - eapply graph_le_sched; [apply Hle|]. apply (es_sched _ _ Hentry). right. simpl.
        by rewrite (ro_entry _ _ Hreset).
      - apply sched_flags_lookup in IH as (n' & Hn' & Hs).
        destruct (same_shape_op _ _ _ _ Hshape Hn') as (m & Hm & Hl & _).
        assert (m = n) as -> by congruence.
        apply (Hsettled q n' Hn' Hs). by rewrite Hl. }
    apply sched_flags_lookup in Hp as (n' & Hn' & Hs).
    exists n'. split; [done|]. by apply (Hsettled p n' Hn' Hs).
  - intros Hkeep q n n' Hn Hn' Hflag.
    apply (same_shape_touched g (graph st')); [done|].
    destruct (Forall2_lookup_r _ _ _ _ _ (proj1 (le_graph _ _ Hle)) Hn') as (n1 & Hn1 & _).
    apply (Hwithin Hkeep q n1 n' Hn1 Hn').
    assert (op_flag n1 = op_flag n) as ->; [|done].
    assert (operations g1 !! q = Some (set_op_scheduled false n)) as Hg1
      by (by rewrite (ro_ops _ _ Hreset), list_lookup_fmap, Hn).
    rewrite (flags_lookup_eq _ _ _ _ _ (es_flags _ _ Hentry) Hg1 Hn1). done.
Qed.

(** ** Entity handling *)

Lemma sum_list_unique {A B : Type} `{EqDecision B} (f : A → B) (h : A → nat)
    (l : list A) (k : nat) (x : A) :
  NoDup (f <$> l) → l !! k = Some x → (∀ m, f m ≠ f x → h m = 0) →
  sum_list (h <$> l) = h x.
Proof.
  intros Hnodup Hk Hzero. revert k Hk.
  induction l as [|a l IH]; intros k Hk; [done|].
  rewrite fmap_cons in Hnodup. apply NoDup_cons in Hnodup as [Ha Hl].
  destruct k as [|k]; simpl in Hk.
  - inversion Hk; subst. rewrite fmap_cons. simpl.
    assert (sum_list (h <$> l) = 0) as Hrest.
    { clear IH Hl. induction l as [|b l IH]; [done|]. rewrite fmap_cons. simpl.
      rewrite fmap_cons in Ha. apply not_elem_of_cons in Ha as [Hne Ha].
      rewrite Hzero by congruence. rewrite IH by done. done. }
    unfold fmap in *. lia.
  - rewrite fmap_cons. simpl. specialize (IH Hl k Hk).
    assert (h a = 0) as ->.
    { apply Hzero. intros Heq. apply Ha. rewrite Heq. apply list_elem_of_fmap.
      exists x. split; [done|]. by eapply list_elem_of_lookup_2. }
    unfold fmap in *. lia.
Qed.

Lemma call_times_recalc o m :
  call_times (lib_id_recalc_tag o) (id_handler_calls m)
  = if decide (id_orig m = o) then 1 else 0.
Proof.
  unfold call_times, id_handler_calls. rewrite filter_app, length_app.
  assert (length (filter (λ x, x = lib_id_recalc_tag o)
                    (if deg_copy_on_write_is_expanded (id_cow m)
                     then [deg_editors_id_update (id_cow m)] else [])) = 0) as ->.
  { destruct (deg_copy_on_write_is_expanded (id_cow m)); [|done].
    by rewrite filter_cons_False. }
  rewrite !filter_cons_length. rewrite (decide_False (P := lib_id_recalc_data_tag _ = _)) by done.
  simpl. destruct (decide (id_orig m = o)) as [->|Hne].
  - by rewrite decide_True.
  - rewrite decide_False; [done|]. congruence.
Qed.

Lemma call_times_recalc_data o m :
  call_times (lib_id_recalc_data_tag o) (id_handler_calls m)
  = if decide (id_orig m = o) then 1 else 0.
Proof.
  unfold call_times, id_handler_calls. rewrite filter_app, length_app.
  assert (length (filter (λ x, x = lib_id_recalc_data_tag o)
                    (if deg_copy_on_write_is_expanded (id_cow m)
                     then [deg_editors_id_update (id_cow m)] else [])) = 0) as ->.
  { destruct (deg_copy_on_write_is_expanded (id_cow m)); [|done].
    by rewrite filter_cons_False. }
  rewrite !filter_cons_length. rewrite (decide_False (P := lib_id_recalc_tag _ = _)) by done.
  simpl. destruct (decide (id_orig m = o)) as [->|Hne].
  - by rewrite decide_True.
  - rewrite decide_False; [done|]. congruence.
Qed.

Lemma call_times_editors w m :
  call_times (deg_editors_id_update w) (id_handler_calls m)
  = if decide (id_cow m = w)
    then (if deg_copy_on_write_is_expanded (id_cow m) then 1 else 0) else 0.
Proof.
  unfold call_times, id_handler_calls. rewrite filter_app, length_app.
  rewrite !filter_cons_length.
  rewrite (decide_False (P := lib_id_recalc_tag _ = _)) by done.
  rewrite (decide_False (P := lib_id_recalc_data_tag _ = _)) by done. simpl.
  destruct (deg_copy_on_write_is_expanded (id_cow m)); simpl.
  - rewrite filter_cons_length. simpl. destruct (decide (id_cow m = w)) as [->|Hne].
    + by rewrite decide_True.
    + rewrite decide_False; [done|]. congruence.
  - by case_decide.
Qed.

Lemma expected_calls_reset c g g1 : reset_of g g1 → expected_calls c g1 = 0.
Proof.
  intros Hreset. unfold expected_calls. rewrite (ro_ids _ _ Hreset).
  induction (id_nodes g) as [|i l IH]; [done|].
  rewrite !fmap_cons. change (sum_list (?x :: ?l)) with (x + sum_list l).
  rewrite IH. unfold handled_calls. by rewrite decide_True.
Qed.

(** The calls a finished flush made are those of the ID nodes it handled. *)
Lemma flush_calls_expected bmain g g1 st1 st' c :
  reset_of g g1 → entries_scheduled (flush_start bmain g1) st1 → flush_le st1 st' →
  call_times c (calls st') = expected_calls c (graph st').
Proof.
  intros Hreset Hentry Hle. pose proof (le_calls _ _ Hle c) as Hbal.
  rewrite (es_calls _ _ Hentry) in Hbal. simpl in Hbal.
  assert (expected_calls c (graph st1) = 0) as Hzero.
  { unfold expected_calls. rewrite (es_ids _ _ Hentry). simpl.
    by apply (expected_calls_reset c g g1). }
  unfold call_times in *. simpl in Hbal. lia.
Qed.

(** C3, as the code has it.  For every operation the flush visited, the ID
    node owning its component was handled exactly once: the two
    recalculation tag calls were made exactly once for its original
    datablock, and the editor update was made exactly once if its
    copy-on-write datablock is expanded and not at all otherwise; its
    [done] ends set. *)
Theorem entity_handled_once (bmain : list ID) (g : Depsgraph) (st' : FlushState) :
  tag_update_contract →
  NoDup (id_orig <$> id_nodes g) →
  NoDup (id_cow <$> id_nodes g) →
  deg_graph_flush_updates bmain g = Finished st' →
  ∀ op, visited op ∈ history st' →
    ∃ n c i i',
      operations g !! op = Some n
      ∧ comp_nodes g !! op_owner n = Some c
      ∧ id_nodes g !! comp_owner c = Some i
      ∧ id_nodes (graph st') !! comp_owner c = Some i' ∧ id_done i' ≠ 0%Z
      ∧ call_times (lib_id_recalc_tag (id_orig i)) (calls st') = 1
      ∧ call_times (lib_id_recalc_data_tag (id_orig i)) (calls st') = 1
      ∧ call_times (deg_editors_id_update (id_cow i)) (calls st')
        = if deg_copy_on_write_is_expanded (id_cow i) then 1 else 0.
Proof.
  intros Hcontract Horig Hcow Hrun op Hop.
  apply (flush_with_run _ _ _ _ Hcontract) in Hrun
    as [[_ ->] | (g1 & st1 & Hreset & Hentry & Hle & _ & _ & Hvisits & _)].
  { by apply elem_of_nil in Hop. }
  pose proof (flush_run_shape _ _ _ _ _ Hreset Hentry Hle) as Hshape.
  destruct (Hvisits op) as (n' & c' & i' & Hn' & Hc' & Hi' & Hdone);
    [by apply visits_elem_of|].
  destruct (same_shape_op _ _ _ _ Hshape Hn') as (n & Hn & _ & Ho).
  destruct (same_shape_comp _ _ _ _ Hshape Hc') as (c & Hc & Hco).
  destruct (same_shape_id _ _ _ _ Hshape Hi') as (i & Hi & Hio & Hic).
  exists n, c, i, i'. rewrite <- Ho, <- Hco. do 5 (split; [done|]).
  assert (NoDup (id_orig <$> id_nodes (graph st'))) as Horig'
    by (by rewrite (same_shape_ids_fmap id_orig g (graph st'))).
  assert (NoDup (id_cow <$> id_nodes (graph st'))) as Hcow'
    by (by rewrite (same_shape_ids_fmap id_cow g (graph st'))).
  rewrite !(flush_calls_expected bmain g g1 st1 st') by done.
  unfold expected_calls. rewrite <- Hio, <- Hic. repeat split.
  - rewrite (sum_list_unique id_orig _ _ _ i' Horig' Hi').
    + unfold handled_calls. rewrite decide_False by done.
      rewrite call_times_recalc. by rewrite decide_True.
    + intros m Hm. unfold handled_calls. case_decide; [done|].
      rewrite call_times_recalc. by rewrite decide_False.
  - rewrite (sum_list_unique id_orig _ _ _ i' Horig' Hi').
    + unfold handled_calls. rewrite decide_False by done.
      rewrite call_times_recalc_data. by rewrite decide_True.
    + intros m Hm. unfold handled_calls. case_decide; [done|].
      rewrite call_times_recalc_data. by rewrite decide_False.
  - rewrite (sum_list_unique id_cow _ _ _ i' Hcow' Hi').
    + unfold handled_calls. rewrite decide_False by done.
      rewrite call_times_editors. by rewrite decide_True.
    + intros m Hm. unfold handled_calls. case_decide; [done|].
      rewrite call_times_editors. by rewrite decide_False.
Qed.

(** ** Well-formed graphs are flushed without a crash *)

Lemma foreach_progress {A S : Type} (I : S → Prop) (body : A → S → option S)
    (l : list A) (s : S) :
  I s → (∀ x t, x ∈ l → I t → ∃ t', body x t = Some t' ∧ I t') →
  ∃ s', foreach body l s = Some s' ∧ I s'.
Proof.
  revert s. induction l as [|x l IH]; intros s Hs Hbody; simpl; [eauto|].
  destruct (Hbody x s) as (t & -> & Ht); [by left | done |]. simpl.
  apply IH; [done|]. intros y u Hy. apply Hbody. by right.
Qed.

Lemma same_shape_lengths g g' :
  same_shape g g' →
  length (operations g') = length (operations g)
  ∧ length (comp_nodes g') = length (comp_nodes g)
  ∧ length (id_nodes g') = length (id_nodes g).
Proof.
  intros (Ho & Hc & Hi).
  by rewrite (Forall2_length _ _ _ Ho), (Forall2_length _ _ _ Hc), (Forall2_length _ _ _ Hi).
Qed.

Lemma valid_entry_lengths g g' x :
  length (operations g') = length (operations g) → valid_entry g x → valid_entry g' x.
Proof. intros Hlen. destruct x; simpl; [lia|done]. Qed.

Lemma has_component_lengths g g' i i' type :
  length (comp_nodes g') = length (comp_nodes g) →
  id_components i' = id_components i →
  has_component g i type → has_component g' i' type.
Proof.
  intros Hlen Hi. unfold has_component, find_component. rewrite Hi, Hlen. done.
Qed.

(** Being well formed is a matter of the shape of the graph only. *)
Lemma wf_nodes_shape blocks g g' : same_shape g g' → wf_nodes blocks g → wf_nodes blocks g'.
Proof.
  intros Hshape (Hops & Hcomps & Hids).
  destruct (same_shape_lengths _ _ Hshape) as (Hlo & Hlc & Hli).
  pose proof Hshape as (Ho & Hc & Hi). repeat split.
  - apply Forall_lookup. intros p n' Hn'.
    destruct (Forall2_lookup_r _ _ _ _ _ Ho Hn') as (n & Hn & (_ & Hl & Hw)).
    destruct (proj1 (Forall_lookup _ _) Hops p n Hn) as [H1 H2].
    split; [lia|]. rewrite Hl. eapply Forall_impl; [exact H2|]. simpl. lia.
  - apply Forall_lookup. intros p c' Hc'.
    destruct (Forall2_lookup_r _ _ _ _ _ Hc Hc') as (c & Hcc & Heq).
    unfold set_comp_done in Heq. injection Heq as Ht Hn Hops' Hown Hent Hdep.
    destruct (proj1 (Forall_lookup _ _) Hcomps p c Hcc) as (H1 & H2 & H3).
    unfold wf_comp. rewrite Hops', Hent, Hown, Ht, Hdep. split; [|split].
    + eapply Forall_impl; [exact H1|]. simpl. lia.
    + by eapply valid_entry_lengths.
    + destruct (id_nodes g !! comp_owner c) as [i|] eqn:Hidn; [|done].
      destruct (Forall2_lookup_l _ _ _ _ _ Hi Hidn) as (i' & -> & Hieq).
      unfold set_id_done in Hieq. injection Hieq as _ _ Hic.
      destruct H3 as [Hb Hw]. split; intros H; eapply has_component_lengths; eauto.
  - apply Forall_lookup. intros p i' Hi'.
    destruct (Forall2_lookup_r _ _ _ _ _ Hi Hi') as (i & Hii & Heq).
    unfold set_id_done in Heq. injection Heq as Ho' Hc'' Hic.
    destruct (proj1 (Forall_lookup _ _) Hids p i Hii) as (H1 & H2 & H3).
    unfold wf_id. rewrite Ho', Hc'', Hic. repeat split; [done..|].
    eapply Forall_impl; [exact H3|]. simpl. lia.
Qed.

Lemma flush_handle_id_node_progress blocks i st :
  wf_nodes blocks (graph st) → length (datablocks st) = blocks →
  is_Some (id_nodes (graph st) !! i) →
  ∃ st', flush_handle_id_node i st = Some st'
       ∧ length (datablocks st') = blocks ∧ queue st' = queue st.
Proof.
  intros (_ & _ & Hids) Hlen [n Hn]. unfold flush_handle_id_node. rewrite Hn. simpl.
  case_decide; [eauto|].
  unfold on_graph, update_id. rewrite Hn. simpl.
  destruct (proj1 (Forall_lookup _ _) Hids i n Hn) as (Ho & Hc & _).
  destruct (lookup_lt_is_Some_2 (datablocks st) (id_orig n)) as [orig ->]; [lia|].
  destruct (lookup_lt_is_Some_2 (datablocks st) (id_cow n)) as [cow ->]; [lia|].
  simpl. eexists. split; [reflexivity|].
  destruct (deg_copy_on_write_is_expanded (id_cow n)); simpl;
    by rewrite !length_alter, length_insert.
Qed.

Lemma flush_reschedule_pose_progress blocks i st idn :
  wf_nodes blocks (graph st) →
  id_nodes (graph st) !! i = Some idn →
  has_component (graph st) idn DEG_NODE_TYPE_EVAL_POSE →
  Forall (valid_entry (graph st)) (queue st) →
  ∃ st', flush_reschedule_pose i st = Some st'
       ∧ datablocks st' = datablocks st
       ∧ Forall (valid_entry (graph st)) (queue st').
Proof.
  intros (_ & Hcomps & _) Hidn Hpose Hq. unfold flush_reschedule_pose. rewrite Hidn. simpl.
  unfold has_component in Hpose.
  destruct (find_component idn DEG_NODE_TYPE_EVAL_POSE) as [pp|]; [|done]. simpl.
  destruct (lookup_lt_is_Some_2 (comp_nodes (graph st)) pp Hpose) as [pc Hpc].
  rewrite Hpc. simpl. case_decide; [|eauto].
  unfold on_graph, update_comp. simpl. rewrite Hpc. simpl.
  eexists. split; [reflexivity|]. split; [done|]. simpl. constructor; [|done].
  by destruct (proj1 (Forall_lookup _ _) Hcomps pp pc Hpc) as (_ & ? & _).
Qed.

Lemma flush_handle_component_node_progress blocks p st c idn :
  tag_update_contract →
  wf_nodes blocks (graph st) →
  comp_nodes (graph st) !! p = Some c →
  id_nodes (graph st) !! comp_owner c = Some idn →
  Forall (valid_entry (graph st)) (queue st) →
  ∃ st', flush_handle_component_node (comp_owner c) p st = Some st'
       ∧ datablocks st' = datablocks st
       ∧ Forall (valid_entry (graph st)) (queue st').
Proof.
  intros Hcontract Hwf Hc Hidn Hq. pose proof Hwf as (Hops & Hcomps & Hids).
  destruct (proj1 (Forall_lookup _ _) Hcomps p c Hc) as (Hcops & _ & Hcid).
  rewrite Hidn in Hcid. destruct Hcid as [Hbone Hcow].
  unfold flush_handle_component_node. rewrite Hc. simpl. case_decide as Hdone; [eauto|].
  unfold on_graph, update_comp. simpl. rewrite Hc. simpl.
  set (g0 := set_comp_nodes _ (graph st)).
  assert (same_shape (graph st) g0) as Hshape0.
  { apply graph_le_shape.
    apply (comp_done_handler_le st p c COMPONENT_STATE_DONE); [done| |done].
    destruct (comp_done c); simpl; lia. }
  match goal with |- ∃ st', (?m ≫= _) = Some st' ∧ _ =>
    assert (∃ g1, m = Some (set_graph g1 st) ∧ flags_only g0 g1) as (g1 & -> & Hg1) end.
  { destruct (use_copy_on_write && comp_depends_on_cow c) eqn:Hmode.
    - rewrite Hidn. simpl. specialize (Hcow eq_refl). unfold has_component in Hcow.
      destruct (find_component idn DEG_NODE_TYPE_COPY_ON_WRITE) as [cc|]; [|done]. simpl.
      destruct (lookup_lt_is_Some_2 (<[p:=set_comp_done COMPONENT_STATE_DONE c]>
                                       (comp_nodes (graph st))) cc) as [? ->].
      { by rewrite length_insert. }
      simpl. eexists. split; [reflexivity|]. apply Hcontract.
    - exists g0. split; [done|]. apply flags_only_refl. }
  simpl.
  pose proof (same_shape_trans _ _ _ Hshape0 (graph_le_shape _ _ (flags_only_le _ _ Hg1)))
    as Hshape1.
  destruct (same_shape_lengths _ _ Hshape1) as (Hlo1 & Hlc1 & _).
  assert (comp_nodes g1 !! p = Some (set_comp_done COMPONENT_STATE_DONE c)) as Hc1.
  { destruct Hg1 as (_ & -> & _). unfold g0. simpl.
    apply list_lookup_insert_eq. by eapply lookup_lt_Some. }
  rewrite Hc1. simpl.
  destruct (tag_component_operations_lookup (comp_operations c) g1)
    as (g2 & Htag & Hc2 & Hi2 & _ & Hops2).
  { eapply Forall_impl; [exact Hcops|]. intros o Ho. apply lookup_lt_is_Some.
    simpl in Ho. lia. }
  rewrite Htag. simpl. rewrite Hc2, Hc1. simpl.
  case_decide as Htype; [|eauto].
  assert (flags_only g1 g2) as Hg2.
  { by apply (tag_component_operations_flags_only (comp_operations c)). }
  pose proof (same_shape_trans _ _ _ Hshape1 (graph_le_shape _ _ (flags_only_le _ _ Hg2)))
    as Hshape2.
  destruct (same_shape_lengths _ _ Hshape2) as (Hlo2 & Hlc2 & _).
  destruct (flush_reschedule_pose_progress blocks (comp_owner c) (set_graph g2 st) idn)
    as (st' & Hrun & Hd & Hq').
  - simpl. by eapply wf_nodes_shape.
  - simpl. rewrite Hi2. destruct Hg1 as (_ & _ & ->). done.
  - simpl. eapply (has_component_lengths (graph st)); [done..|]. by apply Hbone.
  - simpl. eapply Forall_impl; [exact Hq|]. intros x. by apply valid_entry_lengths.
  - exists st'. split; [done|]. split; [done|].
    eapply Forall_impl; [exact Hq'|]. intros x. simpl. apply valid_entry_lengths. lia.
Qed.

Lemma flush_schedule_children_progress blocks op st :
  wf_nodes blocks (graph st) → op < length (operations (graph st)) →
  Forall (valid_entry (graph st)) (queue st) →
  ∃ st' next, flush_schedule_children op st = Some (st', next)
            ∧ datablocks st' = datablocks st
            ∧ Forall (valid_entry (graph st)) (queue st')
            ∧ valid_entry (graph st) next.
Proof.
  intros (Hops & _ & _) Hop Hq. unfold flush_schedule_children.
  destruct (lookup_lt_is_Some_2 _ _ Hop) as [n Hn]. rewrite Hn. simpl.
  destruct (proj1 (Forall_lookup _ _) Hops op n Hn) as [_ Hlinks].
  destruct (foreach_progress
              (λ a : FlushState * option nat,
                 length (operations (graph a.1)) = length (operations (graph st))
                 ∧ datablocks a.1 = datablocks st
                 ∧ Forall (valid_entry (graph st)) (queue a.1)
                 ∧ valid_entry (graph st) a.2)
              flush_schedule_child (op_outlinks n) (st, None))
    as ([st' next] & Hrun & _ & Hd & Hq' & Hnext); [done| |by exists st', next].
  intros t [st1 r] Ht (Hlen & Hd & Hq1 & Hr). simpl in *.
  assert (t < length (operations (graph st))) as Hvalid
    by (by apply (proj1 (Forall_forall _ _) Hlinks)).
  unfold flush_schedule_child.
  destruct (lookup_lt_is_Some_2 (operations (graph st1)) t) as [nt Hnt]; [lia|].
  rewrite Hnt. simpl. destruct (op_scheduled nt); [by eexists|].
  destruct r as [x|]; unfold on_graph, update_op; simpl; rewrite Hnt; simpl;
    (eexists; split; [reflexivity|]); simpl; rewrite length_insert;
    repeat split; try done.
  constructor; done.
Qed.

Lemma run_ok_lengths blocks st st' a a' :
  run_ok blocks st a → graph_le (graph st) (graph st') →
  length (datablocks st') = blocks →
  Forall (valid_entry (graph st)) (queue st') → valid_entry (graph st) a' →
  run_ok blocks st' a'.
Proof.
  intros (Hwf & _) Hle Hd Hq Ha. pose proof (graph_le_shape _ _ Hle) as Hshape.
  destruct (same_shape_lengths _ _ Hshape) as (Hlo & _).
  split; [by eapply wf_nodes_shape|]. split; [done|]. split.
  - eapply Forall_impl; [exact Hq|]. intros x. by apply valid_entry_lengths.
  - by eapply valid_entry_lengths.
Qed.

(** On a well-formed graph a round of the inner loop does not crash. *)
Lemma flush_visit_progress blocks op st :
  tag_update_contract →
  run_ok blocks st (Some op) →
  ∃ st' next, flush_visit op st = Some (st', next) ∧ run_ok blocks st' next.
Proof.
  intros Hcontract Hok. pose proof Hok as (Hwf & Hblocks & Hq & Hop). simpl in Hop.
  unfold flush_visit.
  set (st0 := record_event (visited op) st).
  change (λ n, set_op_flag (Z.lor (op_flag n) DEPSOP_FLAG_NEEDS_UPDATE) n)
    with raise_needs_update.
  destruct (lookup_lt_is_Some_2 _ _ Hop) as [n Hn].
  assert (on_graph (update_op op raise_needs_update) st0
          = Some (set_graph (set_operations (<[op := raise_needs_update n]>
                                               (operations (graph st))) (graph st)) st0))
    as Hraise.
  { unfold on_graph, update_op. simpl. by rewrite Hn. }
  rewrite Hraise. simpl.
  rewrite list_lookup_insert_eq by done. simpl.
  set (st1 := set_graph _ st0) in *.
  destruct (flush_raise_le _ _ _ Hraise) as [H01 _].
  assert (run_ok blocks st1 (Some op)) as Hok1.
  { apply (run_ok_lengths blocks st st1 (Some op) (Some op));
      [done | apply H01 | done | done | done]. }
  pose proof Hok1 as (Hwf1 & Hblocks1 & Hq1 & _).
  destruct Hwf as (Hops & Hcomps & Hids).
  destruct (proj1 (Forall_lookup _ _) Hops op n Hn) as [Hown _].
  destruct (lookup_lt_is_Some_2 _ _ Hown) as [c Hc]. rewrite Hc. simpl.
  destruct (proj1 (Forall_lookup _ _) Hcomps _ c Hc) as (_ & _ & Hcid).
  destruct (id_nodes (graph st) !! comp_owner c) as [idn|] eqn:Hidn; [|done].
  destruct (flush_handle_id_node_progress blocks (comp_owner c) st1 Hwf1 Hblocks1
              (mk_is_Some _ _ Hidn)) as (st2 & Hid & Hblocks2 & Hq2).
  rewrite Hid. simpl.
  destruct (flush_handle_id_node_le _ _ _ Hid) as [H12 _].
  destruct (flush_handle_id_node_operations _ _ _ Hid) as [Ho2 Hc2].
  assert (run_ok blocks st2 (Some op)) as Hok2.
  { apply (run_ok_lengths blocks st1 st2 (Some op) (Some op));
      [done | apply H12 | done | by rewrite Hq2 | by destruct Hok1 as (_ & _ & _ & ?)]. }
  pose proof Hok2 as (Hwf2 & _ & Hq2' & _).
  assert (comp_nodes (graph st2) !! op_owner n = Some c) as Hc' by (by rewrite Hc2).
  destruct (Forall2_lookup_l _ _ _ _ _ (proj2 (proj2 (le_graph _ _ (hl_le _ _ H12))))
              (Hidn : id_nodes (graph st1) !! comp_owner c = Some idn)) as (idn2 & Hidn2 & _).
  destruct (flush_handle_component_node_progress blocks (op_owner n) st2 c idn2)
    as (st3 & Hcomp & Hd3 & Hq3); [done..|].
  rewrite Hcomp. simpl.
  pose proof (flush_handle_component_node_le _ _ _ _ Hcontract Hcomp) as H23.
  assert (run_ok blocks st3 (Some op)) as Hok3.
  { apply (run_ok_lengths blocks st2 st3 (Some op) (Some op));
      [done | apply H23 | by rewrite Hd3 | done | by destruct Hok2 as (_ & _ & _ & ?)]. }
  pose proof Hok3 as (Hwf3 & Hblocks3 & Hq3' & Hop3). simpl in Hop3.
  destruct (flush_schedule_children_progress blocks op st3)
    as (st' & next & Hrun & Hd' & Hq' & Hnext); [done..|].
  exists st', next. split; [done|].
  destruct (flush_schedule_children_le _ _ _ _ Hrun) as [H3 _].
  apply (run_ok_lengths blocks st3 st' (Some op) next);
    [done | apply (cl_le _ _ H3) | by rewrite Hd' | done | done].
Qed.

Lemma flush_loop_finishes blocks fuel :
  tag_update_contract →
  ∀ st a, run_ok blocks st a → flush_rounds st a < fuel →
          ∃ st', flush_loop fuel st a = Finished st'.
Proof.
  intros Hcontract. induction fuel as [|fuel IH]; intros st a Hok Hfuel; [lia|]. simpl.
  destruct a as [op|].
  - destruct (flush_visit_progress blocks op st Hcontract Hok) as (st1 & next & Hvisit & Hok1).
    assert (flush_round st (Some op) = Continue st1 next) as Hround
      by (unfold flush_round; by rewrite Hvisit).
    rewrite Hround.
    destruct (flush_round_effect _ _ _ _ Hcontract Hround) as (_ & Hr & _).
    apply IH; [done|lia].
  - unfold flush_round. destruct (queue st) as [|front rest] eqn:Hq; [eauto|].
    apply IH.
    + destruct Hok as (Hwf & Hd & Hqv & _). rewrite Hq in Hqv.
      apply Forall_cons in Hqv as [Hfront Hrest].
      split; [done|]. split; [done|]. split; done.
    + unfold flush_rounds in *. simpl. rewrite Hq in Hfuel. simpl in Hfuel.
      destruct front; lia.
Qed.

Lemma reset_components_progress (l : list ((eDepsNode_Type * string) * nat)) g :
  Forall (λ kc : (eDepsNode_Type * string) * nat, kc.2 < length (comp_nodes g)) l →
  is_Some (foreach (λ kc g, update_comp kc.2 (set_comp_done COMPONENT_STATE_NONE) g) l g).
Proof.
  intros Hvalid.
  destruct (foreach_progress (λ t, length (comp_nodes t) = length (comp_nodes g))
              (λ kc g, update_comp kc.2 (set_comp_done COMPONENT_STATE_NONE) g) l g)
    as (g' & Hrun & _); [done| |by eexists].
  intros kc t Hkc Hlen. unfold update_comp.
  destruct (lookup_lt_is_Some_2 (comp_nodes t) kc.2) as [c ->].
  { rewrite Hlen. by apply (proj1 (Forall_forall _ _) Hvalid). }
  simpl. eexists. split; [reflexivity|]. simpl. by rewrite length_insert.
Qed.

Lemma flush_init_id_node_func_shape g x g' :
  flush_init_id_node_func g x = Some g' → same_shape g g'.
Proof.
  intros (n & Hn & Ho & _ & Hi & Hc & _)%flush_init_id_node_func_effect. repeat split.
  - rewrite Ho. apply Forall2_refl_on. done.
  - eapply Forall2_impl; [exact Hc|]. by intros c c' [-> | ->].
  - rewrite Hi. apply (Forall2_insert_same _ _ _ n); done.
Qed.

Lemma flush_prepare_progress blocks g : wf_nodes blocks g → is_Some (flush_prepare g).
Proof.
  intros Hwf. unfold flush_prepare.
  change flush_init_operation_node_func
    with (λ g i, update_op i (set_op_scheduled false) g).
  rewrite update_op_all. simpl.
  set (g0 := set_operations (set_op_scheduled false <$> operations g) g).
  assert (same_shape g g0) as Hshape0.
  { repeat split; simpl; [|apply Forall2_refl_on; done..].
    apply Forall2_fmap_r, Forall2_refl_on. done. }
  unfold BLI_task_parallel_range. rewrite Nat.sub_0_r.
  destruct (foreach_progress (λ t, same_shape g t)
              (λ i s, flush_init_id_node_func s i) (seq 0 (length (id_nodes g))) g0)
    as (g1 & Hrun & _); [done| |by eexists].
  intros x t Hx Hshape. apply elem_of_seq in Hx.
  destruct (same_shape_lengths _ _ Hshape) as (_ & _ & Hli).
  pose proof (wf_nodes_shape blocks _ _ Hshape Hwf) as (_ & _ & Hids).
  unfold flush_init_id_node_func.
  destruct (lookup_lt_is_Some_2 (id_nodes t) x) as [n Hn]; [lia|].
  rewrite Hn. simpl. unfold update_id. rewrite Hn. simpl.
  destruct (proj1 (Forall_lookup _ _) Hids x n Hn) as (_ & _ & Hkeys).
  destruct (reset_components_progress (id_components n)
              (set_id_nodes (<[x:=set_id_done 0 n]> (id_nodes t)) t)) as [t' Ht']; [done|].
  exists t'. split; [done|].
  eapply same_shape_trans; [exact Hshape|].
  apply (flush_init_id_node_func_shape t x).
  unfold flush_init_id_node_func. rewrite Hn. simpl. unfold update_id. rewrite Hn. done.
Qed.

Lemma flush_schedule_entrypoints_progress st :
  Forall (λ e, e < length (operations (graph st))) (entry_tags (graph st)) →
  ∃ st1, flush_schedule_entrypoints st = Some st1 ∧ datablocks st1 = datablocks st.
Proof.
  intros Hvalid. unfold flush_schedule_entrypoints.
  match goal with |- ∃ st1, foreach ?body ?l st = Some st1 ∧ _ =>
    destruct (foreach_progress
                (λ t, length (operations (graph t)) = length (operations (graph st))
                      ∧ datablocks t = datablocks st) body l st)
      as (st1 & Hrun & _ & Hd) end; [done| |by exists st1].
  intros e t He [Hlen Hd]. unfold on_graph, update_op. simpl.
  destruct (lookup_lt_is_Some_2 (operations (graph t)) e) as [n ->].
  { rewrite Hlen. by apply (proj1 (Forall_forall _ _) Hvalid). }
  simpl. eexists. split; [reflexivity|]. simpl. by rewrite length_insert.
Qed.

(** On a well-formed graph the flush runs to its end. *)
Lemma flush_updates_finishes bmain g :
  tag_update_contract → well_formed bmain g →
  ∃ st', deg_graph_flush_updates bmain g = Finished st'.
Proof.
  intros Hcontract [Hwf Hentry]. unfold deg_graph_flush_updates, flush_with.
  case_decide; [eauto|].
  destruct (flush_prepare_progress _ _ Hwf) as [g1 Hprep]. rewrite Hprep.
  pose proof (flush_prepare_effect _ _ Hprep) as Hreset.
  pose proof (reset_of_shape _ _ Hreset) as Hshape1.
  destruct (same_shape_lengths _ _ Hshape1) as (Hlo1 & _).
  change (set_graph g1 _) with (flush_start bmain g1).
  destruct (flush_schedule_entrypoints_progress (flush_start bmain g1)) as (st1 & Hrun & Hd).
  { simpl. rewrite (ro_entry _ _ Hreset). eapply Forall_impl; [exact Hentry|]. simpl. lia. }
  rewrite Hrun. pose proof (flush_schedule_entrypoints_effect _ _ Hrun) as Hes.
  apply (flush_loop_finishes (length bmain)); [done| |lia].
  apply (run_ok_lengths (length bmain) (flush_start bmain g1) st1 None None).
  - split; [by eapply wf_nodes_shape|]. by repeat split.
  - apply Hes.
  - by rewrite Hd.
  - rewrite (es_queue _ _ Hes). simpl. rewrite (ro_entry _ _ Hreset).
    apply Forall_fmap. eapply Forall_impl; [exact Hentry|]. simpl. lia.
  - done.
Qed.

(** C7.  On every graph the flush comes to an end, and the number of rounds
    of its loop is bounded by the size of the graph: with any bound on the
    rounds above twice the number of operations, twice that of components
    and the number of entry tags, the loop ends within the bound.  On a
    well-formed graph, one whose pointers all lead to nodes of the graph,
    the flush returns. *)
Theorem flush_updates_terminates (bmain : list ID) (g : Depsgraph) :
  tag_update_contract →
  deg_graph_flush_updates bmain g ≠ OutOfFuel
  ∧ (∀ fuel,
      2 * (length (operations g) + 2 * length (comp_nodes g) + length (entry_tags g)) < fuel →
      deg_graph_flush_updates_fuel fuel bmain g = deg_graph_flush_updates bmain g)
  ∧ (well_formed bmain g → ∃ st', deg_graph_flush_updates bmain g = Finished st').
Proof.
  intros Hcontract.
  cut (deg_graph_flush_updates bmain g ≠ OutOfFuel
       ∧ ∀ fuel,
           2 * (length (operations g) + 2 * length (comp_nodes g)
                + length (entry_tags g)) < fuel →
           deg_graph_flush_updates_fuel fuel bmain g = deg_graph_flush_updates bmain g).
  { intros [Hend Hfuel]. split; [done|]. split; [done|].
    intros Hwf. by apply flush_updates_finishes. }
  unfold deg_graph_flush_updates, deg_graph_flush_updates_fuel, flush_with.
  case_decide; [done|].
  destruct (flush_prepare g) as [g1|] eqn:Hprep; [|done].
  change (set_graph g1 _) with (flush_start bmain g1).
  destruct (flush_schedule_entrypoints (flush_start bmain g1)) as [st1|] eqn:Hentry; [|done].
  pose proof (flush_rounds_bound _ _ _ _ Hprep Hentry) as Hbound.
  assert (flush_loop (S (flush_rounds st1 None)) st1 None ≠ OutOfFuel) as Hend
    by (apply flush_loop_terminates; [done|lia]).
  split; [done|]. intros fuel Hfuel. apply flush_loop_more_fuel; [done|lia].
Qed.

(** ** The state reset, in full *)

Lemma registered_lookup g c :
  registered g c ↔ ∃ i n kc, id_nodes g !! i = Some n ∧ kc ∈ id_components n ∧ kc.2 = c.
Proof.
  unfold registered. rewrite Exists_exists. split.
  - intros (n & Hn & Hc). apply list_elem_of_lookup in Hn as [i Hi].
    apply list_elem_of_fmap in Hc as (kc & -> & Hkc). by exists i, n, kc.
  - intros (i & n & kc & Hi & Hkc & <-). exists n. split; [by eapply list_elem_of_lookup_2|].
    apply list_elem_of_fmap. by exists kc.
Qed.

Lemma same_shape_components g g' i n' :
  same_shape g g' → id_nodes g' !! i = Some n' →
  ∃ n, id_nodes g !! i = Some n ∧ id_components n' = id_components n.
Proof.
  intros (_ & _ & Hids) Hn'.
  destruct (Forall2_lookup_r _ _ _ _ _ Hids Hn') as (n & Hn & Heq).
  exists n. split; [done|]. unfold set_id_done in Heq. by injection Heq.
Qed.

Lemma same_shape_refl g : same_shape g g.
Proof. repeat split; apply Forall2_refl_on; done. Qed.

(** The reset leaves alone the components that are in no hash. *)
Lemma flush_prepare_frame g g1 c cn :
  flush_prepare g = Some g1 → ¬ registered g c →
  comp_nodes g !! c = Some cn → comp_nodes g1 !! c = Some cn.
Proof.
  unfold flush_prepare. intros Hrun Hfree Hcn.
  change flush_init_operation_node_func
    with (λ g i, update_op i (set_op_scheduled false) g) in Hrun.
  rewrite update_op_all in Hrun. simpl in Hrun.
  set (g0 := set_operations (set_op_scheduled false <$> operations g) g) in *.
  unfold BLI_task_parallel_range in Hrun.
  pose proof (foreach_invariant
    (λ u, same_shape g u ∧ comp_nodes u !! c = Some cn)
    (λ i s, flush_init_id_node_func s i) (seq 0 (length (id_nodes g0) - 0)) g0 g1) as Hloop.
  apply Hloop; [|split; [|done]|exact Hrun].
  - intros x u u' _ [Hshape Hu] Hbody. split.
    { eapply same_shape_trans; [exact Hshape|]. by eapply flush_init_id_node_func_shape. }
    unfold flush_init_id_node_func in Hbody.
    destruct (id_nodes u !! x) as [n|] eqn:Hn; simpl in Hbody; [|done].
    unfold update_id in Hbody. rewrite Hn in Hbody. simpl in Hbody.
    destruct (same_shape_components _ _ _ _ Hshape Hn) as (m & Hm & Hkeys).
    revert Hbody. apply (foreach_invariant (λ t, comp_nodes t !! c = Some cn)); [|done].
    intros kc t t' Hkc Ht (cx & Hcx & ->)%update_comp_inv. simpl.
    rewrite list_lookup_insert_ne; [done|]. intros <-. apply Hfree.
    apply registered_lookup. exists x, m, kc. rewrite <- Hkeys. done.
  - repeat split; simpl; [|apply Forall2_refl_on; done..].
    apply Forall2_fmap_r, Forall2_refl_on. done.
Qed.

Lemma set_comp_done_same c : set_comp_done (comp_done c) c = c.
Proof. by destruct c. Qed.

Lemma flush_prepare_exact (g g1 : Depsgraph) :
  flush_prepare g = Some g1 →
  operations g1 = set_op_scheduled false <$> operations g
  ∧ id_nodes g1 = set_id_done 0 <$> id_nodes g
  ∧ entry_tags g1 = entry_tags g
  ∧ length (comp_nodes g1) = length (comp_nodes g)
  ∧ ∀ c cn, comp_nodes g !! c = Some cn →
      comp_nodes g1 !! c
      = Some (if decide (registered g c)
              then set_comp_done COMPONENT_STATE_NONE cn else cn).
Proof.
  intros Hrun. pose proof (flush_prepare_effect _ _ Hrun) as [Ho Hc Hi He Hnone].
  do 3 (split; [done|]). split; [symmetry; by eapply Forall2_length|].
  intros c cn Hcn. case_decide as Hreg.
  - apply registered_lookup in Hreg as (i & n & kc & Hn & Hkc & <-).
    destruct (Hnone i n kc Hn Hkc) as (cn' & Hcn' & Hd). rewrite Hcn'. f_equal.
    destruct (Forall2_lookup_lr _ _ _ _ _ _ Hc Hcn Hcn') as [-> | ->]; [|done].
    rewrite <- Hd. by rewrite set_comp_done_same.
  - by eapply flush_prepare_frame.
Qed.

Lemma flush_prepare_is_Some g : hashes_in_range g → is_Some (flush_prepare g).
Proof.
  intros Hkeys. unfold flush_prepare.
  change flush_init_operation_node_func
    with (λ g i, update_op i (set_op_scheduled false) g).
  rewrite update_op_all. simpl.
  set (g0 := set_operations (set_op_scheduled false <$> operations g) g).
  unfold BLI_task_parallel_range. rewrite Nat.sub_0_r.
  destruct (foreach_progress (λ t, same_shape g t)
              (λ i s, flush_init_id_node_func s i) (seq 0 (length (id_nodes g))) g0)
    as (g1 & Hrun & _); [| |by eexists].
  { repeat split; simpl; [|apply Forall2_refl_on; done..].
    apply Forall2_fmap_r, Forall2_refl_on. done. }
  intros x t Hx Hshape. apply elem_of_seq in Hx.
  destruct (same_shape_lengths _ _ Hshape) as (_ & Hlc & Hli).
  destruct (lookup_lt_is_Some_2 (id_nodes t) x) as [n Hn]; [lia|].
  destruct (same_shape_components _ _ _ _ Hshape Hn) as (m & Hm & Hcomps).
  assert (is_Some (flush_init_id_node_func t x)) as [t' Ht'].
  { unfold flush_init_id_node_func. rewrite Hn. simpl. unfold update_id. rewrite Hn. simpl.
    apply reset_components_progress. simpl. rewrite Hcomps.
    pose proof (proj1 (Forall_lookup _ _) Hkeys x m Hm) as Hm'. simpl in Hm'.
    apply Forall_fmap in Hm'. eapply Forall_impl; [exact Hm'|]. simpl. lia. }
  exists t'. split; [done|].
  eapply same_shape_trans; [exact Hshape|]. by eapply flush_init_id_node_func_shape.
Qed.

Lemma flush_prepare_in_range (g g1 : Depsgraph) :
  flush_prepare g = Some g1 → hashes_in_range g.
Proof.
  intros Hrun. pose proof (flush_prepare_effect _ _ Hrun) as [_ Hc _ _ Hnone].
  apply Forall_lookup. intros i n Hn. apply Forall_fmap, Forall_forall. intros kc Hkc.
  destruct (Hnone i n kc Hn Hkc) as (cn & Hcn & _). simpl.
  rewrite (Forall2_length _ _ _ Hc). by eapply lookup_lt_Some.
Qed.

Lemma registered_reset g g1 c :
  id_nodes g1 = set_id_done 0 <$> id_nodes g → registered g1 c ↔ registered g c.
Proof.
  intros Hids. unfold registered. rewrite Hids, Exists_fmap. done.
Qed.

(** X1.  The state reset: every operation is unscheduled, every ID node not
    done, every component that is in the hash of an ID node is at
    COMPONENT_STATE_NONE; a component that is in no hash keeps its state, and
    operation flags, links and the entry set are as they were. *)
Theorem flush_prepare_resets (g g1 : Depsgraph) :
  flush_prepare g = Some g1 →
  operations g1 = set_op_scheduled false <$> operations g
  ∧ id_nodes g1 = set_id_done 0 <$> id_nodes g
  ∧ entry_tags g1 = entry_tags g
  ∧ length (comp_nodes g1) = length (comp_nodes g)
  ∧ ∀ c cn, comp_nodes g !! c = Some cn →
      comp_nodes g1 !! c
      = Some (if decide (registered g c)
              then set_comp_done COMPONENT_STATE_NONE cn else cn).
Proof. apply flush_prepare_exact. Qed.

(** X2.  The reset reads through exactly the component pointers stored in the
    hashes of the ID nodes: it comes to its end when each of them has a target
    among the components of the graph, and only then. *)
Theorem flush_prepare_succeeds_iff (g : Depsgraph) :
  is_Some (flush_prepare g) ↔ hashes_in_range g.
Proof.
  split; [|apply flush_prepare_is_Some]. intros [g1 Hrun]. by eapply flush_prepare_in_range.
Qed.

(** X3.  Resetting a graph that was just reset changes nothing. *)
Theorem flush_prepare_idempotent (g g1 : Depsgraph) :
  flush_prepare g = Some g1 → flush_prepare g1 = Some g1.
Proof.
  intros Hrun. destruct (flush_prepare_exact _ _ Hrun) as (Ho & Hi & He & Hlen & Hc).
  destruct (flush_prepare_is_Some g1) as [g2 Hrun2].
  { pose proof (flush_prepare_in_range _ _ Hrun) as Hkeys.
    unfold hashes_in_range in *. rewrite Hi, Hlen. apply Forall_fmap.
    eapply Forall_impl; [exact Hkeys|]. done. }
  rewrite Hrun2. f_equal.
  destruct (flush_prepare_exact _ _ Hrun2) as (Ho2 & Hi2 & He2 & Hlen2 & Hc2).
  assert (comp_nodes g2 = comp_nodes g1) as Hcomps.
  { apply list_eq. intros c. destruct (comp_nodes g1 !! c) as [cn1|] eqn:Hcn1.
    - rewrite (Hc2 c cn1 Hcn1). f_equal. case_decide as Hreg; [|done].
      apply (registered_reset g g1 c Hi) in Hreg.
      destruct (lookup_lt_is_Some_2 (comp_nodes g) c) as [cn Hcn].
      { rewrite <- Hlen. by eapply lookup_lt_Some. }
      rewrite (Hc c cn Hcn), decide_True in Hcn1 by done. by inversion Hcn1.
    - apply lookup_ge_None. apply lookup_ge_None in Hcn1. lia. }
  clear Hrun Hrun2 Hc Hc2 Hlen Hlen2.
  destruct g1 as [ops1 comps1 ids1 tags1], g2 as [ops2 comps2 ids2 tags2]. simpl in *.
  rewrite Ho2, Hi2, He2, Hcomps, Ho, Hi. f_equal.
  - rewrite <- list_fmap_compose. apply list_fmap_ext. by intros i [] _.
  - rewrite <- list_fmap_compose. apply list_fmap_ext. by intros i [] _.
Qed.

(** ** Component states over a whole flush *)

(** C8.  The [done] of a component over a flush. The reset puts every
    component of an ID node's hash in COMPONENT_STATE_NONE, whatever its
    state was; entry scheduling touches no component; after that neither the
    component handler, nor a round of the loop, nor the loop as a whole ever
    lowers the [done] of a component in the order NONE, SCHEDULED, DONE.
    Over a whole flush that goes past the early return, a component ends in
    a state that is not below the one the reset left it in: NONE when it is
    in the hash of an ID node, its state at the call when it is in none. *)
Theorem component_done_never_regresses :
  tag_update_contract →
  (∀ g g1 i n kc,
     flush_prepare g = Some g1 → id_nodes g !! i = Some n → kc ∈ id_components n →
     ∃ cn, comp_nodes g1 !! kc.2 = Some cn ∧ comp_done cn = COMPONENT_STATE_NONE)
  ∧ (∀ st st1,
       flush_schedule_entrypoints st = Some st1 →
       comp_nodes (graph st1) = comp_nodes (graph st))
  ∧ (∀ i p st st' c cn,
       flush_handle_component_node i p st = Some st' →
       comp_nodes (graph st) !! c = Some cn →
       ∃ cn', comp_nodes (graph st') !! c = Some cn'
            ∧ state_value (comp_done cn) ≤ state_value (comp_done cn'))
  ∧ (∀ st a st' a' c cn,
       flush_round st a = Continue st' a' →
       comp_nodes (graph st) !! c = Some cn →
       ∃ cn', comp_nodes (graph st') !! c = Some cn'
            ∧ state_value (comp_done cn) ≤ state_value (comp_done cn'))
  ∧ (∀ fuel st a st' c cn,
       flush_loop fuel st a = Finished st' →
       comp_nodes (graph st) !! c = Some cn →
       ∃ cn', comp_nodes (graph st') !! c = Some cn'
            ∧ state_value (comp_done cn) ≤ state_value (comp_done cn'))
  ∧ (∀ bmain g st' c cn,
       deg_graph_flush_updates bmain g = Finished st' → entry_tags g ≠ [] →
       comp_nodes g !! c = Some cn →
       ∃ g1 cn',
         flush_prepare g = Some g1
         ∧ comp_nodes g1 !! c
           = Some (if decide (registered g c)
                   then set_comp_done COMPONENT_STATE_NONE cn else cn)
         ∧ comp_nodes (graph st') !! c = Some cn'
         ∧ state_value (if decide (registered g c)
                        then COMPONENT_STATE_NONE else comp_done cn)
           ≤ state_value (comp_done cn')).
Proof.
  intros Hcontract. split; [|split; [|split; [|split; [|split]]]].
  - intros g g1 i n kc Hprep%flush_prepare_effect Hn Hkc. by eapply (ro_none _ _ Hprep).
  - intros st st1 Hentry%flush_schedule_entrypoints_effect. apply Hentry.
  - intros i p st st' c cn Hrun Hc.
    apply (flush_handle_component_node_le _ _ _ _ Hcontract) in Hrun.
    eapply graph_le_comp_done; [apply Hrun | done].
  - intros st a st' a' c cn Hrun Hc.
    apply (flush_round_effect _ _ _ _ Hcontract) in Hrun as (Hle & _).
    eapply graph_le_comp_done; [apply Hle | done].
  - intros fuel st a st' c cn Hrun Hc.
    apply (flush_loop_effect _ Hcontract) in Hrun as (Hle & _).
    eapply graph_le_comp_done; [apply Hle | done].
  - intros bmain g st' c cn Hrun Hne Hc.
    apply flush_with_inv in Hrun as [[Hempty _] | (g1 & st1 & Hprep & Hentry & Hloop)];
      [done|].
    destruct (flush_prepare_exact _ _ Hprep) as (_ & _ & _ & _ & Hcomps).
    pose proof (Hcomps c cn Hc) as Hc1.
    apply flush_schedule_entrypoints_effect in Hentry.
    apply (flush_loop_effect _ Hcontract) in Hloop as (Hle & _).
    assert (comp_nodes (graph st1) !! c
            = Some (if decide (registered g c)
                    then set_comp_done COMPONENT_STATE_NONE cn else cn)) as Hc2.
    { by rewrite (es_comps _ _ Hentry). }
    destruct (graph_le_comp_done _ _ _ _ (le_graph _ _ Hle) Hc2) as (cn' & Hcn' & Hdone).
    exists g1, cn'. do 3 (split; [done|]). by case_decide.
Qed.

(** ** The entry scheduling, in full *)

Lemma flush_schedule_entrypoints_datablocks st st1 :
  flush_schedule_entrypoints st = Some st1 → datablocks st1 = datablocks st.
Proof.
  unfold flush_schedule_entrypoints.
  apply (foreach_invariant (λ t, datablocks t = datablocks st)); [|done].
  intros e t t' _ Ht Hbody. unfold on_graph in Hbody. bind_inv Hbody.
  inversion Hbody; subst; clear Hbody. done.
Qed.

Lemma on_graph_inv f st st' :
  on_graph f st = Some st' → ∃ g', f (graph st) = Some g' ∧ st' = set_graph g' st.
Proof. unfold on_graph. intros Hrun. bind_inv Hrun. inversion Hrun. eauto. Qed.

Lemma flush_schedule_entrypoints_run st st1 :
  flush_schedule_entrypoints st = Some st1 →
  Forall (λ e, e < length (operations (graph st))) (entry_tags (graph st))
  ∧ queue st1 = queue st ++ (Some <$> entry_tags (graph st))
  ∧ datablocks st1 = datablocks st ∧ calls st1 = calls st
  ∧ comp_nodes (graph st1) = comp_nodes (graph st)
  ∧ id_nodes (graph st1) = id_nodes (graph st)
  ∧ entry_tags (graph st1) = entry_tags (graph st)
  ∧ length (operations (graph st1)) = length (operations (graph st))
  ∧ ∀ p n, operations (graph st) !! p = Some n →
      operations (graph st1) !! p
      = Some (if decide (p ∈ entry_tags (graph st)) then set_op_scheduled true n else n).
Proof.
  unfold flush_schedule_entrypoints. intros Hrun.
  match type of Hrun with foreach ?body _ _ = _ =>
  pose proof (foreach_prefix_invariant
    (λ pre t, Forall (λ e, e < length (operations (graph st))) pre
              ∧ queue t = queue st ++ (Some <$> pre)
              ∧ datablocks t = datablocks st ∧ calls t = calls st
              ∧ comp_nodes (graph t) = comp_nodes (graph st)
              ∧ id_nodes (graph t) = id_nodes (graph st)
              ∧ entry_tags (graph t) = entry_tags (graph st)
              ∧ length (operations (graph t)) = length (operations (graph st))
              ∧ ∀ p n, operations (graph st) !! p = Some n →
                  operations (graph t) !! p
                  = Some (if decide (p ∈ pre) then set_op_scheduled true n else n))
    body (entry_tags (graph st)) st st1) as Hloop end.
  apply Hloop; [| |exact Hrun].
  - split; [constructor|]. rewrite fmap_nil, app_nil_r. do 7 (split; [done|]).
    intros p n Hn. rewrite Hn. by rewrite decide_False by apply not_elem_of_nil.
  - intros pre x t t' (Hvalid & Hq & Hd & Hcalls & Hc & Hi & He & Hlen & Hops) Hbody.
    apply on_graph_inv in Hbody as (g' & (m & Hm & ->)%update_op_inv & ->). simpl in *.
    split; [apply Forall_app; split; [done|]; constructor; [|constructor];
            rewrite <- Hlen; by eapply lookup_lt_Some|].
    split; [by rewrite Hq, fmap_app, app_assoc|]. do 5 (split; [done|]).
    split; [by rewrite length_insert|].
    intros p n Hn. specialize (Hops p n Hn). destruct (decide (p = x)) as [->|Hne].
    + rewrite list_lookup_insert_eq by (by eapply lookup_lt_Some).
      rewrite decide_True by (apply elem_of_app; right; by left). f_equal.
      rewrite Hm in Hops. inversion Hops. by case_decide.
    + rewrite list_lookup_insert_ne by done. rewrite Hops. f_equal.
      apply decide_ext. rewrite elem_of_app, list_elem_of_singleton.
      split; [by left | by intros [?|?]].
Qed.

(** X4.  Entry scheduling comes to its end exactly when every entry tag points
    at an operation of the graph. It then appends the entry tags to the queue
    in their order, sets [scheduled] on exactly the tagged operations and
    changes nothing else: not a flag, a component, an ID node, the entry set,
    a datablock or the recorded calls. *)
Theorem flush_schedule_entrypoints_exact (st : FlushState) :
  (is_Some (flush_schedule_entrypoints st)
   ↔ Forall (λ e, e < length (operations (graph st))) (entry_tags (graph st)))
  ∧ ∀ st1, flush_schedule_entrypoints st = Some st1 →
      queue st1 = queue st ++ (Some <$> entry_tags (graph st))
      ∧ datablocks st1 = datablocks st ∧ calls st1 = calls st
      ∧ comp_nodes (graph st1) = comp_nodes (graph st)
      ∧ id_nodes (graph st1) = id_nodes (graph st)
      ∧ entry_tags (graph st1) = entry_tags (graph st)
      ∧ length (operations (graph st1)) = length (operations (graph st))
      ∧ ∀ p n, operations (graph st) !! p = Some n →
          operations (graph st1) !! p
          = Some (if decide (p ∈ entry_tags (graph st)) then set_op_scheduled true n else n).
Proof.
  split; [split|].
  - intros [st1 Hrun]. by apply flush_schedule_entrypoints_run in Hrun as [? _].
  - intros Hvalid. destruct (flush_schedule_entrypoints_progress st Hvalid) as (st1 & -> & _).
    by eexists.
  - intros st1 Hrun. by apply flush_schedule_entrypoints_run in Hrun as [_ ?].
Qed.

(** ** The ID node handler and the datablock tags *)

Lemma lor_land_same (x m : Z) : Z.lor x (Z.land x m) = x.
Proof.
  apply Z.bits_inj'. intros b _. rewrite Z.lor_spec, Z.land_spec.
  by destruct (Z.testbit x b), (Z.testbit m b).
Qed.

Lemma flush_handle_id_node_run i st n orig cow :
  id_nodes (graph st) !! i = Some n → id_done n = 0%Z →
  datablocks st !! id_orig n = Some orig → datablocks st !! id_cow n = Some cow →
  flush_handle_id_node i st
  = Some {| graph := set_id_nodes (<[i := set_id_done 1 n]> (id_nodes (graph st))) (graph st);
            datablocks := id_node_writes n orig cow (datablocks st);
            queue := queue st;
            calls := calls st ++ id_handler_calls n;
            history := history st |}.
Proof.
  intros Hn Hdone Horig Hcow. unfold flush_handle_id_node. rewrite Hn. simpl.
  rewrite decide_False by (rewrite Hdone; by intros []).
  unfold on_graph, update_id. rewrite Hn. simpl. rewrite Horig, Hcow. simpl.
  unfold id_handler_calls, id_node_writes, merged_tags, recalc_call, add_call,
    set_datablocks, set_graph. simpl.
  destruct (deg_copy_on_write_is_expanded (id_cow n)); simpl;
    rewrite <- ?app_assoc; simpl; reflexivity.
Qed.

Lemma id_node_writes_length n orig cow blocks :
  length (id_node_writes n orig cow blocks) = length blocks.
Proof. unfold id_node_writes. by rewrite !length_alter, length_insert. Qed.

(** The datablocks after the ID node handler, pointer by pointer. *)
Lemma id_node_writes_lookup n orig cow blocks d :
  blocks !! id_orig n = Some orig → blocks !! id_cow n = Some cow →
  id_node_writes n orig cow blocks !! d
  = if decide (d = id_orig n)
    then Some (recalc_data_tag
                 (recalc_tag (if decide (id_orig n = id_cow n)
                              then merged_tags orig cow else orig)))
    else if decide (d = id_cow n) then Some (merged_tags orig cow) else blocks !! d.
Proof.
  intros Horig Hcow. unfold id_node_writes.
  assert (id_cow n < length blocks) as Hlt by (by eapply lookup_lt_Some).
  destruct (decide (d = id_orig n)) as [->|Hne].
  - rewrite !list_lookup_alter_eq.
    destruct (decide (id_orig n = id_cow n)) as [Heq|Hneq].
    + rewrite Heq, list_lookup_insert_eq by done. done.
    + rewrite list_lookup_insert_ne by done. by rewrite Horig.
  - rewrite !list_lookup_alter_ne by done.
    destruct (decide (d = id_cow n)) as [->|Hnc].
    + by rewrite list_lookup_insert_eq.
    + by rewrite list_lookup_insert_ne.
Qed.

Lemma merged_tags_same cow : merged_tags cow cow = cow.
Proof. unfold merged_tags. rewrite lor_land_same. by destruct cow. Qed.

(** X5.  The first call of the ID node handler on an ID node: the node is
    marked done and the calls to the collaborators are made. The datablocks
    stay as many, and only the copy-on-write datablock and the original one
    are written: the copy receives the recalculation tags of the original,
    bit by bit, and the original is what the two recalculation calls, one
    after the other, make of it; when the two pointers of the node are the
    same datablock, the copying adds nothing and the datablock is what the
    two calls make of it. A second call changes nothing. *)
Theorem flush_handle_id_node_merges_tags (i : nat) (st : FlushState) (n : IDDepsNode)
    (orig cow : ID) :
  id_nodes (graph st) !! i = Some n → id_done n = 0%Z →
  datablocks st !! id_orig n = Some orig → datablocks st !! id_cow n = Some cow →
  ∃ st', flush_handle_id_node i st = Some st'
    ∧ graph st' = set_id_nodes (<[i := set_id_done 1 n]> (id_nodes (graph st))) (graph st)
    ∧ queue st' = queue st ∧ history st' = history st
    ∧ calls st' = calls st ++ id_handler_calls n
    ∧ length (datablocks st') = length (datablocks st)
    ∧ (∀ d, d ≠ id_cow n → d ≠ id_orig n → datablocks st' !! d = datablocks st !! d)
    ∧ (id_orig n ≠ id_cow n →
       datablocks st' !! id_orig n = Some (recalc_data_tag (recalc_tag orig))
       ∧ ∃ cow', datablocks st' !! id_cow n = Some cow'
           ∧ ∀ b, Z.testbit (id_tag cow') b
                  = Z.testbit (id_tag cow) b
                    || (Z.testbit (id_tag orig) b && Z.testbit LIB_TAG_ID_RECALC_ALL b))
    ∧ (id_orig n = id_cow n →
       datablocks st' !! id_cow n = Some (recalc_data_tag (recalc_tag cow)))
    ∧ flush_handle_id_node i st' = Some st'.
Proof.
  intros Hn Hdone Horig Hcow. eexists. split; [by apply flush_handle_id_node_run|]. simpl.
  do 4 (split; [done|]). split; [apply id_node_writes_length|].
  split; [|split; [|split]].
  - intros d Hc Ho. rewrite (id_node_writes_lookup n orig cow) by done.
    by rewrite !decide_False by done.
  - intros Hne. rewrite !(id_node_writes_lookup n orig cow) by done.
    rewrite decide_True by done. rewrite (decide_False (P := id_orig n = id_cow n)) by done.
    split; [done|]. rewrite decide_False by (by intros Heq; destruct Hne).
    rewrite decide_True by done. eexists. split; [done|].
    intros b. simpl. by rewrite Z.lor_spec, Z.land_spec.
  - intros Heq. rewrite (id_node_writes_lookup n orig cow) by done.
    rewrite decide_True by done. rewrite decide_True by done.
    rewrite Heq in Horig. assert (orig = cow) as -> by congruence.
    by rewrite merged_tags_same.
  - unfold flush_handle_id_node. simpl.
    rewrite list_lookup_insert_eq by (by eapply lookup_lt_Some). done.
Qed.

(** X6.  The ID node handler comes to its end exactly when its ID node pointer
    has a target and either that node is done already, in which case the state
    is returned as it is, or its two datablock pointers have targets. *)
Theorem flush_handle_id_node_succeeds_iff (i : nat) (st : FlushState) :
  (is_Some (flush_handle_id_node i st)
   ↔ ∃ n, id_nodes (graph st) !! i = Some n
        ∧ (id_done n ≠ 0%Z
           ∨ (id_orig n < length (datablocks st) ∧ id_cow n < length (datablocks st))))
  ∧ ∀ n, id_nodes (graph st) !! i = Some n → id_done n ≠ 0%Z →
         flush_handle_id_node i st = Some st.
Proof.
  split; [split|].
  - intros [st' Hrun]. unfold flush_handle_id_node in Hrun.
    destruct (id_nodes (graph st) !! i) as [n|] eqn:Hn; simpl in Hrun; [|done].
    exists n. split; [done|]. case_decide as Hdone; [by left|]. right.
    unfold on_graph, update_id in Hrun. rewrite Hn in Hrun. simpl in Hrun.
    destruct (datablocks st !! id_orig n) as [orig|] eqn:Horig; simpl in Hrun; [|done].
    destruct (datablocks st !! id_cow n) as [cow|] eqn:Hcow; simpl in Hrun; [|done].
    split; by eapply lookup_lt_Some.
  - intros (n & Hn & [Hdone | [Horig Hcow]]).
    + unfold flush_handle_id_node. rewrite Hn. simpl. by rewrite decide_True by done.
    + destruct (decide (id_done n = 0%Z)) as [Hz|Hnz].
      * apply lookup_lt_is_Some in Horig as [orig Horig].
        apply lookup_lt_is_Some in Hcow as [cow Hcow].
        by rewrite (flush_handle_id_node_run i st n orig cow).
      * unfold flush_handle_id_node. rewrite Hn. simpl. by rewrite decide_True by done.
  - intros n Hn Hdone. unfold flush_handle_id_node. rewrite Hn. simpl.
    by rewrite decide_True by done.
Qed.

Lemma flush_loop_invariant (I : FlushState → option nat → Prop) fuel :
  (∀ st a st' a', I st a → flush_round st a = Continue st' a' → I st' a') →
  ∀ st a st', I st a → flush_loop fuel st a = Finished st' → I st' None.
Proof.
  intros Hstep. induction fuel as [|fuel IH]; intros st a st' HI Hrun; simpl in Hrun; [done|].
  destruct (flush_round st a) as [st1 a1| |] eqn:Hround; [| |done].
  - eapply IH; [|exact Hrun]. by eapply Hstep.
  - inversion Hrun; subst; clear Hrun. unfold flush_round in Hround.
    destruct a; [by destruct (flush_visit _ _) as [[? ?]|]|]. done.
Qed.

Lemma flush_visit_inv op st st' next :
  flush_visit op st = Some (st', next) →
  ∃ st1 st2 st3 n c,
    on_graph (update_op op raise_needs_update) (record_event (visited op) st) = Some st1
    ∧ operations (graph st1) !! op = Some n
    ∧ comp_nodes (graph st1) !! op_owner n = Some c
    ∧ flush_handle_id_node (comp_owner c) st1 = Some st2
    ∧ flush_handle_component_node (comp_owner c) (op_owner n) st2 = Some st3
    ∧ flush_schedule_children op st3 = Some (st', next).
Proof.
  unfold flush_visit. intros Hrun.
  change (λ n, set_op_flag (Z.lor (op_flag n) DEPSOP_FLAG_NEEDS_UPDATE) n)
    with raise_needs_update in Hrun.
  destruct (on_graph (update_op op raise_needs_update) (record_event (visited op) st))
    as [st1|] eqn:Hraise; simpl in Hrun; [|done].
  destruct (operations (graph st1) !! op) as [n1|] eqn:Hn1; simpl in Hrun; [|done].
  destruct (comp_nodes (graph st1) !! op_owner n1) as [c1|] eqn:Hc1; simpl in Hrun; [|done].
  destruct (flush_handle_id_node (comp_owner c1) st1) as [st2|] eqn:Hid;
    simpl in Hrun; [|done].
  destruct (flush_handle_component_node (comp_owner c1) (op_owner n1) st2) as [st3|] eqn:Hcomp;
    simpl in Hrun; [|done].
  by exists st1, st2, st3, n1, c1.
Qed.

Lemma flush_handle_component_node_datablocks i p st st' :
  tag_update_contract →
  flush_handle_component_node i p st = Some st' →
  datablocks st' = datablocks st ∧ id_nodes (graph st') = id_nodes (graph st)
  ∧ calls st' = calls st.
Proof.
  intros Hcontract Hrun.
  apply (flush_handle_component_node_inv _ _ _ _ Hcontract) in Hrun
    as (c & Hc & [[_ ->] | (Hdone & g2 & (_ & _ & Hids) & _ & _ & Hpose)]); [done|].
  simpl in Hids. destruct Hpose as [-> | Hpose]; [done|].
  apply flush_reschedule_pose_inv in Hpose
    as (n & pp & pc & _ & _ & _ & [[_ ->] | [_ ->]]); done.
Qed.

Lemma flush_schedule_children_datablocks op st st' next :
  flush_schedule_children op st = Some (st', next) →
  datablocks st' = datablocks st ∧ id_nodes (graph st') = id_nodes (graph st)
  ∧ comp_nodes (graph st') = comp_nodes (graph st) ∧ calls st' = calls st.
Proof.
  unfold flush_schedule_children. intros Hrun. bind_inv Hrun. revert Hrun.
  apply (foreach_invariant
           (λ a : FlushState * option nat,
              datablocks a.1 = datablocks st ∧ id_nodes (graph a.1) = id_nodes (graph st)
              ∧ comp_nodes (graph a.1) = comp_nodes (graph st) ∧ calls a.1 = calls st));
    [|done].
  intros t [u r] [u' r'] _ (Hd & Hi & Hc & Hcalls)
    (n & Hn & [(_ & -> & _) | (_ & Hg & Hd' & Hc' & _)])%flush_schedule_child_inv; [done|].
  simpl in *. rewrite Hg. simpl. by rewrite Hd', Hc'.
Qed.

(** A round of the inner loop changes ID nodes and datablocks by its call
    of the ID node handler only. *)
Lemma flush_visit_datablocks op st st' next :
  tag_update_contract →
  flush_visit op st = Some (st', next) →
  ∃ i st1 st2,
    id_nodes (graph st1) = id_nodes (graph st) ∧ datablocks st1 = datablocks st
    ∧ flush_handle_id_node i st1 = Some st2
    ∧ id_nodes (graph st') = id_nodes (graph st2) ∧ datablocks st' = datablocks st2
    ∧ calls st1 = calls st ∧ calls st' = calls st2.
Proof.
  intros Hcontract (st1 & st2 & st3 & n & c & Hraise & Hn & Hc & Hid & Hcomp & Hch)%flush_visit_inv.
  exists (comp_owner c), st1, st2.
  unfold on_graph in Hraise. bind_inv Hraise. inversion Hraise; subst; clear Hraise.
  match goal with H : update_op _ _ _ = Some _ |- _ =>
    apply update_op_inv in H as (m & Hm & ->) end.
  destruct (flush_handle_component_node_datablocks _ _ _ _ Hcontract Hcomp)
    as (Hd3 & Hi3 & Hc3).
  destruct (flush_schedule_children_datablocks _ _ _ _ Hch) as (Hd4 & Hi4 & _ & Hc4).
  simpl. do 3 (split; [done|]). split; [congruence|]. split; [congruence|].
  split; [done|congruence].
Qed.

Lemma flush_handle_id_node_cases i st st' :
  flush_handle_id_node i st = Some st' →
  ∃ n, id_nodes (graph st) !! i = Some n ∧
    ((id_done n ≠ 0%Z ∧ st' = st) ∨
     (id_done n = 0%Z ∧ ∃ orig cow,
        datablocks st !! id_orig n = Some orig ∧ datablocks st !! id_cow n = Some cow
        ∧ st' = {| graph := set_id_nodes (<[i := set_id_done 1 n]> (id_nodes (graph st)))
                              (graph st);
                   datablocks := id_node_writes n orig cow (datablocks st);
                   queue := queue st;
                   calls := calls st ++ id_handler_calls n;
                   history := history st |})).
Proof.
  intros Hrun. pose proof Hrun as Hrun'. unfold flush_handle_id_node in Hrun'.
  destruct (id_nodes (graph st) !! i) as [n|] eqn:Hn; simpl in Hrun'; [|done].
  exists n. split; [done|]. case_decide as Hdone.
  - left. by inversion Hrun'.
  - right. assert (id_done n = 0%Z) as Hz.
    { destruct (decide (id_done n = 0%Z)); [done | by destruct Hdone]. }
    split; [done|].
    unfold on_graph, update_id in Hrun'. rewrite Hn in Hrun'. simpl in Hrun'.
    destruct (datablocks st !! id_orig n) as [orig|] eqn:Horig; simpl in Hrun'; [|done].
    destruct (datablocks st !! id_cow n) as [cow|] eqn:Hcow; simpl in Hrun'; [|done].
    exists orig, cow. do 2 (split; [done|]).
    rewrite (flush_handle_id_node_run i st n orig cow) in Hrun by done. by inversion Hrun.
Qed.

Lemma tag_kept_refl b : tag_kept b b.
Proof. by intros k. Qed.

Lemma tag_kept_trans b1 b2 b3 : tag_kept b1 b2 → tag_kept b2 b3 → tag_kept b1 b3.
Proof. intros H12 H23 k Hk. by apply H23, H12. Qed.

Lemma tag_kept_merged orig cow : tag_kept cow (merged_tags orig cow).
Proof. intros k Hk. unfold merged_tags. simpl. by rewrite Z.lor_spec, Hk. Qed.

Lemma tag_gained_recalc_refl b : tag_gained_recalc b b.
Proof. intros k Hk. by left. Qed.

Lemma tag_gained_recalc_trans b1 b2 b3 :
  tag_gained_recalc b1 b2 → tag_gained_recalc b2 b3 → tag_gained_recalc b1 b3.
Proof.
  intros H12 H23 k Hk. destruct (H23 k Hk) as [H2|Hm]; [by apply H12 | by right].
Qed.

Lemma tag_gained_recalc_merged orig cow : tag_gained_recalc cow (merged_tags orig cow).
Proof.
  intros k. unfold merged_tags. simpl. rewrite Z.lor_spec, Z.land_spec.
  intros [Hk | [_ Hk]%andb_true_iff]%orb_true_iff; [by left | by right].
Qed.

(** The copy receives the recalculation tags of the original. *)
Lemma recalc_tags_copied_merged orig cow : recalc_tags_copied orig (merged_tags orig cow).
Proof.
  intros k Hk Hmask. unfold merged_tags. simpl. rewrite Z.lor_spec, Z.land_spec, Hk, Hmask.
  by destruct (Z.testbit (id_tag cow) k).
Qed.

Lemma recalc_tags_copied_kept o o' c c' :
  tag_kept o o' → recalc_tags_copied o' c → tag_kept c c' → recalc_tags_copied o c'.
Proof. intros Ho Hc Hc' k Hk Hmask. apply Hc', Hc; [by apply Ho | done]. Qed.

(** Whatever the ID node handler does to a datablock is made of the copying
    of line 125 and of the two recalculation calls: a relation between the
    datablock before and after that holds of each of these writes, and
    composes, holds of the handler. *)
Lemma id_node_writes_related (R : ID → ID → Prop) n orig cow blocks d b :
  (∀ x, R x x) → (∀ x y z, R x y → R y z → R x z) →
  (∀ x y, R y (merged_tags x y)) →
  (∀ x, R x (recalc_tag x)) → (∀ x, R x (recalc_data_tag x)) →
  blocks !! id_orig n = Some orig → blocks !! id_cow n = Some cow →
  blocks !! d = Some b →
  ∃ b', id_node_writes n orig cow blocks !! d = Some b' ∧ R b b'.
Proof.
  intros Hrefl Htrans Hmerge Htag Hdata Horig Hcow Hb.
  rewrite (id_node_writes_lookup n orig cow) by done.
  destruct (decide (d = id_orig n)) as [->|Hno].
  - assert (b = orig) as -> by congruence. eexists. split; [done|].
    case_decide as Heq.
    + rewrite Heq in Horig. assert (orig = cow) as -> by congruence.
      eapply Htrans; [apply (Hmerge cow cow)|]. eapply Htrans; [apply Htag | apply Hdata].
    + eapply Htrans; [apply Htag | apply Hdata].
  - destruct (decide (d = id_cow n)) as [->|Hnc].
    + assert (b = cow) as -> by congruence. eexists. split; [done|]. apply Hmerge.
    + by exists b.
Qed.

Lemma Forall2_step {A : Type} (R S : A → A → Prop) (l0 l l' : list A) :
  (∀ x y z, R x y → S y z → R x z) →
  length l' = length l →
  (∀ d b, l !! d = Some b → ∃ b', l' !! d = Some b' ∧ S b b') →
  Forall2 R l0 l → Forall2 R l0 l'.
Proof.
  intros Htrans Hlen Hstep Hl. apply Forall2_same_length_lookup.
  split; [by rewrite Hlen; eapply Forall2_length|].
  intros d x z Hx Hz. destruct (Forall2_lookup_l _ _ _ _ _ Hl Hx) as (y & Hy & Hxy).
  destruct (Hstep d y Hy) as (z' & Hz' & Hyz). assert (z' = z) as -> by congruence.
  by eapply Htrans.
Qed.

Lemma flush_handle_id_node_datablocks_inv g bmain i st st' :
  (∀ j n, id_nodes (graph st) !! j = Some n →
          ∃ m, id_nodes g !! j = Some m ∧ id_orig n = id_orig m ∧ id_cow n = id_cow m) →
  datablocks_inv g bmain st →
  flush_handle_id_node i st = Some st' → datablocks_inv g bmain st'.
Proof.
  intros Hshape (Hlen & Hframe & Hkeep & Hgain)
    (n & Hn & [[_ ->] | (Hz & orig & cow & Horig & Hcow & ->)])%flush_handle_id_node_cases;
    [done|].
  split; [|split; [|split]]; simpl.
  - by rewrite id_node_writes_length.
  - intros d Hd. rewrite (id_node_writes_lookup n orig cow) by done.
    destruct (Hshape i n Hn) as (m & Hm & Hmo & Hmc).
    destruct (Hd m) as [Hc Ho]; [by eapply list_elem_of_lookup_2|].
    rewrite !decide_False by congruence. by apply Hframe.
  - intros Hcalls. destruct (Hkeep Hcalls) as [Htags Hcopied].
    assert (∀ d b, datablocks st !! d = Some b →
              ∃ b', id_node_writes n orig cow (datablocks st) !! d = Some b' ∧ tag_kept b b')
      as Hgrow.
    { intros d b Hb.
      apply (id_node_writes_related tag_kept n orig cow (datablocks st) d b);
        [apply tag_kept_refl | apply tag_kept_trans | intros x y; apply tag_kept_merged
        | intros x; apply Hcalls | intros x; apply Hcalls | done..]. }
    split.
    + apply (Forall2_step tag_kept tag_kept bmain (datablocks st));
        [apply tag_kept_trans | apply id_node_writes_length | done..].
    + intros j m Hm Hdone. destruct (decide (j = i)) as [->|Hne].
      * rewrite list_lookup_insert_eq in Hm by (by eapply lookup_lt_Some).
        inversion Hm; subst; clear Hm. simpl.
        destruct (Forall2_lookup_r _ _ _ _ _ Htags Horig) as (borig & Hborig & Hle).
        destruct (Hgrow (id_cow n) cow Hcow) as (cow' & Hcow' & Hcc).
        exists borig, cow'. do 2 (split; [done|]).
        rewrite (id_node_writes_lookup n orig cow) in Hcow' by done.
        destruct (decide (id_cow n = id_orig n)) as [Heq|Hneq].
        -- rewrite decide_True in Hcow' by done.
           inversion Hcow'; subst; clear Hcow'.
           eapply recalc_tags_copied_kept;
             [exact Hle | apply (recalc_tags_copied_merged orig cow)|].
           apply (tag_kept_trans _ (recalc_tag (merged_tags orig cow))); apply Hcalls.
        -- rewrite decide_True in Hcow' by done.
           inversion Hcow'; subst; clear Hcow'.
           eapply recalc_tags_copied_kept;
             [exact Hle | apply (recalc_tags_copied_merged orig cow) | apply tag_kept_refl].
      * rewrite list_lookup_insert_ne in Hm by done.
        destruct (Hcopied j m Hm Hdone) as (o & c & Ho & Hc & Hoc).
        destruct (Hgrow (id_cow m) c Hc) as (c' & Hc' & Hcc).
        exists o, c'. do 2 (split; [done|]).
        eapply recalc_tags_copied_kept; [apply tag_kept_refl | exact Hoc | exact Hcc].
  - intros Hcalls.
    apply (Forall2_step tag_gained_recalc tag_gained_recalc bmain (datablocks st));
      [apply tag_gained_recalc_trans | apply id_node_writes_length | | by apply Hgain].
    intros d b Hb.
    apply (id_node_writes_related tag_gained_recalc n orig cow (datablocks st) d b);
      [apply tag_gained_recalc_refl | apply tag_gained_recalc_trans
      | intros x y; apply tag_gained_recalc_merged
      | intros x; apply Hcalls | intros x; apply Hcalls | done..].
Qed.

Lemma flush_round_datablocks_inv g bmain st a st' a' :
  tag_update_contract →
  same_shape g (graph st) → datablocks_inv g bmain st →
  flush_round st a = Continue st' a' → datablocks_inv g bmain st'.
Proof.
  intros Hcontract Hshape Hinv. unfold flush_round. destruct a as [op|].
  - destruct (flush_visit op st) as [[st1 next]|] eqn:Hvisit; [|done].
    intros [= <- <-].
    destruct (flush_visit_datablocks _ _ _ _ Hcontract Hvisit)
      as (i & u1 & u2 & Hi1 & Hd1 & Hid & Hi2 & Hd2 & _).
    assert (datablocks_inv g bmain u2) as Hinv2.
    { apply (flush_handle_id_node_datablocks_inv g bmain i u1); [| |done].
      - intros j n Hn. rewrite Hi1 in Hn.
        destruct (same_shape_id _ _ _ _ Hshape Hn) as (m & Hm & Hmo & Hmc). by exists m.
      - unfold datablocks_inv. by rewrite Hi1, Hd1. }
    unfold datablocks_inv. by rewrite Hi2, Hd2.
  - destruct (queue st) as [|front rest]; [done|]. by intros [= <- <-].
Qed.

Lemma flush_loop_datablocks_inv g bmain fuel st a st' :
  tag_update_contract →
  same_shape g (graph st) → datablocks_inv g bmain st →
  flush_loop fuel st a = Finished st' → datablocks_inv g bmain st'.
Proof.
  intros Hcontract Hshape Hinv Hrun.
  apply (flush_loop_invariant
           (λ t _, same_shape g (graph t) ∧ datablocks_inv g bmain t) fuel) in Hrun;
    [by destruct Hrun | | done].
  intros t b t' b' [Hs Hd] Hround. split; [|by eapply flush_round_datablocks_inv].
  eapply same_shape_trans; [exact Hs|]. apply graph_le_shape.
  by destruct (flush_round_effect _ _ _ _ Hcontract Hround) as ([Hg _ _ _ _ _] & _).
Qed.

(** A flush that went through its loop keeps [datablocks_inv]. *)
Lemma flush_datablocks_run bmain g st' :
  tag_update_contract →
  deg_graph_flush_updates bmain g = Finished st' →
  (entry_tags g = [] ∧ st' = flush_start bmain g) ∨ datablocks_inv g bmain st'.
Proof.
  intros Hcontract Hrun.
  apply flush_with_inv in Hrun as [? | (g1 & st1 & Hprep & Hentry & Hloop)]; [by left|].
  right. pose proof (flush_prepare_effect _ _ Hprep) as Hreset.
  pose proof (flush_schedule_entrypoints_effect _ _ Hentry) as Hes.
  apply (flush_loop_datablocks_inv g bmain _ _ _ _ Hcontract) in Hloop; [done|..].
  - apply (flush_run_shape g g1 st1 st1 bmain); [done..|apply flush_le_refl].
  - unfold datablocks_inv.
    rewrite (flush_schedule_entrypoints_datablocks _ _ Hentry). simpl.
    split; [done|]. split; [done|]. split.
    + intros _. split; [apply Forall2_refl_on, tag_kept_refl|].
      intros i n Hn Hdone. rewrite (es_ids _ _ Hes) in Hn. simpl in Hn.
      rewrite (ro_ids _ _ Hreset), list_lookup_fmap in Hn.
      destruct (id_nodes g !! i); simpl in Hn; [|done]. inversion Hn; subst. done.
    + intros _. apply Forall2_refl_on, tag_gained_recalc_refl.
Qed.

(** X7.  A flush keeps the datablocks as many and writes only those that
    are the copy-on-write datablock or the original datablock of an ID node:
    any other is left as it was. When the two recalculation calls clear no
    tag bit, the flush clears no tag bit of any datablock; when the bits the
    two calls set are recalculation tags, so are the bits the flush sets. *)
Theorem flush_datablock_tags_grow (bmain : list ID) (g : Depsgraph) (st' : FlushState) :
  tag_update_contract →
  deg_graph_flush_updates bmain g = Finished st' →
  length (datablocks st') = length bmain
  ∧ (∀ d, (∀ n, n ∈ id_nodes g → id_cow n ≠ d ∧ id_orig n ≠ d) →
          datablocks st' !! d = bmain !! d)
  ∧ (recalc_calls_keep_tags →
     ∀ d blk, bmain !! d = Some blk →
       ∃ blk', datablocks st' !! d = Some blk'
         ∧ ∀ k, Z.testbit (id_tag blk) k = true → Z.testbit (id_tag blk') k = true)
  ∧ (recalc_calls_set_recalc_tags →
     ∀ d blk, bmain !! d = Some blk →
       ∃ blk', datablocks st' !! d = Some blk'
         ∧ ∀ k, Z.testbit (id_tag blk') k = true →
                Z.testbit (id_tag blk) k = true
                ∨ Z.testbit LIB_TAG_ID_RECALC_ALL k = true).
Proof.
  intros Hcontract Hrun.
  destruct (flush_datablocks_run _ _ _ Hcontract Hrun)
    as [[_ ->] | (Hlen & Hframe & Hkeep & Hgain)].
  - split; [done|]. split; [done|]. split; intros _ d blk Hblk; exists blk; simpl; auto.
  - split; [done|]. split; [done|]. split; intros Hcalls d blk Hblk.
    + destruct (Hkeep Hcalls) as [Htags _].
      destruct (Forall2_lookup_l _ _ _ _ _ Htags Hblk) as (blk' & Hblk' & Hup). by exists blk'.
    + destruct (Forall2_lookup_l _ _ _ _ _ (Hgain Hcalls) Hblk) as (blk' & Hblk' & Hup).
      by exists blk'.
Qed.

(** X8.  After a flush, the copy-on-write datablock of the ID node of every
    operation the flush visited carries the recalculation tags that the
    original datablock of that ID node had when the flush began; this when
    the two recalculation calls, which write the original datablocks, clear
    no tag bit. *)
Theorem flush_copies_recalc_tags (bmain : list ID) (g : Depsgraph) (st' : FlushState)
    (op : nat) (n : OperationDepsNode) (c : ComponentDepsNode) (i : IDDepsNode) :
  tag_update_contract →
  recalc_calls_keep_tags →
  deg_graph_flush_updates bmain g = Finished st' →
  visited op ∈ history st' →
  operations g !! op = Some n →
  comp_nodes g !! op_owner n = Some c →
  id_nodes g !! comp_owner c = Some i →
  ∃ orig cow, bmain !! id_orig i = Some orig ∧ datablocks st' !! id_cow i = Some cow
    ∧ ∀ k, Z.testbit (id_tag orig) k = true → Z.testbit LIB_TAG_ID_RECALC_ALL k = true →
           Z.testbit (id_tag cow) k = true.
Proof.
  intros Hcontract Hcalls Hrun Hvisit Hn Hc Hi.
  destruct (flush_datablocks_run _ _ _ Hcontract Hrun) as [[_ ->] | (_ & _ & Hkeep & _)].
  { by apply elem_of_nil in Hvisit. }
  destruct (Hkeep Hcalls) as [_ Hcopied].
  apply (flush_with_run _ _ _ _ Hcontract) in Hrun
    as [[Hempty ->] | (g1 & st1 & Hreset & Hentry & Hle & _ & _ & Hhandled & _)].
  { by apply elem_of_nil in Hvisit. }
  pose proof (flush_run_shape _ _ _ _ _ Hreset Hentry Hle) as Hshape.
  destruct (Hhandled op) as (n' & c' & i' & Hn' & Hc' & Hi' & Hdone).
  { by apply visits_elem_of. }
  destruct (same_shape_op _ _ _ _ Hshape Hn') as (n0 & Hn0 & _ & Hown).
  assert (n0 = n) as -> by congruence. rewrite Hown in Hc'.
  destruct (same_shape_comp _ _ _ _ Hshape Hc') as (c0 & Hc0 & Hcown).
  assert (c0 = c) as -> by congruence. rewrite Hcown in Hi'.
  destruct (same_shape_id _ _ _ _ Hshape Hi') as (i0 & Hi0 & Horig & Hcow).
  assert (i0 = i) as -> by congruence.
  destruct (Hcopied _ _ Hi' Hdone) as (orig & cow & Ho & Hcw & Htags).
  exists orig, cow. rewrite <- Horig, <- Hcow. done.
Qed.

(** ** When the component handler comes to its end *)

Lemma flags_only_lengths g g' :
  flags_only g g' → length (operations g') = length (operations g).
Proof. intros (Hops & _). symmetry. by eapply Forall2_length. Qed.

Lemma tag_component_operations_in_range ops :
  ∀ g g', tag_component_operations ops g = Some g' →
          Forall (λ o, o < length (operations g)) ops.
Proof.
  induction ops as [|x ops IH]; intros g g' Hrun; [constructor|].
  unfold tag_component_operations in Hrun. simpl in Hrun.
  match type of Hrun with (?m ≫= _) = _ => destruct m as [gx|] eqn:Hbody end;
    simpl in Hrun; [|done].
  assert (x < length (operations g) ∧ length (operations gx) = length (operations g))
    as [Hx Hlen].
  { destruct (operations g !! x) as [nx|] eqn:Hnx; simpl in Hbody; [|done].
    split; [by eapply lookup_lt_Some|]. case_decide; [by inversion Hbody|].
    apply update_op_inv in Hbody as (? & _ & ->). simpl. by rewrite length_insert. }
  constructor; [done|]. rewrite <- Hlen. by apply (IH gx g').
Qed.

Lemma flush_handle_component_node_needs i p st st' c :
  tag_update_contract →
  flush_handle_component_node i p st = Some st' →
  comp_nodes (graph st) !! p = Some c → comp_done c ≠ COMPONENT_STATE_DONE →
  comp_handler_ok (graph st) i c.
Proof.
  intros Hcontract Hrun Hc Hdone. unfold flush_handle_component_node in Hrun.
  rewrite Hc in Hrun. simpl in Hrun. rewrite decide_False in Hrun by done.
  unfold on_graph, update_comp in Hrun. simpl in Hrun. rewrite Hc in Hrun. simpl in Hrun.
  set (g0 := set_comp_nodes _ (graph st)) in *.
  match type of Hrun with (?m ≫= _) = _ => destruct m as [st0|] eqn:Hcow end;
    simpl in Hrun; [|done].
  assert (∃ g1, st0 = set_graph g1 st ∧ flags_only g0 g1) as (g1 & -> & Hg1).
  { destruct (use_copy_on_write && comp_depends_on_cow c).
    - do 3 bind_inv Hcow. inversion Hcow; subst; clear Hcow.
      eexists. split; [done|]. apply Hcontract.
    - inversion Hcow; subst; clear Hcow. exists g0. split; [done|]. apply flags_only_refl. }
  assert (comp_nodes g1 !! p = Some (set_comp_done COMPONENT_STATE_DONE c)) as Hc1.
  { destruct Hg1 as (_ & -> & _). unfold g0. simpl.
    apply list_lookup_insert_eq. by eapply lookup_lt_Some. }
  simpl in Hrun. rewrite Hc1 in Hrun. simpl in Hrun.
  destruct (tag_component_operations (comp_operations c) g1) as [g2|] eqn:Htag;
    simpl in Hrun; [|done].
  pose proof (tag_component_operations_in_range _ _ _ Htag) as Hrange.
  apply tag_component_operations_flags_only in Htag as [(_ & Hc2 & Hi2) _].
  rewrite Hc2, Hc1 in Hrun. simpl in Hrun.
  split; [|split].
  - intros Hmode. rewrite Hmode in Hcow. simpl in Hcow.
    destruct (id_nodes (graph st) !! i) as [n|] eqn:Hn; simpl in Hcow; [|done].
    destruct (find_component n DEG_NODE_TYPE_COPY_ON_WRITE) as [cc|] eqn:Hfind;
      simpl in Hcow; [|done].
    destruct (<[p:=set_comp_done COMPONENT_STATE_DONE c]> (comp_nodes (graph st)) !! cc)
      as [x|] eqn:Hcc; simpl in Hcow; [|done].
    exists n, cc. do 2 (split; [done|]).
    apply lookup_lt_Some in Hcc. by rewrite length_insert in Hcc.
  - rewrite (flags_only_lengths _ _ Hg1) in Hrange. done.
  - intros Htype. rewrite decide_True in Hrun by done.
    apply flush_reschedule_pose_inv in Hrun as (n & pp & pc & Hn & Hfind & Hpc & _).
    simpl in Hn, Hpc. rewrite Hi2 in Hn. rewrite Hc2 in Hpc.
    destruct Hg1 as (_ & Hc1' & Hi1'). rewrite Hi1' in Hn. rewrite Hc1' in Hpc.
    exists n, pp. do 2 (split; [done|]).
    apply lookup_lt_Some in Hpc. unfold g0 in Hpc. simpl in Hpc.
    by rewrite length_insert in Hpc.
Qed.

Lemma flush_handle_component_node_runs i p st c :
  tag_update_contract →
  comp_nodes (graph st) !! p = Some c → comp_handler_ok (graph st) i c →
  is_Some (flush_handle_component_node i p st).
Proof.
  intros Hcontract Hc (Hcow & Hops & Hbone). unfold flush_handle_component_node.
  rewrite Hc. simpl. case_decide as Hdone; [by eexists|].
  unfold on_graph, update_comp. simpl. rewrite Hc. simpl.
  set (g0 := set_comp_nodes _ (graph st)).
  match goal with |- is_Some (?m ≫= _) =>
    assert (∃ g1, m = Some (set_graph g1 st) ∧ flags_only g0 g1) as (g1 & -> & Hg1) end.
  { destruct (use_copy_on_write && comp_depends_on_cow c) eqn:Hmode.
    - destruct (Hcow eq_refl) as (n & cc & Hn & Hfind & Hcc). simpl. rewrite Hn. simpl.
      rewrite Hfind. simpl.
      destruct (lookup_lt_is_Some_2 (<[p:=set_comp_done COMPONENT_STATE_DONE c]>
                                       (comp_nodes (graph st))) cc) as [? ->].
      { by rewrite length_insert. }
      simpl. eexists. split; [reflexivity|]. apply Hcontract.
    - exists g0. split; [done|]. apply flags_only_refl. }
  simpl.
  assert (comp_nodes g1 !! p = Some (set_comp_done COMPONENT_STATE_DONE c)) as Hc1.
  { destruct Hg1 as (_ & -> & _). unfold g0. simpl.
    apply list_lookup_insert_eq. by eapply lookup_lt_Some. }
  rewrite Hc1. simpl.
  destruct (tag_component_operations_lookup (comp_operations c) g1)
    as (g2 & Htag & Hc2 & Hi2 & _ & _).
  { eapply Forall_impl; [exact Hops|]. intros o Ho. apply lookup_lt_is_Some.
    simpl in Ho. rewrite (flags_only_lengths _ _ Hg1). done. }
  rewrite Htag. simpl. rewrite Hc2, Hc1. simpl.
  case_decide as Htype; [|by eexists].
  destruct (Hbone Htype) as (n & pp & Hn & Hfind & Hpp).
  unfold flush_reschedule_pose. simpl. rewrite Hi2.
  destruct Hg1 as (_ & Hc1' & Hi1'). rewrite Hi1'. simpl. rewrite Hn. simpl.
  rewrite Hfind. simpl. rewrite Hc2.
  destruct (lookup_lt_is_Some_2 (comp_nodes g1) pp) as [pc Hpc].
  { rewrite Hc1'. unfold g0. simpl. by rewrite length_insert. }
  rewrite Hpc. simpl. case_decide; [|by eexists].
  unfold on_graph, update_comp. simpl. rewrite Hc2, Hpc. simpl. by eexists.
Qed.

(** X9.  The component handler comes to its end exactly when its component
    pointer has a target and either that component is done already, in which
    case the state is returned as it is, or everything the handler reads
    through has a target: in particular a bone component whose ID node has no
    pose component, and in copy-on-write mode a component depending on
    copy-on-write whose ID node has no copy-on-write component, make it fail. *)
Theorem flush_handle_component_node_succeeds_iff (i p : nat) (st : FlushState) :
  tag_update_contract →
  (is_Some (flush_handle_component_node i p st)
   ↔ ∃ c, comp_nodes (graph st) !! p = Some c
        ∧ (comp_done c = COMPONENT_STATE_DONE ∨ comp_handler_ok (graph st) i c))
  ∧ ∀ c, comp_nodes (graph st) !! p = Some c → comp_done c = COMPONENT_STATE_DONE →
         flush_handle_component_node i p st = Some st.
Proof.
  intros Hcontract.
  assert (∀ c, comp_nodes (graph st) !! p = Some c → comp_done c = COMPONENT_STATE_DONE →
               flush_handle_component_node i p st = Some st) as Hskip.
  { intros c Hc Hdone. unfold flush_handle_component_node. rewrite Hc. simpl.
    by rewrite decide_True by done. }
  split; [split|done].
  - intros [st' Hrun].
    destruct (comp_nodes (graph st) !! p) as [c|] eqn:Hc.
    + exists c. split; [done|].
      destruct (decide (comp_done c = COMPONENT_STATE_DONE)) as [?|Hdone]; [by left|].
      right. by eapply flush_handle_component_node_needs.
    + unfold flush_handle_component_node in Hrun. by rewrite Hc in Hrun.
  - intros (c & Hc & [Hdone | Hok]).
    + rewrite (Hskip c Hc Hdone). by eexists.
    + by eapply flush_handle_component_node_runs.
Qed.

(** ** Scheduling the children, in full *)

Lemma fresh_links_elem_of links :
  ∀ sched t, t ∈ fresh_links sched links ↔ t ∈ links ∧ sched !! t = Some false.
Proof.
  induction links as [|x links IH]; intros sched t; simpl.
  - rewrite !elem_of_nil. split; [done | by intros [? _]].
  - case_decide as Hx.
    + rewrite !elem_of_cons, IH. destruct (decide (t = x)) as [->|Hne].
      * split; [intros _; split; [by left|done] | intros _; by left].
      * rewrite list_lookup_insert_ne by done.
        split; [intros [?|[? ?]]; [done|split; [by right|done]]
               | intros [[?|?] ?]; [done|right; by split]].
    + rewrite elem_of_cons, IH.
      split; [intros [? ?]; split; [by right|done] | intros [[-> | ?] ?]; [done | by split]].
Qed.

Lemma fresh_links_NoDup links : ∀ sched, NoDup (fresh_links sched links).
Proof.
  induction links as [|x links IH]; intros sched; simpl; [constructor|].
  case_decide as Hx; [|apply IH]. constructor; [|apply IH].
  rewrite fresh_links_elem_of. intros [_ Hfalse].
  rewrite list_lookup_insert_eq in Hfalse by (by eapply lookup_lt_Some). done.
Qed.

Lemma fresh_links_head links sched :
  head (fresh_links sched links) = head (filter (λ t, sched !! t = Some false) links).
Proof.
  induction links as [|x links IH]; simpl; [done|]. case_decide as Hx.
  - by rewrite filter_cons_True by done.
  - by rewrite filter_cons_False by done.
Qed.

Lemma foreach_cons {A S : Type} (body : A → S → option S) (x : A) (l : list A) (s : S) :
  foreach body (x :: l) s = body x s ≫= foreach body l.
Proof. done. Qed.

Lemma fresh_links_cons sched t links :
  fresh_links sched (t :: links)
  = if decide (sched !! t = Some false)
    then t :: fresh_links (<[t := true]> sched) links
    else fresh_links sched links.
Proof. done. Qed.

Lemma flush_schedule_child_eq t st r mt :
  operations (graph st) !! t = Some mt →
  flush_schedule_child t (st, r)
  = if op_scheduled mt then Some (st, r) else
    let g1 := set_operations (<[t := set_op_scheduled true mt]> (operations (graph st)))
                (graph st) in
    Some match r with
         | Some x => (set_graph g1 (record_event (child_push_front t)
                                      (set_queue (Some t :: queue st) st)), Some x)
         | None => (set_graph g1 (record_event (child_returned t) st), Some t)
         end.
Proof.
  intros Hmt. unfold flush_schedule_child. rewrite Hmt. simpl.
  destruct (op_scheduled mt); [done|].
  destruct r; unfold on_graph, update_op; simpl; rewrite Hmt; done.
Qed.

Lemma flush_schedule_child_loop links :
  ∀ st r,
    Forall (λ t, t < length (operations (graph st))) links →
    ∃ st',
      foreach flush_schedule_child links (st, r)
      = Some (st', match r with
                   | Some _ => r
                   | None => head (fresh_links (sched_flags (graph st)) links)
                   end)
      ∧ queue st'
        = reverse (Some <$> match r with
                            | Some _ => fresh_links (sched_flags (graph st)) links
                            | None => tail (fresh_links (sched_flags (graph st)) links)
                            end) ++ queue st
      ∧ length (operations (graph st')) = length (operations (graph st))
      ∧ (∀ p m, operations (graph st) !! p = Some m →
           operations (graph st') !! p
           = Some (if decide (p ∈ fresh_links (sched_flags (graph st)) links)
                   then set_op_scheduled true m else m))
      ∧ comp_nodes (graph st') = comp_nodes (graph st)
      ∧ id_nodes (graph st') = id_nodes (graph st)
      ∧ entry_tags (graph st') = entry_tags (graph st)
      ∧ datablocks st' = datablocks st ∧ calls st' = calls st.
Proof.
  induction links as [|t links IH]; intros st r Hvalid.
  - exists st. simpl. destruct r; simpl; repeat split; try done.
    all: intros p m Hm; rewrite Hm; by rewrite decide_False by apply not_elem_of_nil.
  - apply Forall_cons in Hvalid as [Ht Hrest].
    destruct (lookup_lt_is_Some_2 _ _ Ht) as [mt Hmt].
    assert (sched_flags (graph st) !! t = Some (op_scheduled mt)) as Hst.
    { unfold sched_flags. by rewrite list_lookup_fmap, Hmt. }
    rewrite foreach_cons, fresh_links_cons, (flush_schedule_child_eq t st r mt Hmt).
    destruct (op_scheduled mt) eqn:Hs.
    + simpl. rewrite decide_False by (rewrite Hst; done). apply IH. done.
    + rewrite decide_True by done.
      set (g1 := set_operations (<[t := set_op_scheduled true mt]> (operations (graph st)))
                   (graph st)).
      assert (sched_flags g1 = <[t := true]> (sched_flags (graph st))) as Hsched.
      { unfold sched_flags, g1. simpl. by rewrite list_fmap_insert. }
      assert (∀ p m, operations (graph st) !! p = Some m →
                ∀ fresh, t ∉ fresh →
                  (if decide (p ∈ t :: fresh) then set_op_scheduled true m else m)
                  = (if decide (p ∈ fresh)
                     then set_op_scheduled true (if decide (p = t)
                                                 then set_op_scheduled true m else m)
                     else (if decide (p = t) then set_op_scheduled true m else m)))
        as Hmerge.
      { intros p m Hm fresh Hfresh. destruct (decide (p = t)) as [->|Hne].
        - rewrite decide_True by (by left). by rewrite decide_False by done.
        - destruct (decide (p ∈ fresh)) as [Hin|Hout].
          + by rewrite decide_True by (by right).
          + rewrite decide_False; [done|]. by intros [?|?]%elem_of_cons. }
      assert (t ∉ fresh_links (<[t := true]> (sched_flags (graph st))) links) as Hnew.
      { rewrite fresh_links_elem_of. intros [_ Hfalse].
        rewrite list_lookup_insert_eq in Hfalse by (by eapply lookup_lt_Some). done. }
      fold g1. destruct r as [x|]; simpl.
      * match goal with |- ∃ st', foreach _ _ (?s, _) = _ ∧ _ =>
          destruct (IH s (Some x)) as (st' & Hrun & Hq & Hlen & Hops & Hc & Hi & He & Hd & Hcl)
        end.
        { simpl. rewrite length_insert. done. }
        simpl in *. rewrite Hsched in *. exists st'. split; [done|].
        split; [rewrite Hq, reverse_cons, <- app_assoc; done|].
        split; [by rewrite Hlen, length_insert|]. split; [|done].
        intros p m Hm. rewrite (Hmerge p m Hm _ Hnew). apply Hops.
        destruct (decide (p = t)) as [->|Hne].
        -- rewrite list_lookup_insert_eq by (by eapply lookup_lt_Some). congruence.
        -- by rewrite list_lookup_insert_ne.
      * match goal with |- ∃ st', foreach _ _ (?s, _) = _ ∧ _ =>
          destruct (IH s (Some t)) as (st' & Hrun & Hq & Hlen & Hops & Hc & Hi & He & Hd & Hcl)
        end.
        { simpl. rewrite length_insert. done. }
        simpl in *. rewrite Hsched in *. exists st'. split; [done|].
        split; [done|]. split; [by rewrite Hlen, length_insert|]. split; [|done].
        intros p m Hm. rewrite (Hmerge p m Hm _ Hnew). apply Hops.
        destruct (decide (p = t)) as [->|Hne].
        -- rewrite list_lookup_insert_eq by (by eapply lookup_lt_Some). congruence.
        -- by rewrite list_lookup_insert_ne.
Qed.

(** X10.  The scheduling of the children of an operation whose links all have
    targets. Of the targets found unscheduled, each counted once, the first is
    returned as the next operation and the others are pushed onto the front of
    the queue one by one, so that the last one found is at the front; exactly
    these targets become scheduled, and nothing else changes. The operation
    returned is the first link target that was unscheduled before the call,
    and none is returned when all targets were scheduled. *)
Theorem flush_schedule_children_exact (op : nat) (st : FlushState) (n : OperationDepsNode) :
  operations (graph st) !! op = Some n →
  Forall (λ t, t < length (operations (graph st))) (op_outlinks n) →
  ∃ st' fresh,
    fresh = fresh_links (sched_flags (graph st)) (op_outlinks n)
    ∧ NoDup fresh
    ∧ (∀ t, t ∈ fresh ↔ t ∈ op_outlinks n ∧ sched_flags (graph st) !! t = Some false)
    ∧ head fresh
      = head (filter (λ t, sched_flags (graph st) !! t = Some false) (op_outlinks n))
    ∧ flush_schedule_children op st = Some (st', head fresh)
    ∧ queue st' = reverse (Some <$> tail fresh) ++ queue st
    ∧ length (operations (graph st')) = length (operations (graph st))
    ∧ (∀ p m, operations (graph st) !! p = Some m →
         operations (graph st') !! p
         = Some (if decide (p ∈ fresh) then set_op_scheduled true m else m))
    ∧ comp_nodes (graph st') = comp_nodes (graph st)
    ∧ id_nodes (graph st') = id_nodes (graph st)
    ∧ entry_tags (graph st') = entry_tags (graph st)
    ∧ datablocks st' = datablocks st ∧ calls st' = calls st.
Proof.
  intros Hn Hvalid.
  destruct (flush_schedule_child_loop (op_outlinks n) st None Hvalid)
    as (st' & Hrun & Hrest).
  exists st', (fresh_links (sched_flags (graph st)) (op_outlinks n)).
  split; [done|]. split; [apply fresh_links_NoDup|].
  split; [intros t; apply fresh_links_elem_of|]. split; [apply fresh_links_head|].
  split; [|exact Hrest]. unfold flush_schedule_children. rewrite Hn. done.
Qed.

(** ** The component handler, step by step *)

(** The component handler on a component that is not done: the graph [g1]
    after the tagging call, the graph [g2] after the tagging loop, and the
    bone rule, which runs on bone components only. *)
Lemma flush_handle_component_node_steps i p st st' c :
  tag_update_contract →
  flush_handle_component_node i p st = Some st' →
  comp_nodes (graph st) !! p = Some c → comp_done c ≠ COMPONENT_STATE_DONE →
  ∃ g1 g2,
    flags_only (set_comp_nodes (<[p := set_comp_done COMPONENT_STATE_DONE c]>
                                  (comp_nodes (graph st))) (graph st)) g1
    ∧ (tagging_keeps_flags → operations g1 = operations (graph st))
    ∧ tag_component_operations (comp_operations c) g1 = Some g2
    ∧ ((comp_type c ≠ DEG_NODE_TYPE_BONE ∧ st' = set_graph g2 st)
       ∨ (comp_type c = DEG_NODE_TYPE_BONE
          ∧ flush_reschedule_pose i (set_graph g2 st) = Some st')).
Proof.
  intros Hcontract Hrun Hc Hdone. unfold flush_handle_component_node in Hrun.
  rewrite Hc in Hrun. simpl in Hrun. rewrite decide_False in Hrun by done.
  unfold on_graph, update_comp in Hrun. simpl in Hrun. rewrite Hc in Hrun. simpl in Hrun.
  set (g0 := set_comp_nodes _ (graph st)) in *.
  match type of Hrun with (?m ≫= _) = _ => destruct m as [st0|] eqn:Hcow end;
    simpl in Hrun; [|done].
  assert (∃ g1, st0 = set_graph g1 st ∧ flags_only g0 g1
              ∧ (tagging_keeps_flags → operations g1 = operations (graph st)))
    as (g1 & -> & Hg1 & Ho1).
  { destruct (use_copy_on_write && comp_depends_on_cow c) eqn:Hmode.
    - do 3 bind_inv Hcow. inversion Hcow; subst; clear Hcow.
      eexists (tag_update _ g0). split; [done|]. split; [apply Hcontract|].
      intros [Hoff | Hkeep]; [|by rewrite Hkeep]. rewrite Hoff in Hmode. done.
    - inversion Hcow; subst; clear Hcow.
      exists g0. split; [done|]. split; [apply flags_only_refl|done]. }
  clear Hcow.
  assert (comp_nodes g1 !! p = Some (set_comp_done COMPONENT_STATE_DONE c)) as Hc1.
  { destruct Hg1 as (_ & -> & _). unfold g0. simpl.
    apply list_lookup_insert_eq. by eapply lookup_lt_Some. }
  simpl in Hrun. rewrite Hc1 in Hrun. simpl in Hrun.
  destruct (tag_component_operations (comp_operations c) g1) as [g2|] eqn:Htag;
    simpl in Hrun; [|done].
  exists g1, g2. do 3 (split; [done|]).
  apply tag_component_operations_flags_only in Htag as [(_ & Hc2 & _) _].
  rewrite Hc2, Hc1 in Hrun. simpl in Hrun.
  case_decide as Htype; [by right|]. left. split; [done|]. by inversion Hrun.
Qed.

(** ** A flush changes the marks only *)

Lemma same_shape_lookups g g' :
  same_shape g g' →
  length (operations g') = length (operations g)
  ∧ length (comp_nodes g') = length (comp_nodes g)
  ∧ length (id_nodes g') = length (id_nodes g)
  ∧ (∀ p n', operations g' !! p = Some n' →
       ∃ n, operations g !! p = Some n
          ∧ op_opcode n' = op_opcode n ∧ op_outlinks n' = op_outlinks n
          ∧ op_owner n' = op_owner n)
  ∧ (∀ p c', comp_nodes g' !! p = Some c' →
       ∃ c, comp_nodes g !! p = Some c ∧ set_comp_done (comp_done c) c' = c)
  ∧ (∀ p i', id_nodes g' !! p = Some i' →
       ∃ i, id_nodes g !! p = Some i ∧ set_id_done (id_done i) i' = i).
Proof.
  intros (Hops & Hcomps & Hids).
  split; [symmetry; by eapply Forall2_length|].
  split; [symmetry; by eapply Forall2_length|].
  split; [symmetry; by eapply Forall2_length|]. split; [|split].
  - intros p n' Hn'. destruct (Forall2_lookup_r _ _ _ _ _ Hops Hn') as (n & Hn & ?).
    by exists n.
  - intros p c' Hc'. destruct (Forall2_lookup_r _ _ _ _ _ Hcomps Hc') as (c & Hc & Heq).
    exists c. split; [done|]. destruct c, c'. unfold set_comp_done in *. simpl in *.
    by inversion Heq.
  - intros p i' Hi'. destruct (Forall2_lookup_r _ _ _ _ _ Hids Hi') as (i & Hi & Heq).
    exists i. split; [done|]. destruct i, i'. unfold set_id_done in *. simpl in *.
    by inversion Heq.
Qed.

(** X11.  A flush leaves the graph in its shape: as many operations,
    components and ID nodes as before, every operation with its opcode, links
    and owner, every component with everything but its [done] state, every ID
    node with everything but its [done] mark. *)
Theorem flush_keeps_shape (bmain : list ID) (g : Depsgraph) (st' : FlushState) :
  tag_update_contract →
  deg_graph_flush_updates bmain g = Finished st' →
  length (operations (graph st')) = length (operations g)
  ∧ length (comp_nodes (graph st')) = length (comp_nodes g)
  ∧ length (id_nodes (graph st')) = length (id_nodes g)
  ∧ (∀ p n', operations (graph st') !! p = Some n' →
       ∃ n, operations g !! p = Some n
          ∧ op_opcode n' = op_opcode n ∧ op_outlinks n' = op_outlinks n
          ∧ op_owner n' = op_owner n)
  ∧ (∀ p c', comp_nodes (graph st') !! p = Some c' →
       ∃ c, comp_nodes g !! p = Some c ∧ set_comp_done (comp_done c) c' = c)
  ∧ (∀ p i', id_nodes (graph st') !! p = Some i' →
       ∃ i, id_nodes g !! p = Some i ∧ set_id_done (id_done i) i' = i).
Proof.
  intros Hcontract Hrun. apply same_shape_lookups.
  apply (flush_with_run _ _ _ _ Hcontract) in Hrun
    as [[Hempty ->] | (g1 & st1 & Hreset & Hentry & Hle & _)].
  - apply same_shape_refl.
  - by eapply flush_run_shape.
Qed.

(** ** The only flag a flush sets *)

Lemma flag_raised_refl f : flag_raised f f.
Proof. by left. Qed.

Lemma flag_raised_trans f1 f2 f3 : flag_raised f1 f2 → flag_raised f2 f3 → flag_raised f1 f3.
Proof.
  intros [-> | ->] [-> | ->]; unfold flag_raised; auto.
  right. by rewrite <- Z.lor_assoc, Z.lor_diag.
Qed.

Lemma raised_only_refl g : raised_only g g.
Proof. apply Forall2_refl_on, flag_raised_refl. Qed.

Lemma raised_only_trans g1 g2 g3 : raised_only g1 g2 → raised_only g2 g3 → raised_only g1 g3.
Proof. apply Forall2_trans_on, flag_raised_trans. Qed.

Lemma raised_only_flags g g' :
  op_flag <$> operations g' = op_flag <$> operations g → raised_only g g'.
Proof. unfold raised_only. intros ->. apply Forall2_refl_on, flag_raised_refl. Qed.

Lemma raise_raised_only p g g' :
  update_op p raise_needs_update g = Some g' → raised_only g g'.
Proof.
  intros (n & Hn & ->)%update_op_inv. unfold raised_only. simpl.
  rewrite list_fmap_insert. apply (Forall2_insert_same _ _ _ (op_flag n)).
  - apply flag_raised_refl.
  - by rewrite list_lookup_fmap, Hn.
  - by right.
Qed.

Lemma tag_component_operations_raised ops g g' :
  tag_component_operations ops g = Some g' → raised_only g g'.
Proof.
  unfold tag_component_operations.
  apply (foreach_invariant (λ t, raised_only g t)); [|apply raised_only_refl].
  intros x t t' _ Ht Hbody.
  destruct (operations t !! x) as [nx|] eqn:Hnx; simpl in Hbody; [|done].
  case_decide; [by inversion Hbody; subst|].
  eapply raised_only_trans; [exact Ht|]. by eapply raise_raised_only.
Qed.

Lemma flush_handle_component_node_raised i p st st' :
  tag_update_contract → tagging_keeps_flags →
  flush_handle_component_node i p st = Some st' → raised_only (graph st) (graph st').
Proof.
  intros Hcontract Hkeep Hrun.
  destruct (comp_nodes (graph st) !! p) as [c|] eqn:Hc;
    [|unfold flush_handle_component_node in Hrun; by rewrite Hc in Hrun].
  destruct (decide (comp_done c = COMPONENT_STATE_DONE)) as [Hdone|Hdone].
  { unfold flush_handle_component_node in Hrun. rewrite Hc in Hrun. simpl in Hrun.
    rewrite decide_True in Hrun by done. inversion Hrun. apply raised_only_refl. }
  destruct (flush_handle_component_node_steps _ _ _ _ _ Hcontract Hrun Hc Hdone)
    as (g1 & g2 & _ & Ho1 & Htag & Hpose).
  assert (raised_only (graph st) g2) as H2.
  { eapply raised_only_trans; [|by eapply tag_component_operations_raised].
    apply raised_only_flags. by rewrite (Ho1 Hkeep). }
  destruct Hpose as [[_ ->] | [_ Hpose]]; [done|].
  apply flush_reschedule_pose_inv in Hpose
    as (n & pp & pc & _ & _ & _ & [[_ ->] | [_ ->]]); done.
Qed.

Lemma flush_round_raised st a st' a' :
  tag_update_contract → tagging_keeps_flags →
  flush_round st a = Continue st' a' → raised_only (graph st) (graph st').
Proof.
  intros Hcontract Hkeep. unfold flush_round. destruct a as [op|].
  - destruct (flush_visit op st) as [[st1 next]|] eqn:Hvisit; [|done].
    intros [= <- <-].
    apply flush_visit_inv in Hvisit
      as (u1 & u2 & u3 & n & c & Hraise & Hn & Hc & Hid & Hcomp & Hch).
    unfold on_graph in Hraise. bind_inv Hraise. inversion Hraise; subst; clear Hraise.
    match goal with H : update_op _ _ _ = Some _ |- _ =>
      apply raise_raised_only in H as H01 end.
    apply flush_handle_id_node_operations in Hid as [Ho2 _]. simpl in *.
    apply (flush_handle_component_node_raised _ _ _ _ Hcontract Hkeep) in Hcomp as H23.
    apply flush_schedule_children_flags in Hch as H34.
    eapply raised_only_trans; [exact H01|]. eapply raised_only_trans; [|by apply raised_only_flags].
    unfold raised_only in *. by rewrite <- Ho2.
  - destruct (queue st) as [|front rest]; [done|]. intros [= <- <-]. apply raised_only_refl.
Qed.

Lemma flush_raised_run bmain g st' :
  tag_update_contract → tagging_keeps_flags →
  deg_graph_flush_updates bmain g = Finished st' → raised_only g (graph st').
Proof.
  intros Hcontract Hkeep Hrun.
  apply flush_with_inv in Hrun as [[_ ->] | (g1 & st1 & Hprep & Hentry & Hloop)];
    [apply raised_only_refl|].
  pose proof (flush_prepare_effect _ _ Hprep) as Hreset.
  pose proof (flush_schedule_entrypoints_flags _ _ Hentry) as Hflags. simpl in Hflags.
  assert (raised_only g (graph st1)) as H1.
  { apply raised_only_flags. rewrite Hflags, (ro_ops _ _ Hreset).
    rewrite <- list_fmap_compose. done. }
  apply (flush_loop_invariant (λ t _, raised_only g (graph t))) in Hloop; [done| |done].
  intros t b t' b' Ht Hround. eapply raised_only_trans; [exact Ht|].
  by eapply flush_round_raised.
Qed.

(** X12.  When the tagging call leaves operation flags alone (as with
    copy-on-write off), NEEDS_UPDATE is the only flag a flush sets and it
    clears none: after the flush the flag word of every operation is what it
    was, or what it was with NEEDS_UPDATE set; DIRECTLY_MODIFIED, for one, is
    never touched. *)
Theorem flush_raises_needs_update_only (bmain : list ID) (g : Depsgraph) (st' : FlushState) :
  tag_update_contract → tagging_keeps_flags →
  deg_graph_flush_updates bmain g = Finished st' →
  ∀ q n, operations g !! q = Some n →
    ∃ n', operations (graph st') !! q = Some n'
        ∧ (op_flag n' = op_flag n
           ∨ op_flag n' = Z.lor (op_flag n) DEPSOP_FLAG_NEEDS_UPDATE).
Proof.
  intros Hcontract Hkeep Hrun q n Hn.
  pose proof (flush_raised_run _ _ _ Hcontract Hkeep Hrun) as Hraised.
  unfold raised_only in Hraised.
  rewrite Forall2_fmap in Hraised.
  destruct (Forall2_lookup_l _ _ _ _ _ Hraised Hn) as (n' & Hn' & Hflag). by exists n'.
Qed.

Lemma land_lor_clear (f a b : Z) :
  Z.land (Z.lor f b) (Z.lnot (Z.lor a b)) = Z.land f (Z.lnot (Z.lor a b)).
Proof.
  apply Z.bits_inj'. intros k Hk.
  rewrite !Z.land_spec, !Z.lnot_spec, !Z.lor_spec by done.
  by destruct (Z.testbit f k), (Z.testbit a k), (Z.testbit b k).
Qed.

Lemma raised_only_cleared g g' :
  raised_only g g' →
  op_flag <$> (clear_pending <$> operations g') = op_flag <$> (clear_pending <$> operations g).
Proof.
  unfold raised_only. rewrite Forall2_fmap. intros Hraised.
  rewrite <- !list_fmap_compose.
  induction Hraised as [|n n' l l' Hflag _ IH]; [done|]. rewrite !fmap_cons.
  f_equal; [|exact IH]. simpl.
  destruct Hflag as [-> | ->]; [done|]. apply land_lor_clear.
Qed.

(** X13.  A flush followed by the tag clear, when the tagging call leaves
    operation flags alone: whatever the flush flagged the clear removes, so
    that the operation flags end as if the graph had been cleared without
    being flushed; the entry set is empty, and a flush that follows returns at
    once. *)
Theorem flush_then_clear_tags (bmain : list ID) (g : Depsgraph) (st' : FlushState) :
  tag_update_contract → tagging_keeps_flags →
  deg_graph_flush_updates bmain g = Finished st' →
  ∃ g0 g2,
    deg_graph_clear_tags g = Some g0
    ∧ deg_graph_clear_tags (graph st') = Some g2
    ∧ op_flag <$> operations g2 = op_flag <$> operations g0
    ∧ entry_tags g2 = []
    ∧ ∀ bmain', deg_graph_flush_updates bmain' g2
                = Finished {| graph := g2; datablocks := bmain'; queue := [];
                              calls := []; history := [] |}.
Proof.
  intros Hcontract Hkeep Hrun.
  pose proof (flush_raised_run _ _ _ Hcontract Hkeep Hrun) as Hraised.
  eexists _, _. split; [apply deg_graph_clear_tags_eq|].
  split; [apply deg_graph_clear_tags_eq|]. simpl.
  split; [by apply raised_only_cleared|]. split; [done|].
  intros bmain'. unfold deg_graph_flush_updates, flush_with. simpl. done.
Qed.

(** ** Where a flush can come *)

Lemma same_shape_find g g' p i' :
  same_shape g g' → id_nodes g' !! p = Some i' →
  ∃ i, id_nodes g !! p = Some i ∧ ∀ type, find_component i' type = find_component i type.
Proof.
  intros Hshape Hi'. destruct (same_shape_components _ _ _ _ Hshape Hi') as (i & Hi & Heq).
  exists i. split; [done|]. intros type. unfold find_component. by rewrite Heq.
Qed.

Lemma same_shape_comp_fields g g' p c' :
  same_shape g g' → comp_nodes g' !! p = Some c' →
  ∃ c, comp_nodes g !! p = Some c ∧ comp_owner c' = comp_owner c
     ∧ comp_type c' = comp_type c ∧ comp_entry_operation c' = comp_entry_operation c
     ∧ comp_operations c' = comp_operations c.
Proof.
  intros (_ & Hcomps & _) Hc'.
  destruct (Forall2_lookup_r _ _ _ _ _ Hcomps Hc') as (c & Hc & Heq).
  exists c. split; [done|]. unfold set_comp_done in Heq. by injection Heq.
Qed.

Lemma pose_entry_of_shape g g' p e :
  same_shape g g' → pose_entry_of g' p e → pose_entry_of g p e.
Proof.
  intros Hshape (n' & c' & i' & pp & pc' & Hn' & Hc' & Htype & Hi' & Hfind & Hpc' & He).
  destruct (same_shape_op _ _ _ _ Hshape Hn') as (n & Hn & _ & Hown).
  rewrite Hown in Hc'.
  destruct (same_shape_comp_fields _ _ _ _ Hshape Hc') as (c & Hc & Hcown & Hctype & _).
  rewrite Hcown in Hi'.
  destruct (same_shape_find _ _ _ _ Hshape Hi') as (i & Hi & Hfinds).
  destruct (same_shape_comp_fields _ _ _ _ Hshape Hpc') as (pc & Hpc & _ & _ & Hentry & _).
  exists n, c, i, pp, pc. rewrite <- Hfinds, <- Hentry, <- Hctype. done.
Qed.

(** What the component handler adds to the queue: nothing, or, on a bone
    component, the entry operation of the pose component of the ID node. *)
Lemma flush_handle_component_node_queue i p st st' :
  tag_update_contract →
  flush_handle_component_node i p st = Some st' →
  queue st' = queue st
  ∨ ∃ c n pp pc,
      comp_nodes (graph st) !! p = Some c ∧ comp_type c = DEG_NODE_TYPE_BONE
      ∧ id_nodes (graph st) !! i = Some n
      ∧ find_component n DEG_NODE_TYPE_EVAL_POSE = Some pp
      ∧ comp_nodes (graph st) !! pp = Some pc
      ∧ queue st' = comp_entry_operation pc :: queue st.
Proof.
  intros Hcontract Hrun.
  destruct (comp_nodes (graph st) !! p) as [c|] eqn:Hc;
    [|unfold flush_handle_component_node in Hrun; by rewrite Hc in Hrun].
  destruct (decide (comp_done c = COMPONENT_STATE_DONE)) as [Hdone|Hdone].
  { unfold flush_handle_component_node in Hrun. rewrite Hc in Hrun. simpl in Hrun.
    rewrite decide_True in Hrun by done. inversion Hrun. by left. }
  destruct (flush_handle_component_node_steps _ _ _ _ _ Hcontract Hrun Hc Hdone)
    as (g1 & g2 & (_ & Hc1 & Hi1) & _ & Htag & Hpose).
  apply tag_component_operations_flags_only in Htag as [(_ & Hc2 & Hi2) _].
  simpl in Hc1, Hi1.
  destruct Hpose as [[_ ->] | [Htype Hpose]]; [by left|].
  apply flush_reschedule_pose_inv in Hpose
    as (n & pp & pc & Hn & Hfind & Hpc & [[_ ->] | [_ ->]]); [by left|].
  right. simpl in Hn, Hpc. rewrite Hi2, Hi1 in Hn. rewrite Hc2, Hc1 in Hpc.
  destruct (decide (pp = p)) as [->|Hne].
  - rewrite list_lookup_insert_eq in Hpc by (by eapply lookup_lt_Some).
    inversion Hpc; subst; clear Hpc. by exists c, n, p, c.
  - rewrite list_lookup_insert_ne in Hpc by done. by exists c, n, pp, pc.
Qed.

(** What the scheduling of the children hands on: link targets only. *)
Lemma flush_schedule_children_queue op st st' next :
  flush_schedule_children op st = Some (st', next) →
  ∃ n, operations (graph st) !! op = Some n
     ∧ (∀ x, next = Some x → x ∈ op_outlinks n)
     ∧ (∀ x, Some x ∈ queue st' → Some x ∈ queue st ∨ x ∈ op_outlinks n).
Proof.
  unfold flush_schedule_children. intros Hrun.
  destruct (operations (graph st) !! op) as [n|] eqn:Hn; simpl in Hrun; [|done].
  exists n. split; [done|]. revert Hrun.
  apply (foreach_invariant
           (λ a : FlushState * option nat,
              (∀ x, a.2 = Some x → x ∈ op_outlinks n)
              ∧ (∀ x, Some x ∈ queue a.1 → Some x ∈ queue st ∨ x ∈ op_outlinks n)));
    [|split; [done|auto]].
  intros t [u r] [u' r'] Ht [Hr Hq]
    (m & Hm & [(_ & -> & ->) | (_ & _ & _ & _ & Hcase)])%flush_schedule_child_inv;
    [done|]. simpl in *.
  destruct Hcase as [(_ & -> & -> & _) | (_ & -> & -> & _)].
  - split; [by intros x [= <-]|done].
  - split; [done|]. intros x [[= ->] | Hx]%elem_of_cons; auto.
Qed.

Lemma flush_visit_queue g op st st' next :
  tag_update_contract → same_shape g (graph st) →
  flush_visit op st = Some (st', next) →
  (∀ x, next = Some x → ∃ n, operations g !! op = Some n ∧ x ∈ op_outlinks n)
  ∧ (∀ x, Some x ∈ queue st' →
       Some x ∈ queue st
       ∨ (∃ n, operations g !! op = Some n ∧ x ∈ op_outlinks n)
       ∨ pose_entry_of g op x).
Proof.
  intros Hcontract Hshape
    (u1 & u2 & u3 & n1 & c1 & Hraise & Hn1 & Hc1 & Hid & Hcomp & Hch)%flush_visit_inv.
  pose proof (flush_raise_le _ _ _ Hraise) as [H01 _].
  pose proof (flush_handle_id_node_le _ _ _ Hid) as [H12 _].
  pose proof (flush_handle_component_node_le _ _ _ _ Hcontract Hcomp) as H23.
  apply on_graph_inv in Hraise as (g' & _ & ->).
  assert (same_shape g (graph u2)) as Hshape2.
  { eapply same_shape_trans; [exact Hshape|]. apply graph_le_shape.
    eapply graph_le_trans; [apply H01 | apply H12]. }
  assert (same_shape g (graph u3)) as Hshape3.
  { eapply same_shape_trans; [exact Hshape2|]. apply graph_le_shape. apply H23. }
  assert (queue u2 = queue st) as Hq2.
  { apply flush_handle_id_node_inv in Hid as (m & _ & [[_ ->] | (_ & dbs & ->)]); done. }
  destruct (flush_handle_id_node_operations _ _ _ Hid) as [Ho2 Hcs2].
  destruct (flush_schedule_children_queue _ _ _ _ Hch) as (n3 & Hn3 & Hnext & Hq4).
  destruct (same_shape_op _ _ _ _ Hshape3 Hn3) as (n & Hn & Hlinks & _).
  split.
  - intros x Hx. exists n. split; [done|]. rewrite <- Hlinks. by apply Hnext.
  - intros x Hx. destruct (Hq4 x Hx) as [Hx3 | Hx3].
    2:{ right. left. exists n. split; [done|]. by rewrite <- Hlinks. }
    destruct (flush_handle_component_node_queue _ _ _ _ Hcontract Hcomp)
      as [Hq3 | (c & m & pp & pc & Hc & Htype & Hm & Hfind & Hpc & Hq3)].
    { left. by rewrite <- Hq2, <- Hq3. }
    rewrite Hq3 in Hx3. apply elem_of_cons in Hx3 as [Hentry | Hx3];
      [|left; by rewrite <- Hq2].
    right. right. apply (pose_entry_of_shape g (graph u2)); [done|].
    assert (c = c1) as -> by (rewrite Hcs2 in Hc; congruence).
    exists n1, c1, m, pp, pc. rewrite Ho2. by rewrite Hcs2 in *.
Qed.

Lemma flush_round_closure_bound g st a st' a' :
  tag_update_contract → same_shape g (graph st) → closure_bound g st a →
  flush_round st a = Continue st' a' → closure_bound g st' a'.
Proof.
  intros Hcontract Hshape (Hq & Ha & Hv). unfold flush_round. destruct a as [op|].
  - destruct (flush_visit op st) as [[st1 next]|] eqn:Hvisit; [|done].
    intros [= <- <-].
    destruct (flush_visit_queue g _ _ _ _ Hcontract Hshape Hvisit) as [Hnext Hq1].
    destruct (flush_visit_effect _ _ _ _ Hcontract Hvisit) as (_ & _ & _ & Hvisits & _).
    pose proof (Ha op eq_refl) as Hop.
    assert (∀ x, (∃ n, operations g !! op = Some n ∧ x ∈ op_outlinks n) → flush_closure g x)
      as Hlink.
    { intros x (n & Hn & Hx). by eapply closure_link. }
    split; [|split].
    + intros x Hx. destruct (Hq1 x Hx) as [? | [? | ?]]; [auto..|].
      by eapply closure_pose.
    + intros x ->. by apply Hlink, Hnext.
    + intros v Hvis. apply visits_elem_of in Hvis. rewrite Hvisits in Hvis.
      apply elem_of_app in Hvis as [Hvis | [= ->]%list_elem_of_singleton]; [|done].
      by apply Hv, visits_elem_of.
  - destruct (queue st) as [|front rest] eqn:Hqueue; [done|]. intros [= <- <-].
    split; [|split]; simpl; [|intros x ->|done].
    + intros x Hx. apply Hq. by right.
    + apply Hq. by left.
Qed.

(** Every operation a flush visits is within [flush_closure]. *)
Lemma flush_visits_closure bmain g st' v :
  tag_update_contract →
  deg_graph_flush_updates bmain g = Finished st' →
  visited v ∈ history st' → flush_closure g v.
Proof.
  intros Hcontract Hrun Hv.
  apply flush_with_inv in Hrun as [[_ ->] | (g1 & st1 & Hprep & Hentry & Hloop)].
  { by apply elem_of_nil in Hv. }
  pose proof (flush_prepare_effect _ _ Hprep) as Hreset.
  pose proof (flush_schedule_entrypoints_effect _ _ Hentry) as Hes.
  apply (flush_loop_invariant
           (λ t b, same_shape g (graph t) ∧ closure_bound g t b)) in Hloop.
  - destruct Hloop as (_ & _ & _ & Hvis). by apply Hvis.
  - intros t b t' b' [Hs Hb] Hround. split; [|by eapply flush_round_closure_bound].
    eapply same_shape_trans; [exact Hs|]. apply graph_le_shape.
    by destruct (flush_round_effect _ _ _ _ Hcontract Hround) as ([Hg _ _ _ _ _] & _).
  - split; [apply (flush_run_shape g g1 st1 st1 bmain); [done..|apply flush_le_refl]|].
    split; [|split]; [|done|].
    + intros x Hx. rewrite (es_queue _ _ Hes) in Hx. simpl in Hx.
      apply list_elem_of_fmap in Hx as (e & [= ->] & He).
      apply closure_entry. by rewrite <- (ro_entry _ _ Hreset).
    + intros x Hx. rewrite (es_history _ _ Hes) in Hx. simpl in Hx.
      by apply list_elem_of_fmap in Hx as (e & ? & _).
Qed.

Lemma flush_flags_touched bmain g st' q n n' :
  tag_update_contract → tagging_keeps_flags →
  deg_graph_flush_updates bmain g = Finished st' →
  operations g !! q = Some n → operations (graph st') !! q = Some n' →
  op_flag n' ≠ op_flag n → touched g (history st') q.
Proof.
  intros Hcontract Hkeep Hrun Hn Hn' Hflag.
  apply (flush_with_run _ _ _ _ Hcontract) in Hrun
    as [[Hempty ->] | (g1 & st1 & Hreset & Hentry & Hle & _ & _ & _ & Hwithin)].
  { simpl in Hn'. congruence. }
  pose proof (flush_run_shape _ _ _ _ _ Hreset Hentry Hle) as Hshape.
  apply (same_shape_touched g (graph st')); [done|].
  destruct (Forall2_lookup_r _ _ _ _ _ (proj1 (le_graph _ _ Hle)) Hn') as (n1 & Hn1 & _).
  apply (Hwithin Hkeep q n1 n' Hn1 Hn').
  assert (op_flag n1 = op_flag n) as ->; [|done].
  assert (operations g1 !! q = Some (set_op_scheduled false n)) as Hg1
    by (by rewrite (ro_ops _ _ Hreset), list_lookup_fmap, Hn).
  rewrite (flags_lookup_eq _ _ _ _ _ (es_flags _ _ Hentry) Hg1 Hn1). done.
Qed.

(** X14.  Where a flush can come, read off the graph it is called on. Every
    operation it visits is an entry tag, a link target of an operation it can
    come to, or the entry operation of the pose component of the ID node of a
    bone component it can come to. When the tagging call leaves operation
    flags alone, an operation whose flags differ after the flush is such an
    operation or is owned by the component of one. *)
Theorem flush_visits_within_closure (bmain : list ID) (g : Depsgraph) (st' : FlushState) :
  tag_update_contract →
  deg_graph_flush_updates bmain g = Finished st' →
  (∀ v, visited v ∈ history st' → flush_closure g v)
  ∧ (tagging_keeps_flags →
     ∀ q n n', operations g !! q = Some n → operations (graph st') !! q = Some n' →
       op_flag n' ≠ op_flag n →
       flush_closure g q
       ∨ ∃ v m c, flush_closure g v ∧ operations g !! v = Some m
                  ∧ comp_nodes g !! op_owner m = Some c ∧ q ∈ comp_operations c).
Proof.
  intros Hcontract Hrun. split.
  - intros v. by apply (flush_visits_closure bmain).
  - intros Hkeep q n n' Hn Hn' Hflag.
    destruct (flush_flags_touched _ _ _ _ _ _ Hcontract Hkeep Hrun Hn Hn' Hflag)
      as [Hq | (v & m & c & Hv & Hm & Hc & Hin)].
    + left. by eapply flush_visits_closure.
    + right. exists v, m, c. split; [by eapply flush_visits_closure|done].
Qed.

(** ** What a flush has done by its end *)

Lemma state_value_done s : 2 ≤ state_value s → s = COMPONENT_STATE_DONE.
Proof. destruct s; simpl; [lia | lia | done]. Qed.

Lemma graph_le_done g g' c cn :
  graph_le g g' → comp_nodes g !! c = Some cn → comp_done cn = COMPONENT_STATE_DONE →
  ∃ cn', comp_nodes g' !! c = Some cn' ∧ comp_done cn' = COMPONENT_STATE_DONE
         ∧ comp_operations cn' = comp_operations cn.
Proof.
  intros (_ & Hcomps & _) Hcn Hdone.
  destruct (Forall2_lookup_l _ _ _ _ _ Hcomps Hcn) as (cn' & Hcn' & Heq & Hstate).
  exists cn'. split; [done|]. split.
  - apply state_value_done. rewrite Hdone in Hstate. done.
  - unfold set_comp_done in Heq. by injection Heq.
Qed.

Lemma visit_done_le g g' op : graph_le g g' → visit_done g op → visit_done g' op.
Proof.
  intros Hle (n & c & Hn & Hnu & Hc & Hdone).
  destruct (Forall2_lookup_l _ _ _ _ _ (proj1 Hle) Hn) as (n' & Hn' & (_ & _ & Ho & _ & Hup)).
  destruct (graph_le_done _ _ _ _ Hle Hc Hdone) as (c' & Hc' & Hdone' & _).
  exists n', c'. rewrite Ho. auto.
Qed.

Lemma comp_tagged_le g g' cn cn' :
  graph_le g g' → comp_operations cn' = comp_operations cn →
  comp_tagged g cn → comp_tagged g' cn'.
Proof.
  intros Hle Hops Htagged q m' Hq Hm' Hcode. rewrite Hops in Hq.
  destruct (Forall2_lookup_r _ _ _ _ _ (proj1 Hle) Hm') as (m & Hm & (Hc & _ & _ & _ & Hup)).
  apply Hup. apply (Htagged q m Hq Hm). by rewrite <- Hc.
Qed.

Lemma tag_component_operations_tagged ops g g' q m :
  tag_component_operations ops g = Some g' →
  q ∈ ops → operations g' !! q = Some m →
  op_opcode m ≠ DEG_OPCODE_PARTICLE_SETTINGS_EVAL → has_needs_update m.
Proof.
  intros Hrun Hq Hm Hcode.
  pose proof (tag_component_operations_in_range _ _ _ Hrun) as Hrange.
  destruct (tag_component_operations_lookup ops g) as (g'' & Hrun' & _ & _ & _ & Hops).
  { eapply Forall_impl; [exact Hrange|]. intros o Ho. by apply lookup_lt_is_Some. }
  assert (g'' = g') as -> by congruence.
  destruct (lookup_lt_is_Some_2 (operations g) q) as [n Hn].
  { by apply (proj1 (Forall_forall _ _) Hrange). }
  rewrite (Hops q n Hn) in Hm. case_decide as Hcond.
  - inversion Hm; subst. apply raise_needs_update_has.
  - inversion Hm; subst. destruct Hcond. done.
Qed.

(** After the component handler its component is done; a component that
    became done was tagged. *)
Lemma flush_handle_component_node_done i p st st' :
  tag_update_contract →
  flush_handle_component_node i p st = Some st' →
  (∃ c', comp_nodes (graph st') !! p = Some c' ∧ comp_done c' = COMPONENT_STATE_DONE)
  ∧ ∀ c cn', comp_nodes (graph st') !! c = Some cn' → comp_done cn' = COMPONENT_STATE_DONE →
      (∃ cn, comp_nodes (graph st) !! c = Some cn ∧ comp_done cn = COMPONENT_STATE_DONE)
      ∨ comp_tagged (graph st') cn'.
Proof.
  intros Hcontract Hrun.
  destruct (comp_nodes (graph st) !! p) as [c0|] eqn:Hc0;
    [|unfold flush_handle_component_node in Hrun; by rewrite Hc0 in Hrun].
  destruct (decide (comp_done c0 = COMPONENT_STATE_DONE)) as [Hdone|Hdone].
  { unfold flush_handle_component_node in Hrun. rewrite Hc0 in Hrun. simpl in Hrun.
    rewrite decide_True in Hrun by done. inversion Hrun; subst. split; eauto. }
  destruct (flush_handle_component_node_steps _ _ _ _ _ Hcontract Hrun Hc0 Hdone)
    as (g1 & g2 & (_ & Hc1 & _) & _ & Htag & Hpose).
  pose proof Htag as Htag'.
  apply tag_component_operations_flags_only in Htag' as [(_ & Hc2 & _) _].
  simpl in Hc1.
  assert (comp_nodes g2 !! p = Some (set_comp_done COMPONENT_STATE_DONE c0)) as Hp2.
  { rewrite Hc2, Hc1. apply list_lookup_insert_eq. by eapply lookup_lt_Some. }
  assert (∀ c cn', comp_nodes g2 !! c = Some cn' → comp_done cn' = COMPONENT_STATE_DONE →
            (∃ cn, comp_nodes (graph st) !! c = Some cn ∧ comp_done cn = COMPONENT_STATE_DONE)
            ∨ comp_tagged g2 cn') as Hnew.
  { intros c cn' Hcn' Hd. destruct (decide (c = p)) as [->|Hne].
    - right. assert (cn' = set_comp_done COMPONENT_STATE_DONE c0) as -> by congruence.
      intros q m Hq Hm Hcode. simpl in Hq. by eapply tag_component_operations_tagged.
    - left. rewrite Hc2, Hc1, list_lookup_insert_ne in Hcn' by done. by exists cn'. }
  destruct Hpose as [[_ ->] | [_ Hpose]]; [split; [eauto|done]|].
  apply flush_reschedule_pose_inv in Hpose
    as (n & pp & pc & _ & _ & Hpc & [[_ ->] | [Hnone ->]]); [split; [eauto|done]|].
  simpl in *. assert (pp ≠ p) as Hne.
  { intros ->. rewrite Hp2 in Hpc. inversion Hpc; subst. done. }
  split.
  - exists (set_comp_done COMPONENT_STATE_DONE c0).
    by rewrite list_lookup_insert_ne by done.
  - intros c cn' Hcn' Hd. destruct (decide (c = pp)) as [->|Hcpp].
    + rewrite list_lookup_insert_eq in Hcn' by (by eapply lookup_lt_Some).
      inversion Hcn'; subst. done.
    + rewrite list_lookup_insert_ne in Hcn' by done. by apply Hnew.
Qed.

Lemma flush_round_visit_inv st a st' a' :
  tag_update_contract → visit_inv st a →
  flush_round st a = Continue st' a' → visit_inv st' a'.
Proof.
  intros Hcontract Hinv. unfold flush_round. destruct a as [op|].
  - destruct (flush_visit op st) as [[st1 next]|] eqn:Hvisit; [|done].
    intros [= <- <-].
    destruct (flush_visit_effect _ _ _ _ Hcontract Hvisit) as (_ & _ & _ & Hvisits & _).
    apply flush_visit_inv in Hvisit
      as (u1 & u2 & u3 & n1 & c1 & Hraise & Hn1 & Hc1 & Hid & Hcomp & Hch).
    apply flush_raise_le in Hraise as [H01 _].
    apply flush_handle_id_node_le in Hid as [H12 _].
    apply (flush_handle_component_node_le _ _ _ _ Hcontract) in Hcomp as H23.
    apply flush_schedule_children_le in Hch as [H3 _].
    assert (handler_le (record_event (visited op) st) u3) as H03
      by (eauto using handler_le_trans).
    assert (∀ v, visited v ∈ history st ∨ v = op → visited v ∈ history st1) as Hseen.
    { intros v Hv. apply visits_elem_of. rewrite Hvisits. apply elem_of_app.
      destruct Hv as [Hv | ->]; [left; by apply visits_elem_of | right; by left]. }
    intros p n' Hn' Hs.
    destruct (cl_new _ _ H3 p) as [Hold | [Hq | Hnext]]; simpl; [| |auto..].
    { apply sched_flags_lookup. eauto. }
    simpl in Hold. rewrite (hl_sched _ _ H03) in Hold. simpl in Hold.
    apply sched_flags_lookup in Hold as (m & Hm & Hms).
    destruct (Hinv p m Hm Hms) as [Hv | [Hq | [= ->]]]; [left; auto| |left; auto].
    right. left. destruct (cl_queue _ _ H3) as [k Hk]. simpl in Hk. rewrite Hk.
    apply elem_of_app. right. destruct (hl_queue _ _ H03) as [k' Hk']. simpl in Hk'.
    rewrite Hk'. apply elem_of_app. by right.
  - destruct (queue st) as [|front rest] eqn:Hq; [done|]. intros [= <- <-].
    intros p n Hn Hs. simpl in *.
    destruct (Hinv p n Hn Hs) as [Hv | [Hin | Ha]]; [auto| |done].
    rewrite Hq in Hin. apply elem_of_cons in Hin as [<- | Hin]; auto.
Qed.

Lemma flush_round_visit_done st a st' a' :
  tag_update_contract →
  (∀ v, visited v ∈ history st → visit_done (graph st) v) →
  flush_round st a = Continue st' a' →
  ∀ v, visited v ∈ history st' → visit_done (graph st') v.
Proof.
  intros Hcontract Hinv. unfold flush_round. destruct a as [op|].
  - destruct (flush_visit op st) as [[st1 next]|] eqn:Hvisit; [|done].
    intros [= <- <-].
    destruct (flush_visit_effect _ _ _ _ Hcontract Hvisit) as (Hle & _ & _ & Hvisits & _).
    apply flush_visit_inv in Hvisit
      as (u1 & u2 & u3 & n1 & c1 & Hraise & Hn1 & Hc1 & Hid & Hcomp & Hch).
    apply flush_raise_le in Hraise as [H01 (m1 & Hm1 & Hnu1)].
    apply flush_handle_id_node_le in Hid as [H12 _].
    pose proof (flush_handle_component_node_le _ _ _ _ Hcontract Hcomp) as H23.
    apply (flush_handle_component_node_done _ _ _ _ Hcontract) in Hcomp
      as [(c3 & Hc3 & Hdone3) _].
    apply flush_schedule_children_le in Hch as [H3 _].
    intros v Hv. apply visits_elem_of in Hv. rewrite Hvisits in Hv.
    apply elem_of_app in Hv as [Hv | [= ->]%list_elem_of_singleton].
    { eapply visit_done_le; [apply Hle|]. by apply Hinv, visits_elem_of. }
    apply (visit_done_le (graph u3)); [apply H3|].
    assert (graph_le (graph u1) (graph u3)) as H13.
    { eapply graph_le_trans; [apply H12 | apply H23]. }
    assert (m1 = n1) as -> by congruence.
    destruct (Forall2_lookup_l _ _ _ _ _ (proj1 H13) Hn1)
      as (n3 & Hn3 & (_ & _ & Ho & _ & Hup)).
    exists n3, c3. rewrite Ho. auto.
  - destruct (queue st) as [|front rest]; [done|]. by intros [= <- <-].
Qed.

Lemma flush_round_done_tagged g0 st a st' a' :
  tag_update_contract → done_tagged g0 (graph st) →
  flush_round st a = Continue st' a' → done_tagged g0 (graph st').
Proof.
  intros Hcontract Hinv. unfold flush_round. destruct a as [op|].
  - destruct (flush_visit op st) as [[st1 next]|] eqn:Hvisit; [|done].
    intros [= <- <-].
    destruct (flush_visit_effect _ _ _ _ Hcontract Hvisit) as (Hle & _).
    apply flush_visit_inv in Hvisit
      as (u1 & u2 & u3 & n1 & c1 & Hraise & Hn1 & Hc1 & Hid & Hcomp & Hch).
    apply on_graph_inv in Hraise as (g' & (m & _ & ->)%update_op_inv & ->).
    apply flush_handle_id_node_operations in Hid as [_ Hcs2]. simpl in Hcs2.
    apply (flush_handle_component_node_done _ _ _ _ Hcontract) in Hcomp as [_ Hnew].
    pose proof (flush_schedule_children_le _ _ _ _ Hch) as [H3 _].
    apply flush_schedule_children_datablocks in Hch as (_ & _ & Hcs4 & _).
    intros c cn' Hcn' Hdone. rewrite Hcs4 in Hcn'.
    destruct (Hnew c cn' Hcn' Hdone) as [(cn & Hcn & Hd) | Htagged].
    + rewrite Hcs2 in Hcn. destruct (Hinv c cn Hcn Hd) as [? | Htagged]; [by left|].
      right. eapply comp_tagged_le; [apply Hle| |exact Htagged].
      rewrite <- Hcs4 in Hcn'.
      destruct (Forall2_lookup_lr _ _ _ _ _ _ (proj1 (proj2 (le_graph _ _ Hle))) Hcn Hcn')
        as [Heq _].
      unfold set_comp_done in Heq. by injection Heq.
    + right. eapply comp_tagged_le; [apply H3|done|exact Htagged].
  - destruct (queue st) as [|front rest]; [done|]. by intros [= <- <-].
Qed.

(** A flush that went through its loop: at its end every scheduled
    operation has been visited, every visited operation is flagged with its
    component done, and every component that became done is tagged. *)
Lemma flush_visit_run bmain g st' :
  tag_update_contract →
  deg_graph_flush_updates bmain g = Finished st' →
  (entry_tags g = [] ∧ st' = flush_start bmain g)
  ∨ ∃ g1, flush_prepare g = Some g1
        ∧ (∀ p n, operations (graph st') !! p = Some n → op_scheduled n = true →
                  visited p ∈ history st')
        ∧ (∀ v, visited v ∈ history st' → visit_done (graph st') v)
        ∧ done_tagged g1 (graph st').
Proof.
  intros Hcontract Hrun. pose proof Hrun as Hrun'.
  apply (flush_with_run _ _ _ _ Hcontract) in Hrun'
    as [? | (_ & _ & _ & _ & _ & Hq & _)]; [by left|].
  apply flush_with_inv in Hrun as [? | (g1 & st1 & Hprep & Hentry & Hloop)]; [by left|].
  right. exists g1. split; [done|].
  pose proof (flush_prepare_effect _ _ Hprep) as Hreset.
  pose proof (flush_schedule_entrypoints_effect _ _ Hentry) as Hes.
  apply (flush_loop_invariant
           (λ t b, visit_inv t b
                   ∧ (∀ v, visited v ∈ history t → visit_done (graph t) v)
                   ∧ done_tagged g1 (graph t))) in Hloop.
  - destruct Hloop as (Hinv & Hdone & Htagged). split; [|done].
    intros p n Hn Hs. destruct (Hinv p n Hn Hs) as [? | [Hin | ?]]; [done| |done].
    rewrite Hq in Hin. by apply elem_of_nil in Hin.
  - intros t b t' b' (Hi & Hd & Ht) Hround.
    split; [by eapply flush_round_visit_inv|].
    split; [by eapply flush_round_visit_done | by eapply flush_round_done_tagged].
  - split; [|split].
    + intros p n Hn Hs. right. left. rewrite (es_queue _ _ Hes). simpl.
      apply list_elem_of_fmap. exists p. split; [done|].
      destruct (proj1 (es_sched _ _ Hes p)) as [Hold | Hin]; [| |done].
      * apply sched_flags_lookup. eauto.
      * simpl in Hold. by apply (reset_of_unscheduled _ _ p Hreset) in Hold.
    + intros v Hv. rewrite (es_history _ _ Hes) in Hv. simpl in Hv.
      by apply list_elem_of_fmap in Hv as (e & ? & _).
    + intros c cn Hcn Hdone. left. rewrite (es_comps _ _ Hes) in Hcn. by exists cn.
Qed.

Lemma flush_reachable_scheduled bmain g st' p :
  tag_update_contract →
  deg_graph_flush_updates bmain g = Finished st' →
  reachable g p → sched_flags (graph st') !! p = Some true.
Proof.
  intros Hcontract Hrun Hreach.
  apply (flush_with_run _ _ _ _ Hcontract) in Hrun
    as [[Hempty ->] | (g1 & st1 & Hreset & Hentry & Hle & Hq & Hinv & _)].
  { exfalso. induction Hreach as [e He|]; [|done].
    rewrite Hempty in He. by apply elem_of_nil in He. }
  pose proof (flush_run_shape _ _ _ _ _ Hreset Hentry Hle) as Hshape.
  induction Hreach as [e He | q t n _ IH Hn Ht].
  - eapply graph_le_sched; [apply Hle|]. apply (es_sched _ _ Hentry). right. simpl.
    by rewrite (ro_entry _ _ Hreset).
  - apply sched_flags_lookup in IH as (n' & Hn' & Hs).
    destruct (same_shape_op _ _ _ _ Hshape Hn') as (m & Hm & Hl & _).
    assert (m = n) as -> by congruence.
    destruct (Hinv q n' Hn' Hs) as [[_ Hset] | [Hin | ?]]; [|by rewrite Hq in Hin; apply elem_of_nil in Hin|done].
    apply Hset. by rewrite Hl.
Qed.

(** X15.  A flush visits every operation reachable from the entry set along
    outbound links, and every operation it marks scheduled. Each operation
    visited ends flagged NEEDS_UPDATE, with its component done and its ID node
    done. *)
Theorem flush_visits_reachable (bmain : list ID) (g : Depsgraph) (st' : FlushState) :
  tag_update_contract →
  deg_graph_flush_updates bmain g = Finished st' →
  (∀ p, reachable g p → visited p ∈ history st')
  ∧ (entry_tags g ≠ [] →
     ∀ p n', operations (graph st') !! p = Some n' → op_scheduled n' = true →
             visited p ∈ history st')
  ∧ (∀ p, visited p ∈ history st' →
       ∃ n' c' i',
         operations (graph st') !! p = Some n' ∧ has_needs_update n'
         ∧ comp_nodes (graph st') !! op_owner n' = Some c'
         ∧ comp_done c' = COMPONENT_STATE_DONE
         ∧ id_nodes (graph st') !! comp_owner c' = Some i' ∧ id_done i' ≠ 0%Z).
Proof.
  intros Hcontract Hrun.
  destruct (flush_visit_run _ _ _ Hcontract Hrun)
    as [[Hempty ->] | (g1 & Hprep & Hsched & Hdone & _)].
  { split; [|split]; [|done|].
    - intros p Hreach. exfalso. induction Hreach as [e He|]; [|done].
      rewrite Hempty in He. by apply elem_of_nil in He.
    - intros p Hp. by apply elem_of_nil in Hp. }
  split; [|split; [auto|]].
  - intros p Hreach.
    pose proof (flush_reachable_scheduled _ _ _ _ Hcontract Hrun Hreach) as Hp.
    apply sched_flags_lookup in Hp as (n' & Hn' & Hs). by eapply Hsched.
  - intros p Hp. destruct (Hdone p Hp) as (n' & c' & Hn' & Hnu & Hc' & Hcd).
    apply (flush_with_run _ _ _ _ Hcontract) in Hrun
      as [[Hempty ->] | (_ & _ & _ & _ & _ & _ & _ & Hhandled & _)].
    { by apply elem_of_nil in Hp. }
    destruct (Hhandled p) as (n2 & c2 & i2 & Hn2 & Hc2 & Hi2 & Hid).
    { by apply visits_elem_of. }
    assert (n2 = n') as -> by congruence. assert (c2 = c') as -> by congruence.
    by exists n', c', i2.
Qed.

(** After a flush, the component of a visited operation is tagged, if the
    handler ran on it. *)
Lemma flush_component_tagged (bmain : list ID) (g : Depsgraph) (st' : FlushState)
    (op : nat) (n : OperationDepsNode) (c : ComponentDepsNode) :
  tag_update_contract →
  deg_graph_flush_updates bmain g = Finished st' →
  visited op ∈ history st' →
  operations g !! op = Some n → comp_nodes g !! op_owner n = Some c →
  registered g (op_owner n) ∨ comp_done c ≠ COMPONENT_STATE_DONE →
  ∀ q m', q ∈ comp_operations c → operations (graph st') !! q = Some m' →
          op_opcode m' ≠ DEG_OPCODE_PARTICLE_SETTINGS_EVAL → has_needs_update m'.
Proof.
  intros Hcontract Hrun Hvisit Hn Hc Hreset q m' Hq Hm' Hcode.
  destruct (flush_visit_run _ _ _ Hcontract Hrun)
    as [[Hempty ->] | (g1 & Hprep & _ & Hdone & Htagged)].
  { by apply elem_of_nil in Hvisit. }
  destruct (Hdone op Hvisit) as (n' & c' & Hn' & _ & Hc' & Hcd).
  apply (flush_with_run _ _ _ _ Hcontract) in Hrun
    as [[Hempty ->] | (g1' & st1 & Hreset1 & Hentry & Hle & _)].
  { by apply elem_of_nil in Hvisit. }
  pose proof (flush_run_shape _ _ _ _ _ Hreset1 Hentry Hle) as Hshape.
  destruct (same_shape_op _ _ _ _ Hshape Hn') as (n0 & Hn0 & _ & Hown).
  assert (n0 = n) as -> by congruence. rewrite Hown in Hc'.
  destruct (same_shape_comp_fields _ _ _ _ Hshape Hc') as (c0 & Hc0 & _ & _ & _ & Hops).
  assert (c0 = c) as -> by congruence.
  destruct (Htagged _ _ Hc' Hcd) as [(cn1 & Hcn1 & Hd1) | Hall].
  - exfalso. destruct (flush_prepare_exact _ _ Hprep) as (_ & _ & _ & _ & Hcomps).
    rewrite (Hcomps _ _ Hc) in Hcn1. case_decide as Hreg.
    + inversion Hcn1; subst. done.
    + inversion Hcn1; subst. destruct Hreset as [? | Hnot]; done.
  - apply (Hall q m'); [by rewrite Hops|done..].
Qed.

(** X16.  The tagging of whole components. After a flush, all the operations
    of the component of a visited operation, the particle settings evaluations
    apart, are flagged NEEDS_UPDATE, whether links lead to them or not; this
    holds for the components the handler ran on, which are those that are in
    the hash of an ID node, and so were reset, or were not done when the flush
    was called. *)
Theorem flush_tags_whole_component (bmain : list ID) (g : Depsgraph) (st' : FlushState)
    (op : nat) (n : OperationDepsNode) (c : ComponentDepsNode) :
  tag_update_contract →
  deg_graph_flush_updates bmain g = Finished st' →
  visited op ∈ history st' →
  operations g !! op = Some n → comp_nodes g !! op_owner n = Some c →
  registered g (op_owner n) ∨ comp_done c ≠ COMPONENT_STATE_DONE →
  ∀ q m', q ∈ comp_operations c → operations (graph st') !! q = Some m' →
          op_opcode m' ≠ DEG_OPCODE_PARTICLE_SETTINGS_EVAL → has_needs_update m'.
Proof. apply flush_component_tagged. Qed.

(** ** The particle settings exception *)

Lemma tag_component_operations_exact ops g g' :
  tag_component_operations ops g = Some g' →
  ∀ p n, operations g !! p = Some n →
    operations g' !! p
    = Some (if decide (p ∈ ops ∧ op_opcode n ≠ DEG_OPCODE_PARTICLE_SETTINGS_EVAL)
            then raise_needs_update n else n).
Proof.
  intros Hrun.
  pose proof (tag_component_operations_in_range _ _ _ Hrun) as Hrange.
  destruct (tag_component_operations_lookup ops g) as (g'' & Hrun' & _ & _ & _ & Hops).
  { eapply Forall_impl; [exact Hrange|]. intros o Ho. by apply lookup_lt_is_Some. }
  assert (g'' = g') as -> by congruence. done.
Qed.

(** The component handler on a component that is not done: its operations
    at the end are those the tagging loop left. *)
Lemma flush_handle_component_node_retag i p st st' c :
  tag_update_contract →
  flush_handle_component_node i p st = Some st' →
  comp_nodes (graph st) !! p = Some c → comp_done c ≠ COMPONENT_STATE_DONE →
  ∃ g1 g2,
    flags_only (set_comp_nodes (<[p := set_comp_done COMPONENT_STATE_DONE c]>
                                  (comp_nodes (graph st))) (graph st)) g1
    ∧ (tagging_keeps_flags → operations g1 = operations (graph st))
    ∧ tag_component_operations (comp_operations c) g1 = Some g2
    ∧ operations (graph st') = operations g2.
Proof.
  intros Hcontract Hrun Hc Hdone.
  destruct (flush_handle_component_node_steps _ _ _ _ _ Hcontract Hrun Hc Hdone)
    as (g1 & g2 & Hg1 & Hkeep & Htag & [[_ ->] | [_ Hpose]]).
  - by exists g1, g2.
  - exists g1, g2. do 3 (split; [done|]).
    apply flush_reschedule_pose_inv in Hpose
      as (n & pp & pc & _ & _ & _ & [[_ ->] | [_ ->]]); done.
Qed.

(** A round of the inner loop leaves the flags of every particle settings
    evaluation but the one it visits as they were, when the tagging call
    does not reach the operations. *)
Lemma flush_visit_particle op st st' next q n n' :
  tag_update_contract → tagging_keeps_flags →
  flush_visit op st = Some (st', next) →
  operations (graph st) !! q = Some n → operations (graph st') !! q = Some n' →
  op_opcode n = DEG_OPCODE_PARTICLE_SETTINGS_EVAL → q ≠ op →
  op_flag n' = op_flag n.
Proof.
  intros Hcontract Hkeep
    (u1 & u2 & u3 & n1 & c1 & Hraise & Hn1 & Hc1 & Hid & Hcomp & Hch)%flush_visit_inv
    Hn Hn' Hcode Hne.
  apply on_graph_inv in Hraise as (g' & (m & Hm & ->)%update_op_inv & ->).
  apply flush_handle_id_node_operations in Hid as [Ho2 Hc2]. simpl in Ho2, Hc2, Hc1.
  apply flush_schedule_children_flags in Hch as Hflags.
  assert (operations (graph u2) !! q = Some n) as Hq2.
  { rewrite Ho2. by rewrite list_lookup_insert_ne. }
  assert (operations (graph u3) !! q = Some n) as Hq3.
  { apply (flush_handle_component_node_inv _ _ _ _ Hcontract) in Hcomp as Hcases.
    destruct Hcases as (c & Hc & [[_ ->] | (Hdone & _)]); [done|].
    destruct (flush_handle_component_node_retag _ _ _ _ _ Hcontract Hcomp Hc Hdone)
      as (g1 & g2 & _ & Ho1 & Htag & ->).
    rewrite (tag_component_operations_exact _ _ _ Htag q n) by (by rewrite (Ho1 Hkeep)).
    rewrite decide_False; [done|]. by intros [_ ?]. }
  by apply (flags_lookup_eq _ _ _ _ _ Hflags Hq3 Hn').
Qed.

Lemma flush_loop_particle fuel :
  tag_update_contract → tagging_keeps_flags →
  ∀ st a st' q n n', flush_loop fuel st a = Finished st' →
    operations (graph st) !! q = Some n → operations (graph st') !! q = Some n' →
    op_opcode n = DEG_OPCODE_PARTICLE_SETTINGS_EVAL → op_flag n' ≠ op_flag n →
    visited q ∈ history st'.
Proof.
  intros Hcontract Hkeep. induction fuel as [|fuel IH]; intros st a st' q n n' Hrun Hn Hn'
    Hcode Hflag; simpl in Hrun; [done|].
  destruct (flush_round st a) as [st1 a1| |] eqn:Hround; [| |done].
  - destruct (flush_round_effect _ _ _ _ Hcontract Hround) as (Hle1 & _).
    destruct (Forall2_lookup_l _ _ _ _ _ (proj1 (le_graph _ _ Hle1)) Hn)
      as (n1 & Hn1 & (Hcode1 & _)).
    destruct (decide (op_flag n1 = op_flag n)) as [Heq|Hne].
    + apply (IH st1 a1 st' q n1 n'); [done..|by rewrite Hcode1|by rewrite Heq].
    + destruct (flush_loop_within _ Hcontract Hkeep _ _ _ Hrun) as [Hmono _].
      apply Hmono. unfold flush_round in Hround. destruct a as [op|].
      * destruct (flush_visit op st) as [[st2 next]|] eqn:Hvisit; [|done].
        inversion Hround; subst; clear Hround.
        destruct (flush_visit_effect _ _ _ _ Hcontract Hvisit) as (_ & _ & _ & Hv & _).
        destruct (decide (q = op)) as [->|Hq].
        -- apply visits_elem_of. rewrite Hv. apply elem_of_app. right. by left.
        -- destruct Hne.
           by apply (flush_visit_particle _ _ _ _ _ _ _ Hcontract Hkeep Hvisit Hn Hn1).
      * destruct (queue st) as [|front rest]; [done|].
        inversion Hround; subst; clear Hround. simpl in Hn1. congruence.
  - inversion Hrun; subst; clear Hrun. congruence.
Qed.

(** C5.  The particle settings exception of the component handler, in the
    handler and over a whole flush.

    The handler: on a component that is not done, the handler marks it done,
    makes the tagging call in copy-on-write mode, and then runs the tagging
    loop, from graph [g1] to graph [g2]; the operations [g2] has are those
    the handler returns. Of the operations of [g1], the loop leaves every
    particle settings evaluation exactly as it was, and every operation the
    component does not own; on every other operation the component owns it
    sets NEEDS_UPDATE and changes nothing else.

    The flush: at its end all the operations of the component of a visited
    operation, the particle settings evaluations apart, are flagged, for the
    components the handler ran on (those in the hash of an ID node, which
    the reset returned to NONE, and those not done when the flush was
    called); and, the tagging call not reaching the operations, a particle
    settings evaluation that the flush did not itself visit has the flags
    it had before the flush, whatever components were handled. *)
Theorem retag_skips_particle_settings :
  tag_update_contract →
  (∀ i p st st' c,
     flush_handle_component_node i p st = Some st' →
     comp_nodes (graph st) !! p = Some c → comp_done c ≠ COMPONENT_STATE_DONE →
     ∃ g1 g2,
       flags_only (set_comp_nodes (<[p := set_comp_done COMPONENT_STATE_DONE c]>
                                     (comp_nodes (graph st))) (graph st)) g1
       ∧ (tagging_keeps_flags → operations g1 = operations (graph st))
       ∧ tag_component_operations (comp_operations c) g1 = Some g2
       ∧ operations (graph st') = operations g2
       ∧ ∀ q n, operations g1 !! q = Some n →
           (op_opcode n = DEG_OPCODE_PARTICLE_SETTINGS_EVAL →
            operations (graph st') !! q = Some n)
           ∧ (q ∉ comp_operations c → operations (graph st') !! q = Some n)
           ∧ (q ∈ comp_operations c →
              op_opcode n ≠ DEG_OPCODE_PARTICLE_SETTINGS_EVAL →
              ∃ n', operations (graph st') !! q = Some n'
                  ∧ n' = set_op_flag (Z.lor (op_flag n) DEPSOP_FLAG_NEEDS_UPDATE) n
                  ∧ has_needs_update n'))
  ∧ (∀ bmain g st',
       deg_graph_flush_updates bmain g = Finished st' →
       (∀ op n c,
          visited op ∈ history st' →
          operations g !! op = Some n → comp_nodes g !! op_owner n = Some c →
          registered g (op_owner n) ∨ comp_done c ≠ COMPONENT_STATE_DONE →
          ∀ q m', q ∈ comp_operations c → operations (graph st') !! q = Some m' →
                  op_opcode m' ≠ DEG_OPCODE_PARTICLE_SETTINGS_EVAL → has_needs_update m')
       ∧ (tagging_keeps_flags →
          ∀ q n n', operations g !! q = Some n → operations (graph st') !! q = Some n' →
                    op_opcode n = DEG_OPCODE_PARTICLE_SETTINGS_EVAL →
                    visited q ∉ history st' → op_flag n' = op_flag n)).
Proof.
  intros Hcontract. split.
  - intros i p st st' c Hrun Hc Hdone.
    destruct (flush_handle_component_node_retag _ _ _ _ _ Hcontract Hrun Hc Hdone)
      as (g1 & g2 & Hg1 & Hkeep & Htag & Hops).
    exists g1, g2. do 4 (split; [done|]). intros q n Hn. rewrite Hops.
    rewrite (tag_component_operations_exact _ _ _ Htag q n Hn). split; [|split].
    + intros Hcode. rewrite decide_False; [done|]. by intros [_ ?].
    + intros Hnot. rewrite decide_False; [done|]. by intros [? _].
    + intros Hin Hcode. rewrite decide_True by done. eexists. split; [done|].
      split; [done|]. apply raise_needs_update_has.
  - intros bmain g st' Hrun. split.
    + intros op n c Hvisit Hn Hc Hreset.
      by apply (flush_component_tagged bmain g st' op n c).
    + intros Hkeep q n n' Hn Hn' Hcode Hnot.
      apply flush_with_inv in Hrun as [[_ ->] | (g1 & st1 & Hprep & Hentry & Hloop)].
      { simpl in Hn'. congruence. }
      destruct (decide (op_flag n' = op_flag n)) as [Heq|Hne]; [done|]. destruct Hnot.
      destruct (flush_prepare_exact _ _ Hprep) as (Hops1 & _).
      apply flush_schedule_entrypoints_run in Hentry as (_ & _ & _ & _ & _ & _ & _ & _ & Hops2).
      simpl in Hops2.
      assert (operations g1 !! q = Some (set_op_scheduled false n)) as Hq1.
      { by rewrite Hops1, list_lookup_fmap, Hn. }
      specialize (Hops2 q _ Hq1).
      eapply (flush_loop_particle _ Hcontract Hkeep _ _ _ q _ n' Hloop Hops2 Hn').
      * by case_decide.
      * by case_decide.
Qed.

(** ** One flush after another *)

(** X17.  A flush keeps a well-formed graph well formed: every pointer stored
    in a node still has its target. When the tagging call leaves the entry set
    alone, the entry tags keep their targets too, and a second flush, called
    on what the first one left, runs to its end as well. *)
Theorem flush_keeps_well_formed (bmain : list ID) (g : Depsgraph) (st' : FlushState) :
  tag_update_contract →
  well_formed bmain g →
  deg_graph_flush_updates bmain g = Finished st' →
  wf_nodes (length (datablocks st')) (graph st')
  ∧ (use_copy_on_write = false ∨ (∀ c g, entry_tags (tag_update c g) = entry_tags g) →
     well_formed (datablocks st') (graph st')
     ∧ ∃ st'', deg_graph_flush_updates (datablocks st') (graph st') = Finished st'').
Proof.
  intros Hcontract [Hwf Hentry] Hrun.
  assert (length (datablocks st') = length bmain) as Hlen.
  { by destruct (flush_datablocks_run _ _ _ Hcontract Hrun) as [[_ ->] | (Hlen & _)]. }
  assert (same_shape g (graph st')
          ∧ (use_copy_on_write = false ∨ (∀ c g, entry_tags (tag_update c g) = entry_tags g) →
             entry_tags (graph st') = entry_tags g)) as [Hshape Htags].
  { apply (flush_with_run _ _ _ _ Hcontract) in Hrun
      as [[Hempty ->] | (g1 & st1 & Hreset & Hes & Hle & _)].
    - split; [apply same_shape_refl|done].
    - split; [by eapply flush_run_shape|]. intros Hkeep.
      rewrite (le_entry _ _ Hle Hkeep), (es_entry _ _ Hes). simpl.
      apply (ro_entry _ _ Hreset). }
  assert (wf_nodes (length (datablocks st')) (graph st')) as Hwf'.
  { rewrite Hlen. by eapply wf_nodes_shape. }
  split; [done|]. intros Hkeep.
  assert (well_formed (datablocks st') (graph st')) as Hwell.
  { split; [done|]. rewrite (Htags Hkeep).
    destruct (same_shape_lengths _ _ Hshape) as (-> & _). done. }
  split; [done|]. by apply flush_updates_finishes.
Qed.

(** ** How often an operation is visited *)

Lemma event_steps_trans g x y z : event_steps g x y → event_steps g y z → event_steps g x z.
Proof.
  intros Hxy Hyz. induction Hyz as [|y m z Hrun IH Hstep]; [done|].
  eapply steps_snoc; [by apply IH|done].
Qed.

Lemma event_steps_one g x y : event_step g x y → event_steps g x y.
Proof. intros Hstep. eapply steps_snoc; [apply steps_refl|done]. Qed.

Lemma event_steps_invariant g (I : list FlushEvent * FlushQueue * option nat → Prop) x y :
  (∀ a b, event_step g a b → I a → I b) → event_steps g x y → I x → I y.
Proof. intros Hstep Hrun Hx. induction Hrun; eauto. Qed.

Lemma event_step_balance g p x y : event_step g x y → visit_balance p x → visit_balance p y.
Proof.
  unfold visit_balance, visited_times, queued_times, scheduled_times, pose_entry_pushes.
  intros Hstep. destruct Hstep; cbn [fst snd];
    rewrite ?filter_snoc_length, ?filter_cons_length;
    simpl; repeat case_decide; simplify_eq; simpl in *; try lia; try done.
Qed.

Lemma event_step_no_pose_push g p x y :
  (∀ i n pp pc, id_nodes g !! i = Some n →
     find_component n DEG_NODE_TYPE_EVAL_POSE = Some pp →
     comp_nodes g !! pp = Some pc → comp_entry_operation pc ≠ Some p) →
  event_step g x y → no_pose_push p x → no_pose_push p y.
Proof.
  unfold no_pose_push, pose_entry_pushes. intros Hno Hstep.
  destruct Hstep as [| h q a i n pp pc Hn Hfind Hpc | | |]; cbn [fst snd];
    rewrite ?filter_snoc_length; simpl; try (intros ->; done).
  intros ->. rewrite decide_False; [done|]. by eapply Hno.
Qed.

Lemma flush_handle_component_node_events g i p st st' a :
  tag_update_contract → same_shape g (graph st) →
  flush_handle_component_node i p st = Some st' →
  event_steps g (history st, queue st, a) (history st', queue st', a).
Proof.
  intros Hcontract Hshape Hrun.
  pose proof (flush_handle_component_node_le _ _ _ _ Hcontract Hrun) as Hle.
  assert (same_shape g (graph st')) as Hshape'.
  { eapply same_shape_trans; [exact Hshape|]. apply graph_le_shape, Hle. }
  destruct (comp_nodes (graph st) !! p) as [c|] eqn:Hc;
    [|unfold flush_handle_component_node in Hrun; by rewrite Hc in Hrun].
  destruct (decide (comp_done c = COMPONENT_STATE_DONE)) as [Hdone|Hdone].
  { unfold flush_handle_component_node in Hrun. rewrite Hc in Hrun. simpl in Hrun.
    rewrite decide_True in Hrun by done. inversion Hrun. apply steps_refl. }
  destruct (flush_handle_component_node_steps _ _ _ _ _ Hcontract Hrun Hc Hdone)
    as (g1 & g2 & _ & _ & _ & Hpose).
  destruct Hpose as [[_ ->] | [_ Hpose]]; [apply steps_refl|].
  apply flush_reschedule_pose_inv in Hpose
    as (n & pp & pc & Hn & Hfind & Hpc & [[_ ->] | [_ ->]]); [apply steps_refl|].
  simpl in *. apply event_steps_one.
  destruct (same_shape_find _ _ _ _ Hshape' Hn) as (n0 & Hn0 & Hfinds).
  assert (comp_nodes
            (set_comp_nodes (<[pp:=set_comp_done COMPONENT_STATE_SCHEDULED pc]> (comp_nodes g2))
               g2) !! pp = Some (set_comp_done COMPONENT_STATE_SCHEDULED pc)) as Hpc'.
  { simpl. apply list_lookup_insert_eq. by eapply lookup_lt_Some. }
  destruct (same_shape_comp_fields _ _ _ _ Hshape' Hpc') as (pc0 & Hpc0 & _ & _ & Hentry & _).
  simpl in Hentry. rewrite Hentry. eapply step_pose; [exact Hn0| |exact Hpc0].
  by rewrite <- Hfinds.
Qed.

Lemma flush_schedule_children_events g op st st' next :
  flush_schedule_children op st = Some (st', next) →
  event_steps g (history st, queue st, None) (history st', queue st', next).
Proof.
  unfold flush_schedule_children. intros Hrun. bind_inv Hrun. revert Hrun.
  apply (foreach_invariant
           (λ a : FlushState * option nat,
              event_steps g (history st, queue st, None) (history a.1, queue a.1, a.2)));
    [|apply steps_refl].
  intros t [u r] [u' r'] _ Hsteps
    (m & Hm & [(_ & -> & ->) | (_ & _ & _ & _ & Hcase)])%flush_schedule_child_inv;
    [done|]. simpl in *.
  eapply steps_snoc; [exact Hsteps|].
  destruct Hcase as [(-> & -> & -> & ->) | ([r0 ->] & -> & -> & ->)].
  - apply step_child_returned.
  - apply step_child_push.
Qed.

Lemma flush_round_events g st a st' a' :
  tag_update_contract → same_shape g (graph st) →
  flush_round st a = Continue st' a' →
  event_steps g (history st, queue st, a) (history st', queue st', a').
Proof.
  intros Hcontract Hshape. unfold flush_round. destruct a as [op|].
  - destruct (flush_visit op st) as [[st1 next]|] eqn:Hvisit; [|done].
    intros [= <- <-].
    apply flush_visit_inv in Hvisit
      as (u1 & u2 & u3 & n1 & c1 & Hraise & Hn1 & Hc1 & Hid & Hcomp & Hch).
    pose proof (flush_raise_le _ _ _ Hraise) as [H01 _].
    pose proof (flush_handle_id_node_le _ _ _ Hid) as [H12 _].
    apply on_graph_inv in Hraise as (g' & _ & ->).
    assert (same_shape g (graph u2)) as Hshape2.
    { eapply same_shape_trans; [exact Hshape|]. apply graph_le_shape.
      eapply graph_le_trans; [apply H01 | apply H12]. }
    assert (history u2 = history st ++ [visited op] ∧ queue u2 = queue st) as [Hh2 Hq2].
    { apply flush_handle_id_node_inv in Hid as (m & _ & [[_ ->] | (_ & dbs & ->)]); done. }
    eapply event_steps_trans; [apply event_steps_one, step_visit|].
    rewrite <- Hh2, <- Hq2.
    eapply event_steps_trans; [by eapply flush_handle_component_node_events|].
    by eapply flush_schedule_children_events.
  - destruct (queue st) as [|front rest] eqn:Hq; [done|]. intros [= <- <-]. simpl.
    apply event_steps_one, step_pop.
Qed.

Lemma visit_balance_entries p (l : list nat) :
  visit_balance p (entry_push_back <$> l, Some <$> l, None).
Proof.
  unfold visit_balance, visited_times, queued_times, scheduled_times, pose_entry_pushes.
  cbn [fst snd]. induction l as [|e l IH]; [done|].
  rewrite !fmap_cons, !filter_cons_length. simpl in *.
  repeat case_decide; simplify_eq; lia.
Qed.

Lemma no_pose_push_entries p (l : list nat) q a :
  no_pose_push p (entry_push_back <$> l, q, a).
Proof.
  unfold no_pose_push, pose_entry_pushes. cbn [fst snd].
  induction l as [|e l IH]; [done|]. rewrite fmap_cons, filter_cons_length. simpl. done.
Qed.

(** A flush that went through its loop moved its operations by the steps
    of [event_step] only, from the entry tags in the queue to an empty
    queue. *)
Lemma flush_events_run bmain g st' :
  tag_update_contract →
  deg_graph_flush_updates bmain g = Finished st' →
  (entry_tags g = [] ∧ st' = flush_start bmain g)
  ∨ event_steps g (entry_push_back <$> entry_tags g, Some <$> entry_tags g, None)
      (history st', [], None).
Proof.
  intros Hcontract Hrun. pose proof Hrun as Hrun'.
  apply (flush_with_run _ _ _ _ Hcontract) in Hrun'
    as [? | (_ & _ & _ & _ & _ & Hq & _)]; [by left|].
  apply flush_with_inv in Hrun as [? | (g1 & st1 & Hprep & Hentry & Hloop)]; [by left|].
  right. pose proof (flush_prepare_effect _ _ Hprep) as Hreset.
  pose proof (flush_schedule_entrypoints_effect _ _ Hentry) as Hes.
  apply (flush_loop_invariant
           (λ t b, same_shape g (graph t)
                   ∧ event_steps g
                       (entry_push_back <$> entry_tags g, Some <$> entry_tags g, None)
                       (history t, queue t, b))) in Hloop.
  - destruct Hloop as [_ Hsteps]. by rewrite Hq in Hsteps.
  - intros t b t' b' [Hs Hsteps] Hround. split.
    + eapply same_shape_trans; [exact Hs|]. apply graph_le_shape.
      by destruct (flush_round_effect _ _ _ _ Hcontract Hround) as ([Hg _ _ _ _ _] & _).
    + eapply event_steps_trans; [exact Hsteps|]. by eapply flush_round_events.
  - split; [apply (flush_run_shape g g1 st1 st1 bmain); [done..|apply flush_le_refl]|].
    rewrite (es_history _ _ Hes), (es_queue _ _ Hes). simpl.
    rewrite (ro_entry _ _ Hreset). apply steps_refl.
Qed.

Lemma flush_scheduled_once bmain g st' p :
  tag_update_contract → NoDup (entry_tags g) →
  deg_graph_flush_updates bmain g = Finished st' →
  scheduled_times p (history st') ≤ 1.
Proof.
  intros Hcontract Hnodup Hrun.
  apply (flush_with_run _ _ _ _ Hcontract) in Hrun
    as [[Hempty ->] | (g1 & st1 & Hreset & Hentry & Hle & _)].
  - unfold scheduled_times. simpl. lia.
  - pose proof (le_sched _ _ Hle p) as Hbal.
    rewrite (es_history _ _ Hentry) in Hbal. simpl in Hbal.
    rewrite (sched_bit_entries bmain g1 st1) in Hbal;
      [|intros q; by eapply reset_of_unscheduled|done].
    rewrite scheduled_times_entries in Hbal by (by rewrite (ro_entry _ _ Hreset)).
    pose proof (sched_bit_le (graph st') p). lia.
Qed.

(** X18.  How often a flush visits an operation: as often as it was scheduled,
    which is at most once, plus as often as the bone rule pushed it. An
    operation that is the entry operation of the pose component of no ID node
    is therefore visited at most once. *)
Theorem flush_visit_counts (bmain : list ID) (g : Depsgraph) (st' : FlushState) (p : nat) :
  tag_update_contract → NoDup (entry_tags g) →
  deg_graph_flush_updates bmain g = Finished st' →
  visited_times p (history st')
  = scheduled_times p (history st') + pose_entry_pushes p (history st')
  ∧ visited_times p (history st') ≤ 1 + pose_entry_pushes p (history st')
  ∧ ((∀ i n pp pc, id_nodes g !! i = Some n →
        find_component n DEG_NODE_TYPE_EVAL_POSE = Some pp →
        comp_nodes g !! pp = Some pc → comp_entry_operation pc ≠ Some p) →
     visited_times p (history st') ≤ 1).
Proof.
  intros Hcontract Hnodup Hrun.
  pose proof (flush_scheduled_once _ _ _ p Hcontract Hnodup Hrun) as Honce.
  destruct (flush_events_run _ _ _ Hcontract Hrun) as [[_ ->] | Hsteps].
  { unfold visited_times, scheduled_times, pose_entry_pushes. simpl.
    split; [done|]. split; [lia|]. intros _. lia. }
  assert (visited_times p (history st')
          = scheduled_times p (history st') + pose_entry_pushes p (history st')) as Heq.
  { pose proof (event_steps_invariant g (visit_balance p) _ _
                  (λ a b Hstep, event_step_balance g p a b Hstep) Hsteps
                  (visit_balance_entries p (entry_tags g))) as Hbal.
    unfold visit_balance, queued_times in Hbal. simpl in Hbal. lia. }
  split; [done|]. split; [lia|]. intros Hno.
  pose proof (event_steps_invariant g (no_pose_push p) _ _
                (λ a b Hstep, event_step_no_pose_push g p a b Hno Hstep) Hsteps
                (no_pose_push_entries p (entry_tags g) _ _)) as Hnone.
  unfold no_pose_push in Hnone. simpl in Hnone. lia.
Qed.

(** ** The calls to the collaborators, in their order *)





(** X20.  The component handler runs once per component: after a call, the
    component is done, and a second call returns the state as it is. *)
Theorem flush_handle_component_node_once (i p : nat) (st st' : FlushState) :
  tag_update_contract →
  flush_handle_component_node i p st = Some st' →
  (∃ c', comp_nodes (graph st') !! p = Some c' ∧ comp_done c' = COMPONENT_STATE_DONE)
  ∧ flush_handle_component_node i p st' = Some st'.
Proof.
  intros Hcontract Hrun.
  destruct (flush_handle_component_node_done _ _ _ _ Hcontract Hrun) as [(c' & Hc' & Hd) _].
  split; [by exists c'|].
  unfold flush_handle_component_node. rewrite Hc'. simpl. by rewrite decide_True by done.
Qed.

End Flush.


(** ** The example, run *)

Local Abbreviation example_flush cow expanded :=
  (deg_graph_flush_updates example_NEEDS_UPDATE example_RECALC_ALL cow expanded
     tag_update_spec example_recalc_tag example_recalc_data_tag
     armature_datablocks armature).

Lemma example_recalc_calls_keep_tags :
  recalc_calls_keep_tags example_recalc_tag example_recalc_data_tag.
Proof.
  intros b. split; intros k Hk; unfold example_recalc_tag, example_recalc_data_tag; simpl;
    by rewrite Z.lor_spec, Hk.
Qed.

Lemma example_recalc_calls_set_recalc_tags :
  recalc_calls_set_recalc_tags example_RECALC_ALL example_recalc_tag example_recalc_data_tag.
Proof.
  intros b. unfold example_RECALC_ALL. change 12288%Z with (Z.lor 4096 8192).
  split; intros k; unfold example_recalc_tag, example_recalc_data_tag; simpl;
    rewrite !Z.lor_spec; intros [Hk|Hk]%orb_true_iff; rewrite Hk; auto using orb_true_r.
Qed.

Lemma tag_update_spec_contract (mask : Z) : tag_update_contract mask tag_update_spec.
Proof.
  intros c g. unfold tag_update_spec.
  destruct (comp_nodes g !! c) as [cn|]; [|apply flags_only_refl].
  destruct (comp_entry_operation cn) as [op|]; [|apply flags_only_refl].
  case_decide; [apply flags_only_refl|].
  repeat split. simpl. apply Forall2_refl_on. intros n. by split.
Qed.

Lemma armature_flush_run :
  example_flush false (λ _, true) = Finished armature_flushed.
Proof. by vm_compute. Qed.

Lemma armature_flush_run_unexpanded :
  example_flush false (λ _, false) = Finished armature_flushed_unexpanded.
Proof. by vm_compute. Qed.

Lemma armature_flush_run_cow :
  example_flush true (λ _, true) = Finished armature_flushed_cow.
Proof. by vm_compute. Qed.

Lemma armature_reachable (p : nat) : reachable armature p → p = 0 ∨ p = 1 ∨ p = 2.
Proof.
  induction 1 as [e He | p t n _ IH Hn Ht].
  - apply list_elem_of_singleton in He. auto.
  - destruct IH as [-> | [-> | ->]]; simpl in Hn; inversion Hn; subst; simpl in Ht.
    + apply elem_of_cons in Ht as [-> | Ht]; [auto|].
      apply list_elem_of_singleton in Ht. auto.
    + by apply elem_of_nil in Ht.
    + by apply elem_of_nil in Ht.
Qed.

(** C1 on the armature. *)
Lemma scheduled_at_most_once_witness :
  tag_update_contract example_NEEDS_UPDATE tag_update_spec
  ∧ NoDup (entry_tags armature)
  ∧ example_flush false (λ _, true) = Finished armature_flushed
  ∧ scheduled_times 2 (history armature_flushed) ≤ 1
  ∧ pose_pushes 1 (history armature_flushed) ≤ 1.
Proof.
  split; [apply tag_update_spec_contract|].
  split; [apply NoDup_singleton|].
  split; [apply armature_flush_run|].
  destruct (scheduled_at_most_once example_NEEDS_UPDATE example_RECALC_ALL false (λ _, true)
              tag_update_spec example_recalc_tag example_recalc_data_tag
              armature_datablocks armature armature_flushed
              (tag_update_spec_contract _) (NoDup_singleton 0) armature_flush_run)
    as [Hops Hpose].
  split; [apply (Hops 2) | apply (Hpose 1)].
Defined.

(** C1 fails as stated: in the flush of the armature operation 2 is put
    into the queue twice, by the bone rule and as a child of operation 0,
    and is visited twice. *)
Lemma worklist_insertion_twice :
  example_flush false (λ _, true) = Finished armature_flushed
  ∧ enqueued_times 2 (history armature_flushed) = 2
  ∧ length (filter (λ e, e = visited 2) (history armature_flushed)) = 2.
Proof. split; [apply armature_flush_run|]. by vm_compute. Qed.

(** C2 on the armature: operation 2 is reachable and ends flagged;
    operation 3, whose flags changed, belongs to the component of a visited
    operation. *)
Lemma flush_tags_reachable_witness :
  tag_update_contract example_NEEDS_UPDATE tag_update_spec
  ∧ example_flush false (λ _, true) = Finished armature_flushed
  ∧ reachable armature 2
  ∧ (∃ n', operations (graph armature_flushed) !! 2 = Some n'
         ∧ has_needs_update example_NEEDS_UPDATE n')
  ∧ tagging_keeps_flags false tag_update_spec
  ∧ touched armature (history armature_flushed) 3.
Proof.
  assert (reachable armature 2) as Hreach.
  { eapply (reachable_link armature 0 2); [apply reachable_entry; by left|reflexivity|].
    simpl. right. by left. }
  destruct (flush_tags_reachable example_NEEDS_UPDATE example_RECALC_ALL false (λ _, true)
              tag_update_spec example_recalc_tag example_recalc_data_tag
              armature_datablocks armature armature_flushed
              (tag_update_spec_contract _) armature_flush_run) as [Hflagged Hframe].
  split; [apply tag_update_spec_contract|].
  split; [apply armature_flush_run|].
  split; [exact Hreach|].
  split; [exact (Hflagged 2 Hreach)|].
  split; [left; reflexivity|].
  apply (Hframe (or_introl eq_refl) 3 _ _ eq_refl eq_refl). discriminate.
Defined.

(** C2 fails as stated: no link leads to operation 3 of the armature and it
    is not an entry tag, its NEEDS_UPDATE is clear before the flush and set
    after it, by the tagging loop of the pose component. *)
Lemma unreachable_operation_flagged :
  example_flush false (λ _, true) = Finished armature_flushed
  ∧ ¬ reachable armature 3
  ∧ (∃ n, operations armature !! 3 = Some n ∧ ¬ has_needs_update example_NEEDS_UPDATE n)
  ∧ (∃ n', operations (graph armature_flushed) !! 3 = Some n'
         ∧ has_needs_update example_NEEDS_UPDATE n').
Proof.
  split; [apply armature_flush_run|]. split; [|split].
  - intros [H | [H | H]]%armature_reachable; discriminate.
  - eexists. split; [reflexivity|]. by vm_compute.
  - eexists. split; [reflexivity|]. by vm_compute.
Qed.

(** C3 on the armature. *)
Lemma entity_handled_once_witness :
  tag_update_contract example_NEEDS_UPDATE tag_update_spec
  ∧ NoDup (id_orig <$> id_nodes armature)
  ∧ NoDup (id_cow <$> id_nodes armature)
  ∧ example_flush false (λ _, true) = Finished armature_flushed
  ∧ visited 0 ∈ history armature_flushed
  ∧ ∃ n c i i',
      operations armature !! 0 = Some n
      ∧ comp_nodes armature !! op_owner n = Some c
      ∧ id_nodes armature !! comp_owner c = Some i
      ∧ id_nodes (graph armature_flushed) !! comp_owner c = Some i' ∧ id_done i' ≠ 0%Z
      ∧ call_times (lib_id_recalc_tag (id_orig i)) (calls armature_flushed) = 1
      ∧ call_times (lib_id_recalc_data_tag (id_orig i)) (calls armature_flushed) = 1
      ∧ call_times (deg_editors_id_update (id_cow i)) (calls armature_flushed)
        = if (λ _ : nat, true) (id_cow i) then 1 else 0.
Proof.
  assert (visited 0 ∈ history armature_flushed) as Hvisit by (simpl; right; by left).
  split; [apply tag_update_spec_contract|].
  split; [apply NoDup_singleton|].
  split; [apply NoDup_singleton|].
  split; [apply armature_flush_run|].
  split; [exact Hvisit|].
  apply (entity_handled_once example_NEEDS_UPDATE example_RECALC_ALL false (λ _, true)
           tag_update_spec example_recalc_tag example_recalc_data_tag
           armature_datablocks armature armature_flushed
           (tag_update_spec_contract _) (NoDup_singleton 0) (NoDup_singleton 1)
           armature_flush_run 0 Hvisit).
Defined.

(** C3 fails as stated: when the copy of the object is not expanded, the
    flush of the armature visits its operations and makes the two
    recalculation calls, but no editor update call at all. *)
Lemma unexpanded_entity_not_notified :
  example_flush false (λ _, false) = Finished armature_flushed_unexpanded
  ∧ visited 0 ∈ history armature_flushed_unexpanded
  ∧ call_times (deg_editors_id_update 1) (calls armature_flushed_unexpanded) = 0
  ∧ ∀ id_cow, call_times (deg_editors_id_update id_cow) (calls armature_flushed_unexpanded) = 0.
Proof.
  split; [apply armature_flush_run_unexpanded|].
  split; [simpl; right; by left|]. split; [by vm_compute|].
  intros id_cow. by vm_compute.
Qed.

(** C4 on the armature. *)
Lemma pose_entry_pushed_at_most_once_witness :
  tag_update_contract example_NEEDS_UPDATE tag_update_spec
  ∧ example_flush false (λ _, true) = Finished armature_flushed
  ∧ pose_pushes 1 (history armature_flushed) ≤ 1
  ∧ (pose_pushes 1 (history armature_flushed) = 1 →
     ∃ cn, comp_nodes (graph armature_flushed) !! 1 = Some cn
         ∧ comp_done cn ≠ COMPONENT_STATE_NONE).
Proof.
  split; [apply tag_update_spec_contract|].
  split; [apply armature_flush_run|].
  apply (pose_entry_pushed_at_most_once example_NEEDS_UPDATE example_RECALC_ALL false
           (λ _, true) tag_update_spec example_recalc_tag example_recalc_data_tag
           armature_datablocks armature armature_flushed 1
           (tag_update_spec_contract _) armature_flush_run).
Defined.

(** C5 on the armature.  The handler on the geometry component, as the
    reset and the entry scheduling left it: operation 5, a particle settings
    evaluation, is left as it was and operation 1 is flagged. The flush:
    operation 1 was visited, its component is in the hash of the ID node, and
    operation 1 is flagged at the end; operation 5 was not visited and has
    the flags it had. *)
Lemma retag_skips_particle_settings_witness :
  tag_update_contract example_NEEDS_UPDATE tag_update_spec
  ∧ (∃ st', flush_handle_component_node example_NEEDS_UPDATE false tag_update_spec
              0 2 armature_scheduled = Some st'
          ∧ operations (graph st') !! 5 = operations (graph armature_scheduled) !! 5
          ∧ ∃ n', operations (graph st') !! 1 = Some n'
                ∧ has_needs_update example_NEEDS_UPDATE n')
  ∧ example_flush false (λ _, true) = Finished armature_flushed
  ∧ (∃ m', operations (graph armature_flushed) !! 1 = Some m'
         ∧ has_needs_update example_NEEDS_UPDATE m')
  ∧ ∃ n n', operations armature !! 5 = Some n
          ∧ operations (graph armature_flushed) !! 5 = Some n'
          ∧ op_opcode n = DEG_OPCODE_PARTICLE_SETTINGS_EVAL
          ∧ op_flag n' = op_flag n.
Proof.
  destruct (retag_skips_particle_settings example_NEEDS_UPDATE example_RECALC_ALL false
              (λ _, true) tag_update_spec example_recalc_tag example_recalc_data_tag
              (tag_update_spec_contract _)) as [Hhandler Hflush].
  split; [apply tag_update_spec_contract|]. split; [|split; [apply armature_flush_run|]].
  - eexists. split; [vm_compute; reflexivity|].
    match goal with |- context [graph ?s] => set (st' := s) end.
    destruct (Hhandler 0 2 armature_scheduled st'
                (set_comp_done COMPONENT_STATE_NONE armature_geometry) eq_refl eq_refl)
      as (g1 & g2 & _ & Hkeep & _ & _ & Hops); [discriminate|].
    rewrite (Hkeep (or_introl eq_refl)) in Hops. split.
    + destruct (Hops 5 _ eq_refl) as (Hskip & _). rewrite Hskip; reflexivity.
    + destruct (Hops 1 _ eq_refl) as (_ & _ & Htag).
      destruct Htag as (n' & Hn' & _ & Hnu); [simpl; left; reflexivity | discriminate |].
      exists n'. split; assumption.
  - destruct (Hflush armature_datablocks armature armature_flushed armature_flush_run)
      as [Htagged Hkept].
    assert (visited 1 ∈ history armature_flushed) as Hvisit.
    { simpl. do 5 right. by left. }
    assert (registered armature 2) as Hreg.
    { apply (bool_decide_unpack _). vm_compute. reflexivity. }
    assert (1 ∈ [1; 5]) as Hin by (by left).
    assert (visited 5 ∉ history armature_flushed) as Hnot.
    { apply (bool_decide_unpack _). vm_compute. reflexivity. }
    split.
    + eexists. split; [reflexivity|].
      apply (Htagged 1 _ _ Hvisit eq_refl eq_refl (or_introl Hreg) 1 _ Hin eq_refl).
      discriminate.
    + eexists _, _. split; [reflexivity|]. split; [reflexivity|]. split; [reflexivity|].
      apply (Hkept (or_introl eq_refl) 5 _ _ eq_refl eq_refl eq_refl Hnot).
Defined.

(** C6 on the armature without its entry tag. *)
Lemma flush_empty_entry_set_witness :
  entry_tags (set_entry_tags [] armature) = []
  ∧ deg_graph_flush_updates example_NEEDS_UPDATE example_RECALC_ALL true (λ _, true)
      tag_update_spec example_recalc_tag example_recalc_data_tag
      armature_datablocks (set_entry_tags [] armature)
    = Finished {| graph := set_entry_tags [] armature; datablocks := armature_datablocks;
                  queue := []; calls := []; history := [] |}.
Proof.
  split; [reflexivity|].
  apply (flush_empty_entry_set example_NEEDS_UPDATE example_RECALC_ALL true (λ _, true)
           tag_update_spec example_recalc_tag example_recalc_data_tag
           armature_datablocks (set_entry_tags [] armature) eq_refl).
Defined.

Lemma armature_well_formed : well_formed true armature_datablocks armature.
Proof. apply (bool_decide_unpack _). vm_compute. reflexivity. Qed.

(** C7 on the armature, copy-on-write on: the armature is well formed, its
    flush returns, and a budget of 31 rounds, one above the bound its size
    gives, yields the same result. *)
Lemma flush_updates_terminates_witness :
  tag_update_contract example_NEEDS_UPDATE tag_update_spec
  ∧ well_formed true armature_datablocks armature
  ∧ example_flush true (λ _, true) ≠ OutOfFuel
  ∧ deg_graph_flush_updates_fuel example_NEEDS_UPDATE example_RECALC_ALL true (λ _, true)
      tag_update_spec example_recalc_tag example_recalc_data_tag 31 armature_datablocks armature
    = example_flush true (λ _, true)
  ∧ ∃ st', example_flush true (λ _, true) = Finished st'.
Proof.
  split; [apply tag_update_spec_contract|].
  split; [apply armature_well_formed|].
  destruct (flush_updates_terminates example_NEEDS_UPDATE example_RECALC_ALL true (λ _, true)
              tag_update_spec example_recalc_tag example_recalc_data_tag
              armature_datablocks armature (tag_update_spec_contract _))
    as (Hend & Hfuel & Hreturns).
  split; [exact Hend|]. split.
  - apply Hfuel. simpl. lia.
  - apply Hreturns, armature_well_formed.
Defined.

Lemma armature_rest_run :
  flush_loop example_NEEDS_UPDATE example_RECALC_ALL false (λ _, true) tag_update_spec
    example_recalc_tag example_recalc_data_tag 20 armature_bone_visited (Some 1)
  = Finished armature_flushed.
Proof. by vm_compute. Qed.

Lemma armature_geometry_flush_run :
  deg_graph_flush_updates example_NEEDS_UPDATE example_RECALC_ALL false (λ _, true)
    tag_update_spec example_recalc_tag example_recalc_data_tag
    armature_datablocks armature_geometry_tagged
  = Finished armature_geometry_flushed.
Proof. by vm_compute. Qed.

(** C8 on the armature.  The rest of the loop, from the moment operation 0
    has been visited: the pose component goes from SCHEDULED to DONE and the
    bone component, DONE, stays so. *)
Lemma component_done_never_regresses_witness :
  tag_update_contract example_NEEDS_UPDATE tag_update_spec
  ∧ flush_loop example_NEEDS_UPDATE example_RECALC_ALL false (λ _, true) tag_update_spec
      example_recalc_tag example_recalc_data_tag 20 armature_bone_visited (Some 1)
    = Finished armature_flushed
  ∧ (∃ cn cn', comp_nodes (graph armature_bone_visited) !! 1 = Some cn
       ∧ comp_done cn = COMPONENT_STATE_SCHEDULED
       ∧ comp_nodes (graph armature_flushed) !! 1 = Some cn'
       ∧ state_value (comp_done cn) ≤ state_value (comp_done cn'))
  ∧ (∃ cn cn', comp_nodes (graph armature_bone_visited) !! 0 = Some cn
       ∧ comp_done cn = COMPONENT_STATE_DONE
       ∧ comp_nodes (graph armature_flushed) !! 0 = Some cn'
       ∧ state_value (comp_done cn) ≤ state_value (comp_done cn')).
Proof.
  split; [apply tag_update_spec_contract|].
  split; [apply armature_rest_run|].
  destruct (component_done_never_regresses example_NEEDS_UPDATE example_RECALC_ALL false
              (λ _, true) tag_update_spec example_recalc_tag example_recalc_data_tag
              (tag_update_spec_contract _))
    as (_ & _ & _ & _ & Hloop & _).
  split.
  - destruct (Hloop 20 armature_bone_visited (Some 1) armature_flushed 1 _
                armature_rest_run eq_refl) as (cn' & Hcn' & Hle).
    eexists _, cn'. split; [reflexivity|]. split; [reflexivity|].
    split; [exact Hcn' | exact Hle].
  - destruct (Hloop 20 armature_bone_visited (Some 1) armature_flushed 0 _
                armature_rest_run eq_refl) as (cn' & Hcn' & Hle).
    eexists _, cn'. split; [reflexivity|]. split; [reflexivity|].
    split; [exact Hcn' | exact Hle].
Defined.

(** C8 fails as stated: the pose component of the armature is DONE when the
    flush is called, left so by an earlier flush. The reset, the first step
    of the flush past the early return, puts it back to NONE, and a flush
    from operation 1 never comes to the pose component, which is NONE when
    the flush returns. *)
Lemma done_component_reset_to_none :
  deg_graph_flush_updates example_NEEDS_UPDATE example_RECALC_ALL false (λ _, true)
    tag_update_spec example_recalc_tag example_recalc_data_tag
    armature_datablocks armature_geometry_tagged
  = Finished armature_geometry_flushed
  ∧ flush_prepare armature_geometry_tagged = Some (set_entry_tags [1] armature_reset)
  ∧ (∃ cn, comp_nodes armature_geometry_tagged !! 1 = Some cn
         ∧ comp_done cn = COMPONENT_STATE_DONE)
  ∧ (∃ cn1, comp_nodes (set_entry_tags [1] armature_reset) !! 1 = Some cn1
          ∧ comp_done cn1 = COMPONENT_STATE_NONE)
  ∧ (∃ cn', comp_nodes (graph armature_geometry_flushed) !! 1 = Some cn'
          ∧ comp_done cn' = COMPONENT_STATE_NONE).
Proof.
  split; [apply armature_geometry_flush_run|]. split; [by vm_compute|].
  repeat split; eexists; split; reflexivity.
Qed.

(** C10 on the armature, copy-on-write off. *)
Lemma entry_set_kept_until_clear_witness :
  tag_update_contract example_NEEDS_UPDATE tag_update_spec
  ∧ (false = false ∨ ∀ c g, entry_tags (tag_update_spec c g) = entry_tags g)
  ∧ example_flush false (λ _, true) = Finished armature_flushed
  ∧ entry_tags (graph armature_flushed) = entry_tags armature.
Proof.
  split; [apply tag_update_spec_contract|].
  split; [left; reflexivity|].
  split; [apply armature_flush_run|].
  destruct (entry_set_kept_until_clear example_NEEDS_UPDATE example_DIRECTLY_MODIFIED
              example_RECALC_ALL false (λ _, true) tag_update_spec
              example_recalc_tag example_recalc_data_tag
              (tag_update_spec_contract _) (or_introl eq_refl)) as [Hflush _].
  apply (Hflush armature_datablocks armature armature_flushed armature_flush_run).
Defined.

(** C10 fails as stated: with copy-on-write on, the bone component of the
    armature depends on the copy and its handling tags the copy-on-write
    component, so that operation 4, not an entry tag before the flush, is
    one after it. *)
Lemma flush_adds_entry_tag :
  example_flush true (λ _, true) = Finished armature_flushed_cow
  ∧ entry_tags armature = [0]
  ∧ entry_tags (graph armature_flushed_cow) = [0; 4]
  ∧ entry_tags (graph armature_flushed_cow) ≠ entry_tags armature.
Proof. split; [apply armature_flush_run_cow|]. by repeat split. Qed.

(** ** The example, step by step *)

Lemma armature_prepare_run : flush_prepare armature = Some armature_reset.
Proof. by vm_compute. Qed.

Lemma armature_entry_run :
  flush_schedule_entrypoints (flush_start armature_datablocks armature_reset)
  = Some armature_scheduled.
Proof. by vm_compute. Qed.

Lemma armature_hashes_in_range : hashes_in_range armature.
Proof. apply (bool_decide_unpack _). vm_compute. reflexivity. Qed.

(** X1 on the armature.  The reset of the armature: the pose component, left
    done by an earlier flush, is in the hash of the ID node and returns to
    NONE. *)
Lemma flush_prepare_resets_witness :
  flush_prepare armature = Some armature_reset
  ∧ ∀ c cn, comp_nodes armature !! c = Some cn →
      comp_nodes armature_reset !! c
      = Some (if decide (registered armature c)
              then set_comp_done COMPONENT_STATE_NONE cn else cn).
Proof.
  split; [apply armature_prepare_run|].
  destruct (flush_prepare_resets armature armature_reset armature_prepare_run)
    as (_ & _ & _ & _ & Hcomps).
  exact Hcomps.
Defined.

(** X2 on the armature. *)
Lemma flush_prepare_succeeds_iff_witness :
  hashes_in_range armature ∧ is_Some (flush_prepare armature).
Proof.
  split; [apply armature_hashes_in_range|].
  apply (proj2 (flush_prepare_succeeds_iff armature)), armature_hashes_in_range.
Defined.

(** X3 on the armature. *)
Lemma flush_prepare_idempotent_witness :
  flush_prepare armature = Some armature_reset
  ∧ flush_prepare armature_reset = Some armature_reset.
Proof.
  split; [apply armature_prepare_run|].
  apply (flush_prepare_idempotent armature armature_reset armature_prepare_run).
Defined.

(** X4 on the armature.  The entry scheduling of the armature: its one entry
    tag joins the queue. *)
Lemma flush_schedule_entrypoints_exact_witness :
  flush_schedule_entrypoints (flush_start armature_datablocks armature_reset)
  = Some armature_scheduled
  ∧ queue armature_scheduled = [] ++ (Some <$> entry_tags armature_reset)
  ∧ datablocks armature_scheduled = armature_datablocks.
Proof.
  split; [apply armature_entry_run|].
  destruct (flush_schedule_entrypoints_exact (flush_start armature_datablocks armature_reset))
    as [_ Hexact].
  destruct (Hexact armature_scheduled armature_entry_run) as (Hq & Hd & _).
  split; [exact Hq | exact Hd].
Defined.

(** X5 on the armature.  The ID node handler on the armature, whose original
    datablock carries a recalculation tag: the copy receives it, the original
    is what the two recalculation calls make of it, and a second call changes
    nothing. *)
Lemma flush_handle_id_node_merges_tags_witness :
  ∃ n orig cow,
    id_nodes (graph armature_scheduled) !! 0 = Some n ∧ id_done n = 0%Z
    ∧ datablocks armature_scheduled !! id_orig n = Some orig
    ∧ datablocks armature_scheduled !! id_cow n = Some cow
    ∧ id_orig n ≠ id_cow n
    ∧ ∃ st' cow',
        flush_handle_id_node example_RECALC_ALL (λ _, true) example_recalc_tag
          example_recalc_data_tag 0 armature_scheduled = Some st'
        ∧ datablocks st' !! id_orig n
          = Some (example_recalc_data_tag (example_recalc_tag orig))
        ∧ datablocks st' !! id_cow n = Some cow'
        ∧ (∀ b, Z.testbit (id_tag cow') b
                = Z.testbit (id_tag cow) b
                  || (Z.testbit (id_tag orig) b && Z.testbit example_RECALC_ALL b))
        ∧ flush_handle_id_node example_RECALC_ALL (λ _, true) example_recalc_tag
            example_recalc_data_tag 0 st' = Some st'.
Proof.
  eexists _, _, _. do 4 (split; [reflexivity|]).
  assert (0 ≠ 1) as Hne by discriminate. split; [exact Hne|].
  destruct (flush_handle_id_node_merges_tags example_RECALC_ALL (λ _, true)
              example_recalc_tag example_recalc_data_tag 0 armature_scheduled _ _ _
              eq_refl eq_refl eq_refl eq_refl)
    as (st' & Hrun & _ & _ & _ & _ & _ & _ & Hsplit & _ & Hagain).
  destruct (Hsplit Hne) as (Horig & cow' & Hcow' & Hbits).
  exists st', cow'. split; [exact Hrun|]. split; [exact Horig|].
  split; [exact Hcow'|]. split; [exact Hbits | exact Hagain].
Defined.

(** X6 on the armature. *)
Lemma flush_handle_id_node_succeeds_iff_witness :
  (∃ n, id_nodes (graph armature_scheduled) !! 0 = Some n
      ∧ (id_done n ≠ 0%Z
         ∨ (id_orig n < length (datablocks armature_scheduled)
            ∧ id_cow n < length (datablocks armature_scheduled))))
  ∧ is_Some (flush_handle_id_node example_RECALC_ALL (λ _, true) example_recalc_tag
               example_recalc_data_tag 0 armature_scheduled).
Proof.
  assert (∃ n, id_nodes (graph armature_scheduled) !! 0 = Some n
             ∧ (id_done n ≠ 0%Z
                ∨ (id_orig n < length (datablocks armature_scheduled)
                   ∧ id_cow n < length (datablocks armature_scheduled)))) as Hok.
  { eexists. split; [reflexivity|]. right. simpl. lia. }
  split; [exact Hok|].
  apply (proj2 (proj1 (flush_handle_id_node_succeeds_iff example_RECALC_ALL (λ _, true)
                         example_recalc_tag example_recalc_data_tag 0
                         armature_scheduled))), Hok.
Defined.

(** X7 on the armature.  The datablocks of the armature over its flush: the
    original datablock keeps its recalculation tag and gains recalculation
    tags only. *)
Lemma flush_datablock_tags_grow_witness :
  tag_update_contract example_NEEDS_UPDATE tag_update_spec
  ∧ example_flush false (λ _, true) = Finished armature_flushed
  ∧ length (datablocks armature_flushed) = length armature_datablocks
  ∧ recalc_calls_keep_tags example_recalc_tag example_recalc_data_tag
  ∧ recalc_calls_set_recalc_tags example_RECALC_ALL example_recalc_tag example_recalc_data_tag
  ∧ ∃ blk blk', armature_datablocks !! 0 = Some blk
      ∧ datablocks armature_flushed !! 0 = Some blk'
      ∧ (∀ k, Z.testbit (id_tag blk) k = true → Z.testbit (id_tag blk') k = true)
      ∧ ∀ k, Z.testbit (id_tag blk') k = true →
             Z.testbit (id_tag blk) k = true ∨ Z.testbit example_RECALC_ALL k = true.
Proof.
  split; [apply tag_update_spec_contract|]. split; [apply armature_flush_run|].
  destruct (flush_datablock_tags_grow example_NEEDS_UPDATE example_RECALC_ALL false
              (λ _, true) tag_update_spec example_recalc_tag example_recalc_data_tag
              armature_datablocks armature armature_flushed
              (tag_update_spec_contract _) armature_flush_run)
    as (Hlen & _ & Hkeep & Hgain).
  split; [exact Hlen|]. split; [apply example_recalc_calls_keep_tags|].
  split; [apply example_recalc_calls_set_recalc_tags|].
  destruct (Hkeep example_recalc_calls_keep_tags 0 _ eq_refl) as (blk1 & Hblk1 & Hup).
  destruct (Hgain example_recalc_calls_set_recalc_tags 0 _ eq_refl) as (blk2 & Hblk2 & Hdown).
  eexists _, blk1. split; [reflexivity|]. split; [exact Hblk1|]. split; [exact Hup|].
  simpl in Hblk1, Hblk2. inversion Hblk1; subst blk1. inversion Hblk2; subst blk2.
  exact Hdown.
Defined.

(** X8 on the armature. *)
Lemma flush_copies_recalc_tags_witness :
  tag_update_contract example_NEEDS_UPDATE tag_update_spec
  ∧ recalc_calls_keep_tags example_recalc_tag example_recalc_data_tag
  ∧ example_flush false (λ _, true) = Finished armature_flushed
  ∧ visited 0 ∈ history armature_flushed
  ∧ ∃ n c i, operations armature !! 0 = Some n ∧ comp_nodes armature !! op_owner n = Some c
      ∧ id_nodes armature !! comp_owner c = Some i
      ∧ ∃ orig cow, armature_datablocks !! id_orig i = Some orig
          ∧ datablocks armature_flushed !! id_cow i = Some cow
          ∧ ∀ k, Z.testbit (id_tag orig) k = true → Z.testbit example_RECALC_ALL k = true →
                 Z.testbit (id_tag cow) k = true.
Proof.
  assert (visited 0 ∈ history armature_flushed) as Hvisit by (simpl; right; by left).
  split; [apply tag_update_spec_contract|].
  split; [apply example_recalc_calls_keep_tags|]. split; [apply armature_flush_run|].
  split; [exact Hvisit|]. eexists _, _, _. do 3 (split; [reflexivity|]).
  apply (flush_copies_recalc_tags example_NEEDS_UPDATE example_RECALC_ALL false (λ _, true)
           tag_update_spec example_recalc_tag example_recalc_data_tag
           armature_datablocks armature armature_flushed 0 _ _ _
           (tag_update_spec_contract _) example_recalc_calls_keep_tags
           armature_flush_run Hvisit eq_refl eq_refl eq_refl).
Defined.

(** X9 on the armature.  The component handler on the bone component of the
    armature, with copy-on-write off: the ID node has a pose component, the
    handler comes to its end. *)
Lemma flush_handle_component_node_succeeds_iff_witness :
  tag_update_contract example_NEEDS_UPDATE tag_update_spec
  ∧ (∃ c, comp_nodes (graph armature_scheduled) !! 0 = Some c
        ∧ (comp_done c = COMPONENT_STATE_DONE
           ∨ comp_handler_ok false (graph armature_scheduled) 0 c))
  ∧ is_Some (flush_handle_component_node example_NEEDS_UPDATE false tag_update_spec
               0 0 armature_scheduled).
Proof.
  assert (∃ c, comp_nodes (graph armature_scheduled) !! 0 = Some c
             ∧ (comp_done c = COMPONENT_STATE_DONE
                ∨ comp_handler_ok false (graph armature_scheduled) 0 c)) as Hok.
  { eexists. split; [reflexivity|]. right. split; [|split].
    - simpl. intros Hmode. discriminate Hmode.
    - simpl. repeat constructor.
    - intros _. eexists _, _. split; [reflexivity|]. split; [reflexivity|]. simpl. lia. }
  split; [apply tag_update_spec_contract|]. split; [exact Hok|].
  apply (proj2 (proj1 (flush_handle_component_node_succeeds_iff example_NEEDS_UPDATE false
                         tag_update_spec 0 0 armature_scheduled
                         (tag_update_spec_contract _)))), Hok.
Defined.

(** X10 on the armature.  The children of the bone operation of the armature:
    operation 1 is handed on, operation 2 is pushed in front of the queue. *)
Lemma flush_schedule_children_exact_witness :
  ∃ n, operations (graph armature_scheduled) !! 0 = Some n
     ∧ Forall (λ t, t < length (operations (graph armature_scheduled))) (op_outlinks n)
     ∧ ∃ st', flush_schedule_children 0 armature_scheduled = Some (st', Some 1)
            ∧ queue st' = [Some 2; Some 0].
Proof.
  eexists. split; [reflexivity|].
  assert (Forall (λ t, t < length (operations (graph armature_scheduled))) [1; 2]) as Hvalid.
  { repeat constructor; simpl; lia. }
  split; [exact Hvalid|].
  destruct (flush_schedule_children_exact 0 armature_scheduled _ eq_refl Hvalid)
    as (st' & fresh & -> & _ & _ & _ & Hrun & Hq & _).
  exists st'. split; [exact Hrun | exact Hq].
Defined.

(** X11 on the armature. *)
Lemma flush_keeps_shape_witness :
  tag_update_contract example_NEEDS_UPDATE tag_update_spec
  ∧ example_flush false (λ _, true) = Finished armature_flushed
  ∧ length (operations (graph armature_flushed)) = length (operations armature).
Proof.
  split; [apply tag_update_spec_contract|]. split; [apply armature_flush_run|].
  apply (flush_keeps_shape example_NEEDS_UPDATE example_RECALC_ALL false (λ _, true)
           tag_update_spec example_recalc_tag example_recalc_data_tag
           armature_datablocks armature armature_flushed
           (tag_update_spec_contract _) armature_flush_run).
Defined.

(** X12 on the armature.  Operation 3 of the armature, flagged with its
    component. *)
Lemma flush_raises_needs_update_only_witness :
  tag_update_contract example_NEEDS_UPDATE tag_update_spec
  ∧ tagging_keeps_flags false tag_update_spec
  ∧ example_flush false (λ _, true) = Finished armature_flushed
  ∧ ∃ n n', operations armature !! 3 = Some n
      ∧ operations (graph armature_flushed) !! 3 = Some n'
      ∧ (op_flag n' = op_flag n ∨ op_flag n' = Z.lor (op_flag n) example_NEEDS_UPDATE).
Proof.
  split; [apply tag_update_spec_contract|]. split; [left; reflexivity|].
  split; [apply armature_flush_run|].
  destruct (flush_raises_needs_update_only example_NEEDS_UPDATE example_RECALC_ALL false
              (λ _, true) tag_update_spec example_recalc_tag example_recalc_data_tag
              armature_datablocks armature armature_flushed
              (tag_update_spec_contract _) (or_introl eq_refl) armature_flush_run 3 _ eq_refl)
    as (n' & Hn' & Hflag).
  eexists _, n'. split; [reflexivity|]. split; [exact Hn' | exact Hflag].
Defined.

(** X13 on the armature. *)
Lemma flush_then_clear_tags_witness :
  tag_update_contract example_NEEDS_UPDATE tag_update_spec
  ∧ tagging_keeps_flags false tag_update_spec
  ∧ example_flush false (λ _, true) = Finished armature_flushed
  ∧ ∃ g0 g2,
      deg_graph_clear_tags example_NEEDS_UPDATE example_DIRECTLY_MODIFIED armature = Some g0
      ∧ deg_graph_clear_tags example_NEEDS_UPDATE example_DIRECTLY_MODIFIED
          (graph armature_flushed) = Some g2
      ∧ op_flag <$> operations g2 = op_flag <$> operations g0
      ∧ entry_tags g2 = [].
Proof.
  split; [apply tag_update_spec_contract|]. split; [left; reflexivity|].
  split; [apply armature_flush_run|].
  destruct (flush_then_clear_tags example_NEEDS_UPDATE example_DIRECTLY_MODIFIED
              example_RECALC_ALL false (λ _, true) tag_update_spec
              example_recalc_tag example_recalc_data_tag armature_datablocks
              armature armature_flushed (tag_update_spec_contract _) (or_introl eq_refl)
              armature_flush_run)
    as (g0 & g2 & H0 & H2 & Hflags & Hentry & _).
  exists g0, g2. split; [exact H0|]. split; [exact H2|]. split; [exact Hflags | exact Hentry].
Defined.

(** X14 on the armature.  Operation 2 of the armature, the pose entry
    operation, is within the closure. *)
Lemma flush_visits_within_closure_witness :
  tag_update_contract example_NEEDS_UPDATE tag_update_spec
  ∧ example_flush false (λ _, true) = Finished armature_flushed
  ∧ visited 2 ∈ history armature_flushed
  ∧ flush_closure armature 2.
Proof.
  assert (visited 2 ∈ history armature_flushed) as Hvisit.
  { simpl. do 6 right. by left. }
  split; [apply tag_update_spec_contract|]. split; [apply armature_flush_run|].
  split; [exact Hvisit|].
  apply (proj1 (flush_visits_within_closure example_NEEDS_UPDATE example_RECALC_ALL false
                  (λ _, true) tag_update_spec example_recalc_tag example_recalc_data_tag
                  armature_datablocks armature armature_flushed
                  (tag_update_spec_contract _) armature_flush_run) 2 Hvisit).
Defined.

(** X15 on the armature. *)
Lemma flush_visits_reachable_witness :
  tag_update_contract example_NEEDS_UPDATE tag_update_spec
  ∧ example_flush false (λ _, true) = Finished armature_flushed
  ∧ reachable armature 2
  ∧ visited 2 ∈ history armature_flushed.
Proof.
  assert (reachable armature 2) as Hreach.
  { eapply (reachable_link armature 0 2); [apply reachable_entry; by left|reflexivity|].
    simpl. right. by left. }
  split; [apply tag_update_spec_contract|]. split; [apply armature_flush_run|].
  split; [exact Hreach|].
  apply (proj1 (flush_visits_reachable example_NEEDS_UPDATE example_RECALC_ALL false
                  (λ _, true) tag_update_spec example_recalc_tag example_recalc_data_tag
                  armature_datablocks armature armature_flushed
                  (tag_update_spec_contract _) armature_flush_run) 2 Hreach).
Defined.

(** X16 on the armature.  Operation 3 of the armature: no link leads to it,
    and it is flagged with the pose component, which the flush came to through
    operation 2. *)
Lemma flush_tags_whole_component_witness :
  tag_update_contract example_NEEDS_UPDATE tag_update_spec
  ∧ example_flush false (λ _, true) = Finished armature_flushed
  ∧ visited 2 ∈ history armature_flushed
  ∧ ∃ n c m',
      operations armature !! 2 = Some n ∧ comp_nodes armature !! op_owner n = Some c
      ∧ (registered armature (op_owner n) ∨ comp_done c ≠ COMPONENT_STATE_DONE)
      ∧ 3 ∈ comp_operations c
      ∧ operations (graph armature_flushed) !! 3 = Some m'
      ∧ op_opcode m' ≠ DEG_OPCODE_PARTICLE_SETTINGS_EVAL
      ∧ has_needs_update example_NEEDS_UPDATE m'.
Proof.
  assert (visited 2 ∈ history armature_flushed) as Hvisit.
  { simpl. do 6 right. by left. }
  assert (registered armature 1) as Hreg.
  { apply (bool_decide_unpack _). vm_compute. reflexivity. }
  assert (3 ∈ [2; 3]) as Hin by (right; by left).
  split; [apply tag_update_spec_contract|]. split; [apply armature_flush_run|].
  split; [exact Hvisit|]. eexists _, _, _.
  split; [reflexivity|]. split; [reflexivity|]. split; [left; exact Hreg|].
  split; [exact Hin|]. split; [reflexivity|]. split; [discriminate|].
  apply (flush_tags_whole_component example_NEEDS_UPDATE example_RECALC_ALL false
           (λ _, true) tag_update_spec example_recalc_tag example_recalc_data_tag
           armature_datablocks armature armature_flushed 2 _ _
           (tag_update_spec_contract _) armature_flush_run Hvisit eq_refl eq_refl
           (or_introl Hreg) 3 _ Hin eq_refl).
  discriminate.
Defined.

Lemma armature_well_formed_off : well_formed false armature_datablocks armature.
Proof. apply (bool_decide_unpack _). vm_compute. reflexivity. Qed.

(** X17 on the armature.  The armature after its flush, copy-on-write off, can
    be flushed again. *)
Lemma flush_keeps_well_formed_witness :
  tag_update_contract example_NEEDS_UPDATE tag_update_spec
  ∧ well_formed false armature_datablocks armature
  ∧ example_flush false (λ _, true) = Finished armature_flushed
  ∧ wf_nodes false (length (datablocks armature_flushed)) (graph armature_flushed)
  ∧ ∃ st'', deg_graph_flush_updates example_NEEDS_UPDATE example_RECALC_ALL false (λ _, true)
              tag_update_spec example_recalc_tag example_recalc_data_tag
              (datablocks armature_flushed) (graph armature_flushed)
            = Finished st''.
Proof.
  split; [apply tag_update_spec_contract|]. split; [apply armature_well_formed_off|].
  split; [apply armature_flush_run|].
  destruct (flush_keeps_well_formed example_NEEDS_UPDATE example_RECALC_ALL false (λ _, true)
              tag_update_spec example_recalc_tag example_recalc_data_tag
              armature_datablocks armature armature_flushed
              (tag_update_spec_contract _) armature_well_formed_off armature_flush_run)
    as [Hwf Hnext].
  split; [exact Hwf|]. destruct (Hnext (or_introl eq_refl)) as [_ Hagain]. exact Hagain.
Defined.

(** X18 on the armature.  The visits of the flush of the armature: operation
    2, scheduled once and pushed once by the bone rule, is visited twice;
    operation 1, the entry operation of no pose component, once. *)
Lemma flush_visit_counts_witness :
  tag_update_contract example_NEEDS_UPDATE tag_update_spec
  ∧ NoDup (entry_tags armature)
  ∧ example_flush false (λ _, true) = Finished armature_flushed
  ∧ visited_times 2 (history armature_flushed)
    = scheduled_times 2 (history armature_flushed)
      + pose_entry_pushes 2 (history armature_flushed)
  ∧ (∀ i n pp pc, id_nodes armature !! i = Some n →
       find_component n DEG_NODE_TYPE_EVAL_POSE = Some pp →
       comp_nodes armature !! pp = Some pc → comp_entry_operation pc ≠ Some 1)
  ∧ visited_times 1 (history armature_flushed) ≤ 1.
Proof.
  assert (∀ i n pp pc, id_nodes armature !! i = Some n →
            find_component n DEG_NODE_TYPE_EVAL_POSE = Some pp →
            comp_nodes armature !! pp = Some pc → comp_entry_operation pc ≠ Some 1) as Hno.
  { intros i n pp pc Hn Hfind Hpc. destruct i as [|i]; [|by destruct i].
    simpl in Hn. inversion Hn; subst; clear Hn. vm_compute in Hfind.
    inversion Hfind; subst; clear Hfind. simpl in Hpc. inversion Hpc; subst. discriminate. }
  split; [apply tag_update_spec_contract|]. split; [apply NoDup_singleton|].
  split; [apply armature_flush_run|].
  split; [apply (flush_visit_counts example_NEEDS_UPDATE example_RECALC_ALL false (λ _, true)
                   tag_update_spec example_recalc_tag example_recalc_data_tag
                   armature_datablocks armature armature_flushed 2
                   (tag_update_spec_contract _) (NoDup_singleton 0) armature_flush_run)|].
  split; [exact Hno|].
  apply (flush_visit_counts example_NEEDS_UPDATE example_RECALC_ALL false (λ _, true)
           tag_update_spec example_recalc_tag example_recalc_data_tag
           armature_datablocks armature armature_flushed 1
           (tag_update_spec_contract _) (NoDup_singleton 0) armature_flush_run), Hno.
Defined.


(** X20 on the armature: the component handler on its bone component,
    twice. *)
Lemma flush_handle_component_node_once_witness :
  tag_update_contract example_NEEDS_UPDATE tag_update_spec
  ∧ ∃ st', flush_handle_component_node example_NEEDS_UPDATE false tag_update_spec
             0 0 armature_scheduled = Some st'
         ∧ flush_handle_component_node example_NEEDS_UPDATE false tag_update_spec
             0 0 st' = Some st'.
Proof.
  split; [apply tag_update_spec_contract|].
  assert (is_Some (flush_handle_component_node example_NEEDS_UPDATE false tag_update_spec
                     0 0 armature_scheduled)) as [st' Hrun].
  { vm_compute. eexists. reflexivity. }
  exists st'. split; [exact Hrun|].
  apply (flush_handle_component_node_once example_NEEDS_UPDATE false tag_update_spec
           0 0 armature_scheduled st' (tag_update_spec_contract _) Hrun).
Defined.
